(** * DisplayService: a shallow embedding of src/services/DisplayService.js

    The service orchestrates four repositories (displays, views, content
    slots, content slot options) and an event emitter.  Every method is
    asynchronous: it issues repository calls one after another, awaiting
    each one, except where the source calls a method without awaiting it.

    The embedding has three layers.
    - The persisted state ([store]) and the repository operations on it.
      The repositories are not part of the service file; they are modelled
      from the specification's description of the persistence layer.
    - The service methods, written as programs ([prog]) over repository
      calls.  A program is a tree: [Call] awaits one repository call,
      [Spawn] starts a promise that is not awaited, [Throw] rejects.
    - An execution function ([exec]) that runs the awaited part of a program
      against a [world], queueing the spawned promises in [pending], and
      [settle], which later runs the queued promises.

    Every repository call is one atomic step on the persisted state.  [exec]
    follows one method call from its start to the point where its promise
    settles, and takes one schedule for the promises that the method started
    without awaiting them: such a promise issues its calls when [settle]
    runs it, after the method has settled.  In the source the first read of
    such a promise is issued when the promise is started, and its later
    calls can fall between the remaining awaited calls of the method.  These
    promises touch option maps only, so what is proved about content slots,
    views, displays and events does not depend on the schedule; what is
    proved about an option map at the point where a method settles is
    proved for this schedule.  Calls of other clients that race with the
    method at the storage layer are not part of the model. *)

From stdpp Require Import gmap strings list fin_maps.

Set Default Proof Using "Type".
Set Warnings "-clear-no-such-hyp".

(** ** Data model *)

(** Option values are opaque scalars. *)
Inductive value : Type :=
| VString (s : string)
| VNumber (z : Z)
| VBoolean (b : bool)
| VNull.

Global Instance value_eq_dec : EqDecision value.
Proof. solve_decision. Defined.

Record Display : Type := mkDisplay {
  display_id : nat;
  display_name : string;
  display_active : bool;
  display_clientId : string;
  display_description : string;
  display_location : string
}.

Global Instance Display_eq_dec : EqDecision Display.
Proof. solve_decision. Defined.

(** [view_order] is the position of the view inside its screen-type group;
    the source calls the field [order]. *)
Record View : Type := mkView {
  view_id : nat;
  view_name : string;
  view_columns : Z;
  view_rows : Z;
  view_displayId : nat;
  view_order : nat;
  view_screenType : string
}.

Global Instance View_eq_dec : EqDecision View.
Proof. solve_decision. Defined.

Record ContentSlot : Type := mkContentSlot {
  slot_id : nat;
  slot_componentType : string;
  slot_viewId : nat;
  slot_columnStart : Z;
  slot_rowStart : Z;
  slot_columnEnd : Z;
  slot_rowEnd : Z
}.

Global Instance ContentSlot_eq_dec : EqDecision ContentSlot.
Proof. solve_decision. Defined.

(** A submitted content slot, as the routing layer hands it over.
    [desc_id = None] is [contentSlot.id === undefined];
    [desc_options = None] is a missing [options] property, which the
    service replaces by the empty object ([contentSlot.options || {}]).
    An options object is its [Object.entries] list.  [desc_viewId] is any
    [viewId] property the submitted object may carry. *)
Record SlotDescriptor : Type := mkSlotDescriptor {
  desc_id : option nat;
  desc_componentType : string;
  desc_columnStart : Z;
  desc_rowStart : Z;
  desc_columnEnd : Z;
  desc_rowEnd : Z;
  desc_options : option (list (string * value));
  desc_viewId : option nat
}.

Inductive error : Type :=
| NotFound
| StorageFailure
| ListenerFailure.

Global Instance error_eq_dec : EqDecision error.
Proof. solve_decision. Defined.

Inductive event_name : Type :=
| display_created
| display_updated
| display_deleted
| views_updated.

Global Instance event_name_eq_dec : EqDecision event_name.
Proof. solve_decision. Defined.

(** What an event carries: the result of a [getDisplayById] (a record, or
    null when there is none) or the result of a repository delete. *)
Inductive payload : Type :=
| payload_display (d : option Display)
| payload_result (r : bool).

Global Instance payload_eq_dec : EqDecision payload.
Proof. solve_decision. Defined.

Definition event : Type := event_name * payload.

(** ** Persisted state *)

Record store : Type := mkStore {
  displays : gmap nat Display;
  views : gmap nat View;
  contentSlots : gmap nat ContentSlot;
  contentSlotOptions : gmap nat (gmap string value);
  nextDisplayId : nat;
  nextViewId : nat;
  nextContentSlotId : nat
}.

Definition with_displays (m : gmap nat Display) (n : nat) (s : store) : store :=
  mkStore m (views s) (contentSlots s) (contentSlotOptions s)
          n (nextViewId s) (nextContentSlotId s).

Definition with_views (m : gmap nat View) (n : nat) (s : store) : store :=
  mkStore (displays s) m (contentSlots s) (contentSlotOptions s)
          (nextDisplayId s) n (nextContentSlotId s).

Definition with_contentSlots (m : gmap nat ContentSlot) (n : nat) (s : store) : store :=
  mkStore (displays s) (views s) m (contentSlotOptions s)
          (nextDisplayId s) (nextViewId s) n.

Definition with_contentSlotOptions (m : gmap nat (gmap string value)) (s : store) : store :=
  mkStore (displays s) (views s) (contentSlots s) m
          (nextDisplayId s) (nextViewId s) (nextContentSlotId s).

(** The option map persisted for one content slot. *)
Definition optionsOf (s : store) (contentSlotId : nat) : gmap string value :=
  default ∅ (contentSlotOptions s !! contentSlotId).

(** The content slots persisted for one view. *)
Definition slotsOfView (s : store) (viewId : nat) : list ContentSlot :=
  filter (λ c, slot_viewId c = viewId) (map_to_list (contentSlots s)).*2.

(** The views of one display that share a screen type. *)
Definition viewsOfGroup (s : store) (displayId : nat) (screenType : string) : list View :=
  filter (λ v, view_displayId v = displayId ∧ view_screenType v = screenType)
         (map_to_list (views s)).*2.

(** ** Repository calls *)

Inductive call : Type :=
| displayRepository_createDisplay (name : string) (active : bool)
    (clientId description location : string)
| displayRepository_getDisplayById (displayId : nat)
| displayRepository_deleteDisplay (displayId : nat)
| displayRepository_updateDisplay (displayId : nat) (name : string) (active : bool)
    (clientId description location : string)
| viewRepository_getViewsByDisplayIdAndScreenType (displayId : nat) (screenType : string)
| viewRepository_createView (name : string) (columns rows : Z) (displayId order : nat)
    (screenType : string)
| viewRepository_getViewById (viewId : nat)
| viewRepository_updateView (viewId : nat) (name : string) (columns rows : Z)
    (displayId order : nat) (screenType : string)
| viewRepository_deleteView (viewId : nat)
| contentSlotRepository_getContentSlotsByViewId (viewId : nat)
| contentSlotRepository_getContentSlot (contentSlotId : nat)
| contentSlotRepository_createContentSlot (componentType : string) (viewId : nat)
    (columnStart rowStart columnEnd rowEnd : Z)
| contentSlotRepository_updateContentSlot (contentSlotId : nat) (componentType : string)
    (viewId : nat) (columnStart rowStart columnEnd rowEnd : Z)
| contentSlotRepository_deleteContentSlot (contentSlotId : nat)
| contentSlotOptionRepository_getOptionsForContentSlot (contentSlotId : nat)
| contentSlotOptionRepository_deleteOptionsForContentSlot (contentSlotId : nat)
| contentSlotOptionRepository_deleteOption (contentSlotId : nat) (key : string)
| contentSlotOptionRepository_updateOption (contentSlotId : nat) (key : string) (v : value)
| contentSlotOptionRepository_createOption (contentSlotId : nat) (key : string) (v : value)
| emit (name : event_name) (p : payload)
| logger_error (e : error).

Global Instance call_eq_dec : EqDecision call.
Proof. solve_decision. Defined.

(** What a call resolves to when it does not reject. *)
Definition resp (c : call) : Type :=
  match c with
  | displayRepository_createDisplay _ _ _ _ _ => nat
  | displayRepository_getDisplayById _ => option Display
  | displayRepository_deleteDisplay _ => bool
  | displayRepository_updateDisplay _ _ _ _ _ _ => option nat
  | viewRepository_getViewsByDisplayIdAndScreenType _ _ => list View
  | viewRepository_createView _ _ _ _ _ _ => nat
  | viewRepository_getViewById _ => View
  | viewRepository_updateView _ _ _ _ _ _ _ => View
  | viewRepository_deleteView _ => bool
  | contentSlotRepository_getContentSlotsByViewId _ => list ContentSlot
  | contentSlotRepository_getContentSlot _ => ContentSlot
  | contentSlotRepository_createContentSlot _ _ _ _ _ _ => ContentSlot
  | contentSlotRepository_updateContentSlot _ _ _ _ _ _ _ => option nat
  | contentSlotRepository_deleteContentSlot _ => bool
  | contentSlotOptionRepository_getOptionsForContentSlot _ => gmap string value
  | contentSlotOptionRepository_deleteOptionsForContentSlot _ => unit
  | contentSlotOptionRepository_deleteOption _ _ => unit
  | contentSlotOptionRepository_updateOption _ _ _ => unit
  | contentSlotOptionRepository_createOption _ _ _ => unit
  | emit _ _ => unit
  | logger_error _ => unit
  end.

(** Modelled from the spec: the four repositories are not in the service
    file.  The persistence layer offers, per entity, create(fields) -> id,
    get-by-id(id) -> record or not-found, get-by-parent-id -> sequence,
    update(id, fields) -> id or not-found, delete(id) -> boolean success;
    and for options get-all-for-slot -> mapping, create, update and delete
    by (slotId, key).  There are no transactions and no cascade.
    Where the service reads a property of a result ([newContentSlot.id],
    [updatedView.id]) the call resolves to the record; identities are
    assigned from a counter.  A get-by-id of a display resolves to null
    when there is none (the service hands that result on unchanged); a
    get-by-id of a view or of a content slot rejects with [NotFound]. *)
Definition repo (c : call) (s : store) : error + (resp c * store) :=
  match c return error + (resp c * store) with
  | displayRepository_createDisplay name active clientId description location =>
      let id := nextDisplayId s in
      inr (id, with_displays
                 (<[id := mkDisplay id name active clientId description location]> (displays s))
                 (S id) s)
  | displayRepository_getDisplayById displayId =>
      inr (displays s !! displayId, s)
  | displayRepository_deleteDisplay displayId =>
      match displays s !! displayId with
      | Some _ => inr (true, with_displays (delete displayId (displays s)) (nextDisplayId s) s)
      | None => inr (false, s)
      end
  | displayRepository_updateDisplay displayId name active clientId description location =>
      match displays s !! displayId with
      | Some _ =>
          inr (Some displayId,
               with_displays
                 (<[displayId := mkDisplay displayId name active clientId description location]>
                    (displays s))
                 (nextDisplayId s) s)
      | None => inr (None, s)
      end
  | viewRepository_getViewsByDisplayIdAndScreenType displayId screenType =>
      inr (viewsOfGroup s displayId screenType, s)
  | viewRepository_createView name columns rows displayId order screenType =>
      let id := nextViewId s in
      inr (id, with_views
                 (<[id := mkView id name columns rows displayId order screenType]> (views s))
                 (S id) s)
  | viewRepository_getViewById viewId =>
      match views s !! viewId with
      | Some v => inr (v, s)
      | None => inl NotFound
      end
  | viewRepository_updateView viewId name columns rows displayId order screenType =>
      match views s !! viewId with
      | Some _ =>
          let v := mkView viewId name columns rows displayId order screenType in
          inr (v, with_views (<[viewId := v]> (views s)) (nextViewId s) s)
      | None => inl NotFound
      end
  | viewRepository_deleteView viewId =>
      match views s !! viewId with
      | Some _ => inr (true, with_views (delete viewId (views s)) (nextViewId s) s)
      | None => inr (false, s)
      end
  | contentSlotRepository_getContentSlotsByViewId viewId =>
      inr (slotsOfView s viewId, s)
  | contentSlotRepository_getContentSlot contentSlotId =>
      match contentSlots s !! contentSlotId with
      | Some c => inr (c, s)
      | None => inl NotFound
      end
  | contentSlotRepository_createContentSlot componentType viewId cs rs ce re =>
      let id := nextContentSlotId s in
      let c := mkContentSlot id componentType viewId cs rs ce re in
      inr (c, with_contentSlots (<[id := c]> (contentSlots s)) (S id) s)
  | contentSlotRepository_updateContentSlot contentSlotId componentType viewId cs rs ce re =>
      match contentSlots s !! contentSlotId with
      | Some _ =>
          inr (Some contentSlotId,
               with_contentSlots
                 (<[contentSlotId := mkContentSlot contentSlotId componentType viewId cs rs ce re]>
                    (contentSlots s))
                 (nextContentSlotId s) s)
      | None => inr (None, s)
      end
  | contentSlotRepository_deleteContentSlot contentSlotId =>
      match contentSlots s !! contentSlotId with
      | Some _ =>
          inr (true, with_contentSlots (delete contentSlotId (contentSlots s))
                       (nextContentSlotId s) s)
      | None => inr (false, s)
      end
  | contentSlotOptionRepository_getOptionsForContentSlot contentSlotId =>
      inr (optionsOf s contentSlotId, s)
  | contentSlotOptionRepository_deleteOptionsForContentSlot contentSlotId =>
      inr (tt, with_contentSlotOptions (delete contentSlotId (contentSlotOptions s)) s)
  | contentSlotOptionRepository_deleteOption contentSlotId key =>
      inr (tt, with_contentSlotOptions
                 (<[contentSlotId := delete key (optionsOf s contentSlotId)]>
                    (contentSlotOptions s)) s)
  | contentSlotOptionRepository_updateOption contentSlotId key v =>
      match optionsOf s contentSlotId !! key with
      | Some _ =>
          inr (tt, with_contentSlotOptions
                     (<[contentSlotId := <[key := v]> (optionsOf s contentSlotId)]>
                        (contentSlotOptions s)) s)
      | None => inr (tt, s)
      end
  | contentSlotOptionRepository_createOption contentSlotId key v =>
      inr (tt, with_contentSlotOptions
                 (<[contentSlotId := <[key := v]> (optionsOf s contentSlotId)]>
                    (contentSlotOptions s)) s)
  | emit _ _ => inr (tt, s)
  | logger_error _ => inr (tt, s)
  end.

(** ** Programs *)

(** An asynchronous method body.  [Call c k] awaits the call [c] and goes
    on with [k], which receives either the value the call resolved to or the
    error it rejected with; [Spawn q k] starts [q] without awaiting it and
    goes on with [k] at once; [Throw e] rejects. *)
Inductive prog (A : Type) : Type :=
| Ret (a : A)
| Throw (e : error)
| Call (c : call) (k : error + resp c → prog A)
| Spawn (q : prog unit) (k : prog A).

Arguments Ret {A} a.
Arguments Throw {A} e.
Arguments Call {A} c k.
Arguments Spawn {A} q k.

Fixpoint bind {A B : Type} (p : prog A) (f : A → prog B) : prog B :=
  match p with
  | Ret a => f a
  | Throw e => Throw e
  | Call c k => Call c (λ r, bind (k r) f)
  | Spawn q k => Spawn q (bind k f)
  end.

Declare Scope prog_scope.
Delimit Scope prog_scope with prog.
Bind Scope prog_scope with prog.
Open Scope prog_scope.

Notation "x ← y ; z" := (bind y (λ x, z))
  (at level 20, y at level 100, z at level 200, only parsing) : prog_scope.
Notation "x ;; z" := (bind x (λ _, z))
  (at level 100, z at level 200, only parsing, right associativity) : prog_scope.

(** [p.catch(h)], and the [try { p } catch (e) { h e }] of an async body:
    only rejections of the awaited part reach the handler. *)
Fixpoint catch {A : Type} (p : prog A) (h : error → prog A) : prog A :=
  match p with
  | Ret a => Ret a
  | Throw e => h e
  | Call c k => Call c (λ r, catch (k r) h)
  | Spawn q k => Spawn q (catch k h)
  end.

(** [await c]: a rejected call rejects the method that awaits it. *)
Definition await (c : call) : prog (resp c) :=
  Call c (λ r, match r with inl e => Throw e | inr a => Ret a end).

(** A method called without [await]: its promise is dropped. *)
Definition unawaited {A : Type} (p : prog A) : prog unit :=
  Spawn (bind p (λ _, Ret tt)) (Ret tt).

(** [for (const x of l) { body }] with awaits in the body. *)
Fixpoint for_of {X : Type} (l : list X) (body : X → prog unit) : prog unit :=
  match l with
  | [] => Ret tt
  | x :: l' => bind (body x) (λ _, for_of l' body)
  end.

(** A loop that pushes one result per element. *)
Fixpoint for_push {X Y : Type} (l : list X) (body : X → prog Y) : prog (list Y) :=
  match l with
  | [] => Ret []
  | x :: l' => bind (body x) (λ y, bind (for_push l' body) (λ ys, Ret (y :: ys)))
  end.

(** ** Worlds and execution *)

Inductive outcome (A : Type) : Type :=
| Ok (a : A)
| Err (e : error).

Arguments Ok {A} a.
Arguments Err {A} e.

(** [clock] counts the calls issued so far, [trace] lists them in the order
    they were issued, [emitted] the events delivered, [logged] what went to
    the logger, [pending] the promises started and not awaited, [unhandled]
    the rejections of such promises. *)
Record world : Type := mkWorld {
  st : store;
  clock : nat;
  trace : list call;
  emitted : list event;
  logged : list error;
  pending : list (prog unit);
  unhandled : list error
}.

Definition failure_of (c : call) : error :=
  match c with
  | emit _ _ => ListenerFailure
  | _ => StorageFailure
  end.

Definition fallible (c : call) : bool :=
  match c with
  | logger_error _ => false
  | _ => true
  end.

Definition observe (c : call) (w : world) : world :=
  match c with
  | emit name p =>
      mkWorld (st w) (clock w) (trace w) (emitted w ++ [(name, p)]) (logged w)
              (pending w) (unhandled w)
  | logger_error e =>
      mkWorld (st w) (clock w) (trace w) (emitted w) (logged w ++ [e])
              (pending w) (unhandled w)
  | _ => w
  end.

Definition tick (c : call) (s : store) (w : world) : world :=
  mkWorld s (S (clock w)) (trace w ++ [c]) (emitted w) (logged w)
          (pending w) (unhandled w).

Definition enqueue (q : prog unit) (w : world) : world :=
  mkWorld (st w) (clock w) (trace w) (emitted w) (logged w)
          (pending w ++ [q]) (unhandled w).

Section Execution.

(** [fault n] says that the call issued at time [n] fails: a storage
    failure of a repository, or a listener that throws during [emit].
    A failed call leaves the persisted state as it was. *)
Variable fault : nat → bool.

Definition perform (c : call) (w : world) : (error + resp c) * world :=
  if fault (clock w) && fallible c then (inl (failure_of c), tick c (st w) w)
  else match repo c (st w) with
       | inl e => (inl e, tick c (st w) w)
       | inr (r, s') => (inr r, observe c (tick c s' w))
       end.

(** Runs the awaited part of a program. *)
Fixpoint exec {A : Type} (p : prog A) (w : world) : outcome A * world :=
  match p with
  | Ret a => (Ok a, w)
  | Throw e => (Err e, w)
  | Call c k => let '(r, w') := perform c w in exec (k r) w'
  | Spawn q k => exec k (enqueue q w)
  end.

Definition dequeue (w : world) : world :=
  mkWorld (st w) (clock w) (trace w) (emitted w) (logged w)
          (tail (pending w)) (unhandled w).

Definition reject_unhandled {A : Type} (r : outcome A) (w : world) : world :=
  match r with
  | Ok _ => w
  | Err e =>
      mkWorld (st w) (clock w) (trace w) (emitted w) (logged w)
              (pending w) (unhandled w ++ [e])
  end.

(** Runs the promises that were started and not awaited, oldest first,
    each to its end. *)
Fixpoint settle (fuel : nat) (w : world) : world :=
  match fuel with
  | 0 => w
  | S n =>
      match pending w with
      | [] => w
      | q :: _ =>
          let '(r, w') := exec q (dequeue w) in
          settle n (reject_unhandled r w')
      end
  end.

End Execution.

(** ** The service *)

(** [!id] on the result of a repository update: null and 0 are falsy. *)
Definition falsy (id : option nat) : bool :=
  match id with
  | Some (S _) => false
  | _ => true
  end.

(** [Object.prototype.hasOwnProperty.call(options, key)] *)
Definition hasOwnProperty (options : list (string * value)) (key : string) : bool :=
  bool_decide (key ∈ options.*1).

(** [existingOptions.has(key)] *)
Definition has (m : gmap string value) (key : string) : bool :=
  bool_decide (is_Some (m !! key)).

(** [existingOptions.keys()] *)
Definition keys (m : gmap string value) : list string := (map_to_list m).*1.

Definition getDisplayById (displayId : nat) : prog (option Display) :=
  await (displayRepository_getDisplayById displayId).

Definition createDisplay (name : string) (active : bool)
    (clientId description location : string) : prog (option Display) :=
  id ← await (displayRepository_createDisplay name active clientId description location);
  newDisplay ← getDisplayById id;
  await (emit display_created (payload_display newDisplay));;
  Ret newDisplay.

Definition deleteDisplay (displayId : nat) : prog bool :=
  result ← await (displayRepository_deleteDisplay displayId);
  (if result then await (emit display_deleted (payload_result result)) else Ret tt);;
  Ret result.

Definition updateDisplay (displayId : nat) (name : string) (active : bool)
    (clientId description location : string) : prog (option Display) :=
  id ← await (displayRepository_updateDisplay displayId name active clientId description location);
  if falsy id then getDisplayById displayId
  else
    updatedDisplay ← getDisplayById (default 0 id);
    await (emit display_updated (payload_display updatedDisplay));;
    Ret updatedDisplay.

Definition createView (name : string) (columns rows : Z) (displayId : nat)
    (screenType : string) : prog nat :=
  views ← await (viewRepository_getViewsByDisplayIdAndScreenType displayId screenType);
  await (viewRepository_createView name columns rows displayId (length views + 1) screenType).

(** A content slot together with its options object. *)
Definition EnrichedContentSlot : Type := ContentSlot * gmap string value.

(** [options[key] = value] on an object that started as [{}].  The key
    [__proto__] names the prototype accessor inherited from
    [Object.prototype]: assigning to it creates no property (a null value
    clears the prototype, any other scalar is ignored).  Every other key
    becomes an own property of the object. *)
Definition assign (options : gmap string value) (key : string) (v : value)
    : gmap string value :=
  if decide (key = "__proto__") then options else <[key := v]> options.

(** The Map of the option repository transformed to a regular object:
    [const options = {}; for (const [key, value] of allOptions.entries())
    options[key] = value]. *)
Definition toObject (allOptions : gmap string value) : gmap string value :=
  foldl (λ options entry, assign options entry.1 entry.2) ∅ (map_to_list allOptions).

Definition getContentSlotsForView (viewId : nat) : prog (list EnrichedContentSlot) :=
  contentSlots ← await (contentSlotRepository_getContentSlotsByViewId viewId);
  for_push (Y := EnrichedContentSlot) contentSlots (λ contentSlot,
    allOptions ← await (contentSlotOptionRepository_getOptionsForContentSlot (slot_id contentSlot));
    Ret (contentSlot, toObject allOptions)).

(** A view together with its enriched content slots.  The source starts
    both reads before awaiting them ([Promise.all]); neither writes, so
    they are taken one after the other.  When the read of the view rejects,
    the method rejects with that error; the reads of the content slots,
    which the source has started by then, write nothing and are left out. *)
Definition getView (viewId : nat) : prog (View * list EnrichedContentSlot) :=
  view ← await (viewRepository_getViewById viewId);
  contentSlots ← getContentSlotsForView viewId;
  Ret (view, contentSlots).

Definition deleteView (viewId : nat) : prog unit :=
  view ← getView viewId;
  display ← getDisplayById (view_displayId view.1);
  catch
    (await (viewRepository_deleteView viewId);;
     await (emit views_updated (payload_display display)))
    (λ error, await (logger_error error)).

Definition setOptionsForContentSlot (contentSlotId : nat) (options : list (string * value))
    : prog (gmap string value) :=
  existingOptions ← await (contentSlotOptionRepository_getOptionsForContentSlot contentSlotId);
  for_of (keys existingOptions) (λ key,
    if hasOwnProperty options key then Ret tt
    else await (contentSlotOptionRepository_deleteOption contentSlotId key));;
  for_of options (λ '(key, v),
    if has existingOptions key
    then await (contentSlotOptionRepository_updateOption contentSlotId key v)
    else await (contentSlotOptionRepository_createOption contentSlotId key v));;
  await (contentSlotOptionRepository_getOptionsForContentSlot contentSlotId).

(** [newContentSlots.filter(c => c.id !== undefined).map(c => c.id)] *)
Definition submittedIds (newContentSlots : list SlotDescriptor) : list nat :=
  omap desc_id newContentSlots.

(** [existingContentSlotIds.filter(id => !submittedContentSlotIds.includes(id))] *)
Definition removedIds (existingContentSlots : list ContentSlot)
    (newContentSlots : list SlotDescriptor) : list nat :=
  filter (λ id, id ∉ submittedIds newContentSlots) (slot_id <$> existingContentSlots).

Definition reconcileSlot (viewId : nat) (contentSlot : SlotDescriptor) : prog unit :=
  match desc_id contentSlot with
  | None =>
      newContentSlot ← await (contentSlotRepository_createContentSlot
        (desc_componentType contentSlot) viewId
        (desc_columnStart contentSlot) (desc_rowStart contentSlot)
        (desc_columnEnd contentSlot) (desc_rowEnd contentSlot));
      unawaited (setOptionsForContentSlot (slot_id newContentSlot)
                   (default [] (desc_options contentSlot)))
  | Some id =>
      existingContentSlot ← await (contentSlotRepository_getContentSlot id);
      await (contentSlotRepository_updateContentSlot (slot_id existingContentSlot)
        (desc_componentType contentSlot) viewId
        (desc_columnStart contentSlot) (desc_rowStart contentSlot)
        (desc_columnEnd contentSlot) (desc_rowEnd contentSlot));;
      unawaited (setOptionsForContentSlot (slot_id existingContentSlot)
                   (default [] (desc_options contentSlot)))
  end.

Definition removeSlot (contentSlotId : nat) : prog unit :=
  await (contentSlotOptionRepository_deleteOptionsForContentSlot contentSlotId);;
  await (contentSlotRepository_deleteContentSlot contentSlotId);;
  Ret tt.

Definition updateContentSlotsForView (viewId : nat) (newContentSlots : list SlotDescriptor)
    : prog unit :=
  existingContentSlots ← await (contentSlotRepository_getContentSlotsByViewId viewId);
  let removedComponents := removedIds existingContentSlots newContentSlots in
  catch
    (for_of removedComponents removeSlot;;
     for_of newContentSlots (reconcileSlot viewId))
    (λ e, Throw e).

(** The notification of [updateView]: a promise chain with its own
    [catch], started after the view was read back and not awaited. *)
Definition notifyViewsUpdated (displayId : nat) : prog unit :=
  catch
    (display ← getDisplayById displayId;
     await (emit views_updated (payload_display display)))
    (λ error, await (logger_error error)).

Definition updateView (id : nat) (name : string) (columns rows : Z)
    (contentSlots : list SlotDescriptor) : prog (View * list EnrichedContentSlot) :=
  view ← await (viewRepository_getViewById id);
  updatedView ← await (viewRepository_updateView (view_id view) name columns rows
                         (view_displayId view) (view_order view) (view_screenType view));
  updateContentSlotsForView (view_id updatedView) contentSlots;;
  updatedView ← getView id;
  Spawn (notifyViewsUpdated (view_displayId updatedView.1)) (Ret updatedView).

(** ** Which calls a program can issue *)

(** [all_calls P Q p]: every call the program [p] can issue satisfies [P],
    whatever the calls before it resolved to, and every promise it can start
    without awaiting it satisfies [Q] and, in turn, issues only [P] calls. *)
Fixpoint all_calls (P : call → Prop) (Q : prog unit → Prop) (A : Type) (p : prog A)
    {struct p} : Prop :=
  match p with
  | Ret _ => True
  | Throw _ => True
  | Call c k => P c ∧ ∀ r, all_calls P Q A (k r)
  | Spawn q k => Q q ∧ all_calls P Q unit q ∧ all_calls P Q A k
  end.

Arguments all_calls P Q {A} p.

Definition is_emit (c : call) : Prop :=
  match c with
  | emit _ _ => True
  | _ => False
  end.

Definition is_log (c : call) : Prop :=
  match c with
  | logger_error _ => True
  | _ => False
  end.

(** Calls that only read the persisted state. *)
Definition is_read (c : call) : Prop :=
  match c with
  | displayRepository_getDisplayById _
  | viewRepository_getViewsByDisplayIdAndScreenType _ _
  | viewRepository_getViewById _
  | contentSlotRepository_getContentSlotsByViewId _
  | contentSlotRepository_getContentSlot _
  | contentSlotOptionRepository_getOptionsForContentSlot _ => True
  | _ => False
  end.

(** Calls of the content slot option repository, with the slot they
    address. *)
Definition option_call_on (c : call) : option nat :=
  match c with
  | contentSlotOptionRepository_getOptionsForContentSlot i
  | contentSlotOptionRepository_deleteOptionsForContentSlot i
  | contentSlotOptionRepository_deleteOption i _
  | contentSlotOptionRepository_updateOption i _ _
  | contentSlotOptionRepository_createOption i _ _ => Some i
  | _ => None
  end.

(** The calls that remove a content slot or all options of one. *)
Definition is_removal (c : call) : Prop :=
  match c with
  | contentSlotOptionRepository_deleteOptionsForContentSlot _
  | contentSlotRepository_deleteContentSlot _ => True
  | _ => False
  end.

(** What [updateContentSlotsForView viewId] can issue, in its awaited part
    and in the promises it starts: calls of the content slot repository,
    with [viewId] wherever a view is named, and calls of the option
    repository. *)
Definition reconciler_call (viewId : nat) (c : call) : Prop :=
  match c with
  | contentSlotRepository_getContentSlotsByViewId v => v = viewId
  | contentSlotRepository_createContentSlot _ v _ _ _ _ => v = viewId
  | contentSlotRepository_updateContentSlot _ _ v _ _ _ _ => v = viewId
  | contentSlotRepository_getContentSlot _
  | contentSlotRepository_deleteContentSlot _ => True
  | _ => is_Some (option_call_on c)
  end.

(** ** What the slot reconciler computes *)

(** Removal of a list of identities from a table, one after the other. *)
Definition delete_all {V : Type} (l : list nat) (m : gmap nat V) : gmap nat V :=
  foldl (λ acc i, delete i acc) m l.

(** The record that a descriptor is persisted as. *)
Definition slot_record (viewId id : nat) (d : SlotDescriptor) : ContentSlot :=
  mkContentSlot id (desc_componentType d) viewId
    (desc_columnStart d) (desc_rowStart d) (desc_columnEnd d) (desc_rowEnd d).

(** One descriptor applied to the slot table and the identity counter. *)
Definition apply_descriptor (viewId : nat) (acc : gmap nat ContentSlot * nat)
    (d : SlotDescriptor) : gmap nat ContentSlot * nat :=
  match desc_id d with
  | None => (<[acc.2 := slot_record viewId acc.2 d]> acc.1, S acc.2)
  | Some id => (<[id := slot_record viewId id d]> acc.1, acc.2)
  end.

(** The promise started for one descriptor: the option-set reconciliation
    of its slot, with the result dropped. *)
Definition option_task (id : nat) (d : SlotDescriptor) : prog unit :=
  bind (setOptionsForContentSlot id (default [] (desc_options d))) (λ _, Ret tt).

(** The promises started for a list of descriptors, given the next free
    identity. *)
Fixpoint option_tasks (next : nat) (l : list SlotDescriptor) : list (prog unit) :=
  match l with
  | [] => []
  | d :: l' =>
      match desc_id d with
      | None => option_task next d :: option_tasks (S next) l'
      | Some id => option_task id d :: option_tasks next l'
      end
  end.

(** A descriptor with another [viewId] property. *)
Definition with_desc_viewId (x : option nat) (d : SlotDescriptor) : SlotDescriptor :=
  mkSlotDescriptor (desc_id d) (desc_componentType d) (desc_columnStart d)
    (desc_rowStart d) (desc_columnEnd d) (desc_rowEnd d) (desc_options d) x.

(** ** Order of the deletions *)

(** In a trace, every deletion of a content slot comes right after the
    deletion of the options of that slot. *)
Definition options_before_slot (t : list call) : Prop :=
  ∀ n i, t !! n = Some (contentSlotRepository_deleteContentSlot i) →
         ∃ m, n = S m ∧
              t !! m = Some (contentSlotOptionRepository_deleteOptionsForContentSlot i).

(** The two calls that remove one content slot. *)
Definition removal_calls (i : nat) : list call :=
  [contentSlotOptionRepository_deleteOptionsForContentSlot i;
   contentSlotRepository_deleteContentSlot i].

(** What the second loop of the slot reconciler can issue. *)
Definition upsert_call (viewId : nat) (c : call) : Prop :=
  reconciler_call viewId c ∧ ¬ is_removal c.

(** ** Reconciling twice *)

Definition all_named (l : list SlotDescriptor) : Prop :=
  Forall (λ d, is_Some (desc_id d)) l.

Definition is_slot_write (c : call) : Prop :=
  match c with
  | contentSlotRepository_createContentSlot _ _ _ _ _ _
  | contentSlotRepository_deleteContentSlot _
  | contentSlotOptionRepository_deleteOptionsForContentSlot _ => True
  | _ => False
  end.

(** ** Well-formed stores *)

(** Identities are assigned from the counters: every persisted record sits
    under its own identity, below the counter. *)
Record store_wf (s : store) : Prop := mkStoreWf {
  wf_displays :
    ∀ i d, displays s !! i = Some d → display_id d = i ∧ i < nextDisplayId s;
  wf_views :
    ∀ i v, views s !! i = Some v → view_id v = i ∧ i < nextViewId s;
  wf_contentSlots :
    ∀ i c, contentSlots s !! i = Some c → slot_id c = i ∧ i < nextContentSlotId s
}.

(** ** A sample world *)

Definition empty_store : store := mkStore ∅ ∅ ∅ ∅ 1 1 1.

Definition world_of (s : store) : world := mkWorld s 0 [] [] [] [] [].

(** A display named "hall" that owns one view with one content slot. *)
Definition sample_display : Display := mkDisplay 5 "hall" true "client" "" "".
Definition sample_view : View := mkView 1 "main" 4 3 5 1 "idle".
Definition sample_slot : ContentSlot := mkContentSlot 1 "clock" 1 1 1 2 2.

Definition sample_store : store :=
  mkStore {[5 := sample_display]} {[1 := sample_view]} {[1 := sample_slot]}
          {[1 := {["color" := VString "red"]}]} 6 2 2.

(** Two views of the sample display, with one content slot each. *)
Definition two_view_store : store :=
  mkStore {[5 := sample_display]}
          {[1 := sample_view; 2 := mkView 2 "side" 2 2 5 2 "idle"]}
          {[1 := sample_slot; 2 := mkContentSlot 2 "weather" 2 1 1 1 1]}
          {[1 := {["color" := VString "red"]}]} 6 3 3.

(** Sample descriptors. *)
Definition clock_descriptor : SlotDescriptor :=
  mkSlotDescriptor None "clock" 1 1 2 2 (Some [("color", VString "red")]) None.

Definition recoloured_descriptor : SlotDescriptor :=
  mkSlotDescriptor (Some 1) "clock" 1 1 2 2 (Some [("color", VString "blue")]) None.

Definition weather_descriptor : SlotDescriptor :=
  mkSlotDescriptor None "weather" 3 1 4 2 None None.

Definition missing_descriptor : SlotDescriptor :=
  mkSlotDescriptor (Some 99) "news" 1 3 4 3 None None.

Definition no_fault : nat → bool := λ _, false.

Definition fault_at (n : nat) : nat → bool := λ m, bool_decide (m = n).

(** ** The socket controller *)

(** src/unnamed/part_000: the controller keeps, per display identifier, the
    socket that connected last ([sockets], a [Map]) and the identifiers of
    the displays that connected without being active ([pendingDisplayIds],
    a [Set]).  The identifier is the [displayId] entry of the handshake
    query; a query without that entry gives [undefined], which is [None]
    here. *)
Record Socket : Type := mkSocket {
  socket_id : string;
  handshake_query : gmap string string
}.

Global Instance Socket_eq_dec : EqDecision Socket.
Proof. solve_decision. Defined.

(** What the controller sends to a socket. *)
Inductive SocketMessage : Type :=
| auth_error (message : string)
| auth_success.

(** What the controller does besides updating its two collections, in the
    order it does it. *)
Inductive SocketEffect : Type :=
| logger_debug (message : string)
| logger_warn (message : string)
| socket_on (socketId eventName : string)
| socket_once (socketId eventName : string)
| socket_emit (socketId : string) (m : SocketMessage).

Record SocketController : Type := mkSocketController {
  sockets : gmap (option string) Socket;
  pendingDisplayIds : gset (option string);
  effects : list SocketEffect
}.

(** The constructor: [new Map()] and [new Set()]. *)
Definition newSocketController : SocketController := mkSocketController ∅ ∅ [].

Definition effect (e : SocketEffect) (this : SocketController) : SocketController :=
  mkSocketController (sockets this) (pendingDisplayIds this) (effects this ++ [e]).

(** [socket.handshake.query.displayId] *)
Definition query_displayId (socket : Socket) : option string :=
  handshake_query socket !! "displayId".

(** A display identifier inside a template literal. *)
Definition show_displayId (displayId : option string) : string :=
  default "undefined" displayId.

(** [display === null || !display.active] *)
Definition not_active (display : option Display) : bool :=
  match display with
  | None => true
  | Some d => negb (display_active d)
  end.

(** [onConnected].  [findDisplay] is [this.controller.findDisplay], which is
    not part of the file: it resolves to a display or to null, or rejects. *)
Definition onConnected (findDisplay : option string → error + option Display)
    (socket : Socket) (this : SocketController) : outcome unit * SocketController :=
  let this := effect (logger_debug ("Socket " +:+ socket_id socket +:+ " connected")) this in
  let this := effect (socket_on (socket_id socket) "error") this in
  let this := effect (socket_once (socket_id socket) "disconnect") this in
  let displayId := query_displayId socket in
  match findDisplay displayId with
  | inl e => (Err e, this)
  | inr display =>
      if not_active display then
        let this :=
          effect (logger_warn ("Could not find an active display with id " +:+
                               show_displayId displayId)) this in
        let this := effect (socket_emit (socket_id socket) (auth_error "Display not active")) this in
        (Ok tt, mkSocketController (<[displayId := socket]> (sockets this))
                  ({[displayId]} ∪ pendingDisplayIds this) (effects this))
      else
        let this := mkSocketController (<[displayId := socket]> (sockets this))
                      (pendingDisplayIds this) (effects this) in
        (Ok tt, effect (socket_emit (socket_id socket) auth_success) this)
  end.

Definition onDisconnect (socket : Socket) (reason : string) (this : SocketController)
    : SocketController :=
  let this :=
    effect (logger_debug ("Socket " +:+ socket_id socket +:+ " disconnected with reason " +:+
                          reason)) this in
  let displayId := query_displayId socket in
  mkSocketController (delete displayId (sockets this))
    (pendingDisplayIds this ∖ {[displayId]}) (effects this).

Definition isDisplayPending (displayId : option string) (this : SocketController) : bool :=
  bool_decide (displayId ∈ pendingDisplayIds this).


(** What happens to a controller: a socket connects, with what the display
    lookup answers at that moment, or a connected socket disconnects.  The
    events are taken in the order in which the lookups settle: before its
    lookup settles, [onConnected] touches neither collection. *)
Inductive SocketEvent : Type :=
| connection (findDisplay : option string → error + option Display) (socket : Socket)
| disconnect (socket : Socket) (reason : string).

Definition handle (this : SocketController) (ev : SocketEvent) : SocketController :=
  match ev with
  | connection findDisplay socket => (onConnected findDisplay socket this).2
  | disconnect socket reason => onDisconnect socket reason this
  end.

(** The events that take a display identifier out of the controller. *)
Definition disconnects (displayId : option string) (ev : SocketEvent) : Prop :=
  match ev with
  | connection _ _ => False
  | disconnect socket _ => query_displayId socket = displayId
  end.

(** Sample sockets of the display "7". *)
Definition sample_socket : Socket := mkSocket "s1" {["displayId" := "7"]}.
Definition second_socket : Socket := mkSocket "s2" {["displayId" := "7"]}.

Definition finds_nothing : option string → error + option Display := λ _, inr None.
Definition finds_sample : option string → error + option Display :=
  λ _, inr (Some sample_display).

(** The messages sent to one socket. *)
Definition sent_to (socketId : string) (l : list SocketEffect) : list SocketMessage :=
  omap (λ e, match e with
             | socket_emit i m => if decide (i = socketId) then Some m else None
             | _ => None
             end) l.

(** ** Reading a view *)

(** What [getContentSlotsForView] resolves to: every content slot of the
    view, each with the options persisted for it except one named
    [__proto__], which does not make it into the options object. *)
Definition enriched (s : store) (viewId : nat) : list EnrichedContentSlot :=
  (λ c, (c, delete "__proto__" (optionsOf s (slot_id c)))) <$> slotsOfView s viewId.

(** The reads it issues: the content slots of the view, then the options of
    every one of them. *)
Definition enrich_calls (s : store) (viewId : nat) : list call :=
  contentSlotRepository_getContentSlotsByViewId viewId ::
  ((λ c, contentSlotOptionRepository_getOptionsForContentSlot (slot_id c))
     <$> slotsOfView s viewId).

(** The sample store with a second option, named [__proto__], persisted for
    its content slot. *)
Definition proto_store : store :=
  with_contentSlotOptions
    {[1 := {["color" := VString "red"; "__proto__" := VString "x"]}]} sample_store.

(** ** The writes of an option-set reconciliation *)

(** The persisted keys that the desired options do not have. *)
Definition stale_keys (existingOptions : gmap string value) (options : list (string * value))
    : list string :=
  filter (λ key, key ∉ options.*1) (keys existingOptions).

(** The write for one desired entry: an update when the key was persisted
    when the reconciliation started, a create otherwise. *)
Definition option_write (contentSlotId : nat) (existingOptions : gmap string value)
    (entry : string * value) : call :=
  if has existingOptions entry.1
  then contentSlotOptionRepository_updateOption contentSlotId entry.1 entry.2
  else contentSlotOptionRepository_createOption contentSlotId entry.1 entry.2.

(** ** Where the descriptors are persisted *)

(** The identity under which each submitted descriptor is persisted, in the
    order of the list: its own identity when it has one, the next free
    identity otherwise. *)
Fixpoint targets (next : nat) (l : list SlotDescriptor) : list nat :=
  match l with
  | [] => []
  | d :: l' =>
      match desc_id d with
      | None => next :: targets (S next) l'
      | Some id => id :: targets next l'
      end
  end.

(** ** What a deletion can issue *)

Definition deleteView_call (viewId : nat) (c : call) : Prop :=
  is_read c ∨ c = viewRepository_deleteView viewId ∨ is_emit c ∨ is_log c.

Definition deleteDisplay_call (displayId : nat) (c : call) : Prop :=
  c = displayRepository_deleteDisplay displayId ∨ is_emit c.

(** ** The promises of the slot reconciler *)

(** The promises that the slot reconciler starts: option-set
    reconciliations. *)
Definition is_option_task (q : prog unit) : Prop :=
  ∃ i d, q = option_task i d.

(** ** The views of a display *)

Section ViewsOfDisplay.

(** [this.viewRepository.getViewsByDisplayId]: a read of the view
    repository that the service hands the display identifier to.  It is not
    among the calls above and is taken as it comes. *)
Variable viewRepository_getViewsByDisplayId : nat → prog (list View).

(** A view together with its enriched content slots. *)
Definition EnrichedView : Type := View * list EnrichedContentSlot.

Definition getViewsForDisplay (displayId : nat) : prog (list EnrichedView) :=
  views ← viewRepository_getViewsByDisplayId displayId;
  for_push (Y := EnrichedView) views (λ view,
    contentSlots ← getContentSlotsForView (view_id view);
    Ret (view, contentSlots)).

End ViewsOfDisplay.

(** What [getViewsForDisplay] makes of the views it was given. *)
Definition enriched_views (s : store) (views : list View) : list EnrichedView :=
  (λ view, (view, enriched s (view_id view))) <$> views.

(** * Properties *)

(** ** Execution of the program constructors *)

Section ExecutionFacts.

Variable fault : nat → bool.

Lemma exec_bind {A B : Type} (p : prog A) (f : A → prog B) (w : world) :
  exec fault (bind p f) w =
  match exec fault p w with
  | (Ok a, w') => exec fault (f a) w'
  | (Err e, w') => (Err e, w')
  end.
Proof.
  revert w. induction p as [A a|A e|A c k IH|A q IHq k IH]; intros w; simpl; auto.
  destruct (perform fault c w) as [r w']; auto.
Qed.

Lemma exec_catch {A : Type} (p : prog A) (h : error → prog A) (w : world) :
  exec fault (catch p h) w =
  match exec fault p w with
  | (Ok a, w') => (Ok a, w')
  | (Err e, w') => exec fault (h e) w'
  end.
Proof.
  revert w. induction p as [A a|A e|A c k IH|A q IHq k IH]; intros w; simpl; auto.
  destruct (perform fault c w) as [r w']; auto.
Qed.

Lemma exec_await (c : call) (w : world) :
  exec fault (await c) w =
  match perform fault c w with
  | (inl e, w') => (Err e, w')
  | (inr r, w') => (Ok r, w')
  end.
Proof. simpl. by destruct (perform fault c w) as [[e|r] w']. Qed.

Lemma exec_rethrow {A : Type} (p : prog A) (w : world) :
  exec fault (catch p (λ e, Throw e)) w = exec fault p w.
Proof. rewrite exec_catch. by destruct (exec fault p w) as [[a|e] w']. Qed.

Lemma perform_ok (c : call) (w w' : world) (r : resp c) :
  perform fault c w = (inr r, w') →
  repo c (st w) = inr (r, st w') ∧ w' = observe c (tick c (st w') w).
Proof.
  unfold perform. destruct (fault (clock w) && fallible c); [done|].
  destruct (repo c (st w)) as [e|[r' s']]; [done|].
  intros [= -> <-]. split; [by destruct c|]. by destruct c.
Qed.

Lemma perform_err (c : call) (w w' : world) (e : error) :
  perform fault c w = (inl e, w') → w' = tick c (st w) w.
Proof.
  unfold perform. destruct (fault (clock w) && fallible c); [by intros [= _ <-]|].
  destruct (repo c (st w)) as [e'|[r' s']]; [by intros [= _ <-]|done].
Qed.

Lemma exec_await_ok (c : call) (w w' : world) (r : resp c) :
  exec fault (await c) w = (Ok r, w') →
  repo c (st w) = inr (r, st w') ∧ w' = observe c (tick c (st w') w).
Proof.
  simpl. destruct (perform fault c w) as [[e|r'] w1] eqn:Hp; [done|].
  intros [= -> <-]. by apply perform_ok in Hp.
Qed.

Lemma exec_await_no_fault (c : call) (w : world) (r : resp c) (s' : store) :
  (∀ n, fault n = false) →
  repo c (st w) = inr (r, s') →
  exec fault (await c) w = (Ok r, observe c (tick c s' w)).
Proof.
  intros Hf Hrepo. simpl. unfold perform. by rewrite Hf, Hrepo.
Qed.

Lemma perform_err_kind (c : call) (w w' : world) (e : error) :
  perform fault c w = (inl e, w') → e = failure_of c ∨ repo c (st w) = inl e.
Proof.
  unfold perform. destruct (fault (clock w) && fallible c); [intros [= <- _]; by left|].
  destruct (repo c (st w)) as [e'|[r' s']]; [intros [= <- _]; by right|done].
Qed.

(** A loop invariant for [for_of]: it is indexed by the elements still
    to be visited. *)
Lemma exec_for_of_inv {X : Type} (I : list X → world → Prop)
    (l : list X) (body : X → prog unit) (w w' : world) :
  I l w →
  (∀ x l' w1 w2, I (x :: l') w1 → exec fault (body x) w1 = (Ok tt, w2) → I l' w2) →
  exec fault (for_of l body) w = (Ok tt, w') →
  I [] w'.
Proof.
  intros HI Hstep. revert w HI.
  induction l as [|x l IH]; intros w HI; simpl.
  - by intros [= <-].
  - rewrite exec_bind. destruct (exec fault (body x) w) as [[[]|e] w1] eqn:Hx; [|done].
    apply IH. by eapply Hstep.
Qed.

End ExecutionFacts.

(** Inversion of a successful [await] in a hypothesis; the call is read off
    the hypothesis, so that its result type is known. *)
Tactic Notation "await_inv" hyp(H) "as" simple_intropattern(pat) :=
  lazymatch type of H with
  | exec ?f (await ?c) ?w = (Ok ?r, ?w') =>
      apply (exec_await_ok f c w w' r) in H as pat
  end.

(** Unfolds the next [await] of the goal into its [perform]. *)
Ltac await_unfold :=
  lazymatch goal with
  | |- context [@exec ?f ?T (await ?c) ?w] =>
      change (@exec f T (await c) w) with (@exec f (resp c) (await c) w);
      rewrite (exec_await f c w)
  end.

(** Case analysis on the next awaited call of the goal: it rejects, or it
    resolves to [r] in the world [w1]. *)
Tactic Notation "await_case" "as" ident(r) ident(w1) ident(H) :=
  await_unfold;
  lazymatch goal with
  | |- context [perform ?f ?c ?w] =>
      destruct (perform f c w) as [[?e|r] w1] eqn:H;
      [apply perform_err in H|apply perform_ok in H; simpl in H]
  end.

(** Execution of an [await] in the goal when no call fails. *)
Ltac await_run Hf :=
  lazymatch goal with
  | |- context [@exec ?f ?T (await ?c) ?w] =>
      change (@exec f T (await c) w) with (@exec f (resp c) (await c) w);
      rewrite (exec_await_no_fault f c w _ _ Hf eq_refl)
  end.

(** ** Reading and writing one option map *)

Lemma optionsOf_write (s : store) (i j : nat) (m : gmap string value) :
  optionsOf (with_contentSlotOptions (<[i := m]> (contentSlotOptions s)) s) j =
  if decide (i = j) then m else optionsOf s j.
Proof.
  unfold optionsOf. simpl. rewrite lookup_insert. by case_decide.
Qed.

Lemma optionsOf_delete_all (s : store) (i j : nat) :
  optionsOf (with_contentSlotOptions (delete i (contentSlotOptions s)) s) j =
  if decide (i = j) then ∅ else optionsOf s j.
Proof.
  unfold optionsOf. simpl. rewrite lookup_delete. by case_decide.
Qed.

Lemma has_spec (m : gmap string value) (key : string) :
  has m key = true ↔ is_Some (m !! key).
Proof. unfold has. by rewrite bool_decide_eq_true. Qed.

Lemma hasOwnProperty_spec (options : list (string * value)) (key : string) :
  hasOwnProperty options key = true ↔ key ∈ options.*1.
Proof. unfold hasOwnProperty. by rewrite bool_decide_eq_true. Qed.

Lemma keys_NoDup (m : gmap string value) : NoDup (keys m).
Proof. apply NoDup_fst_map_to_list. Qed.

Lemma elem_of_keys (m : gmap string value) (key : string) :
  key ∈ keys m ↔ is_Some (m !! key).
Proof.
  unfold keys. rewrite list_elem_of_fmap. split.
  - intros [[k v] [-> Hkv]]. apply elem_of_map_to_list in Hkv. by exists v.
  - intros [v Hv]. exists (key, v). split; [done|]. by apply elem_of_map_to_list.
Qed.

Section OptionSetReconciler.

Variable fault : nat → bool.

(** The first loop: persisted keys that the desired object does not own
    are deleted, the others stay as they were. *)
Lemma delete_loop_ok (contentSlotId : nat) (options : list (string * value))
    (existing : gmap string value) (w w' : world) :
  optionsOf (st w) contentSlotId = existing →
  exec fault
    (for_of (keys existing) (λ key,
       if hasOwnProperty options key then Ret tt
       else await (contentSlotOptionRepository_deleteOption contentSlotId key))) w
    = (Ok tt, w') →
  ∀ k, optionsOf (st w') contentSlotId !! k =
       if decide (k ∈ options.*1) then existing !! k else None.
Proof.
  intros Hex Hrun.
  pose (I := λ (l : list string) (w1 : world),
          NoDup l ∧
          ∀ k, optionsOf (st w1) contentSlotId !! k =
               if decide (k ∈ l ∨ k ∈ options.*1) then existing !! k else None).
  assert (I [] w') as [_ HI].
  { eapply (exec_for_of_inv fault I); [| |exact Hrun].
    - split; [apply keys_NoDup|]. intros k. rewrite Hex. case_decide as Hk; [done|].
      destruct (existing !! k) eqn:Hl; [|done].
      exfalso. apply Hk. left. apply elem_of_keys. by eexists.
    - intros x l' w1 w2 [Hnd HI] Hbody. apply NoDup_cons in Hnd as [Hx Hnd].
      split; [done|]. intros k.
      destruct (hasOwnProperty options x) eqn:Hown.
      + injection Hbody as <-. rewrite HI. apply hasOwnProperty_spec in Hown.
        repeat case_decide; set_solver.
      + await_inv Hbody as [Hrepo _]. simpl in Hrepo.
        injection Hrepo as <-. rewrite optionsOf_write, decide_True by done.
        assert (x ∉ options.*1) as Hnot.
        { intros Hin. apply hasOwnProperty_spec in Hin. congruence. }
        destruct (decide (k = x)) as [->|Hne].
        * rewrite lookup_delete_eq. rewrite decide_False; [done|]. set_solver.
        * rewrite lookup_delete_ne by done. rewrite HI.
          repeat case_decide; set_solver. }
  intros k. rewrite HI. repeat case_decide; set_solver.
Qed.

(** The second loop: every desired entry is written, by an update when
    its key was persisted at the start and by a create otherwise. *)
Lemma write_loop_ok (contentSlotId : nat) (options : list (string * value))
    (existing : gmap string value) (w w' : world) :
  NoDup options.*1 →
  (∀ k, optionsOf (st w) contentSlotId !! k =
        if decide (k ∈ options.*1) then existing !! k else None) →
  exec fault
    (for_of options (λ '(key, v),
       if has existing key
       then await (contentSlotOptionRepository_updateOption contentSlotId key v)
       else await (contentSlotOptionRepository_createOption contentSlotId key v))) w
    = (Ok tt, w') →
  optionsOf (st w') contentSlotId = list_to_map options.
Proof.
  intros Hnd Hstart Hrun.
  pose (I := λ (l : list (string * value)) (w1 : world),
          NoDup l.*1 ∧
          (∀ k v, (k, v) ∈ l → (list_to_map options : gmap string value) !! k = Some v) ∧
          ∀ k, optionsOf (st w1) contentSlotId !! k =
               if decide (k ∈ l.*1) then existing !! k
               else (list_to_map options : gmap string value) !! k).
  assert (I [] w') as (_ & _ & HI).
  { eapply (exec_for_of_inv fault I); [| |exact Hrun].
    - split_and!; [done| |].
      + intros k v Hkv. by apply elem_of_list_to_map_1.
      + intros k. rewrite Hstart. case_decide as Hk; [done|].
        symmetry. by apply not_elem_of_list_to_map_1.
    - intros [x v] l' w1 w2 (Hnd1 & Hval & HI) Hbody. simpl in Hnd1.
      apply NoDup_cons in Hnd1 as [Hx Hnd1].
      assert ((list_to_map options : gmap string value) !! x = Some v) as Hxv.
      { apply Hval. left. }
      split_and!; [done| |].
      { intros k v' Hkv. apply Hval. by right. }
      assert (st w2 = with_contentSlotOptions
                (<[contentSlotId := <[x := v]> (optionsOf (st w1) contentSlotId)]>
                   (contentSlotOptions (st w1))) (st w1)) as ->.
      { destruct (has existing x) eqn:Hhas.
        - await_inv Hbody as [Hrepo _]. simpl in Hrepo.
          apply has_spec in Hhas. rewrite HI in Hrepo. simpl in Hrepo.
          rewrite decide_True in Hrepo by left.
          destruct Hhas as [v0 Hv0]. rewrite Hv0 in Hrepo. by injection Hrepo as <-.
        - await_inv Hbody as [Hrepo _]. simpl in Hrepo.
          by injection Hrepo as <-. }
      intros k. rewrite optionsOf_write, decide_True by done.
      destruct (decide (k = x)) as [->|Hne].
      + rewrite lookup_insert_eq. by rewrite decide_False.
      + rewrite lookup_insert_ne by done. rewrite HI. simpl.
        repeat case_decide; set_solver. }
  apply map_eq. intros k. rewrite HI. by rewrite decide_False by set_solver.
Qed.

End OptionSetReconciler.

Section OptionSetReconcilerResult.

Variable fault : nat → bool.

Lemma exec_for_of_total {X : Type} (l : list X) (body : X → prog unit) :
  (∀ x w, ∃ w', exec fault (body x) w = (Ok tt, w')) →
  ∀ w, ∃ w', exec fault (for_of l body) w = (Ok tt, w').
Proof.
  intros Hbody. induction l as [|x l IH]; intros w; simpl; [by eexists|].
  rewrite exec_bind. destruct (Hbody x w) as [w1 ->]. apply IH.
Qed.

(** Without a storage failure the option-set reconciler always
    completes. *)
Lemma setOptionsForContentSlot_succeeds (contentSlotId : nat)
    (options : list (string * value)) (w : world) :
  (∀ n, fault n = false) →
  ∃ m w', exec fault (setOptionsForContentSlot contentSlotId options) w = (Ok m, w').
Proof.
  intros Hf. unfold setOptionsForContentSlot.
  rewrite exec_bind.
  await_run Hf.
  rewrite exec_bind.
  lazymatch goal with
  | |- context [exec fault (for_of ?l ?b) ?w0] =>
      destruct (exec_for_of_total l b) with (w := w0) as [w1 ->]
  end.
  { intros x w0. destruct (hasOwnProperty options x); [by eexists|].
    await_run Hf. by eexists. }
  rewrite exec_bind.
  lazymatch goal with
  | |- context [exec fault (for_of ?l ?b) ?w0] =>
      destruct (exec_for_of_total l b) with (w := w0) as [w2 ->]
  end.
  { intros [x v] w0. destruct (has (optionsOf (st w) contentSlotId) x).
    - simpl. unfold perform. rewrite Hf. simpl.
      destruct (optionsOf (st w0) contentSlotId !! x); by eexists.
    - await_run Hf. by eexists. }
  await_run Hf. by do 2 eexists.
Qed.

End OptionSetReconcilerResult.

(** The persisted map and the result of a completed option-set
    reconciliation. *)
Lemma setOptionsForContentSlot_ok (fault : nat → bool) (contentSlotId : nat)
    (options : list (string * value)) (w w' : world) (m : gmap string value) :
  NoDup options.*1 →
  exec fault (setOptionsForContentSlot contentSlotId options) w = (Ok m, w') →
  optionsOf (st w') contentSlotId = list_to_map options ∧
  m = optionsOf (st w') contentSlotId.
Proof.
  intros Hnd. unfold setOptionsForContentSlot. rewrite exec_bind.
  destruct (exec fault (await _) w) as [[existing|e] w0] eqn:Hget; [|done].
  await_inv Hget as [Hrepo Hw0]. simpl in Hrepo.
  injection Hrepo as <- Hst0.
  rewrite exec_bind.
  destruct (exec fault (for_of (keys _) _) w0) as [[[]|e] w1] eqn:Hdel; [|done].
  assert (optionsOf (st w0) contentSlotId = optionsOf (st w) contentSlotId) as Hex
    by (by rewrite <- Hst0).
  pose proof (delete_loop_ok fault _ _ _ _ _ Hex Hdel) as Hkept.
  rewrite exec_bind.
  destruct (exec fault (for_of options _) w1) as [[[]|e] w2] eqn:Hput; [|done].
  apply write_loop_ok in Hput; [|done|exact Hkept].
  intros Hlast. await_inv Hlast as [Hrepo Hw']. simpl in Hrepo.
  injection Hrepo as <- Hst. by rewrite <- Hst.
Qed.

(** C2.  [setOptionsForContentSlot contentSlotId options] completes unless
    the storage fails, and when it completes successfully, the option map
    persisted for the content slot is exactly the desired object (same keys,
    same values), and the value returned is the map read back from storage
    by a final [getOptionsForContentSlot] issued after all writes. *)
Theorem setOptionsForContentSlot_converges (fault : nat → bool) (contentSlotId : nat)
    (options : list (string * value)) (w : world) :
  NoDup options.*1 →
  ((∀ n, fault n = false) →
   ∃ m w', exec fault (setOptionsForContentSlot contentSlotId options) w = (Ok m, w')) ∧
  ∀ m w',
    exec fault (setOptionsForContentSlot contentSlotId options) w = (Ok m, w') →
    optionsOf (st w') contentSlotId = list_to_map options ∧
    m = optionsOf (st w') contentSlotId ∧
    last (trace w') =
      Some (contentSlotOptionRepository_getOptionsForContentSlot contentSlotId).
Proof.
  intros Hnd. split; [intros Hnf; by apply setOptionsForContentSlot_succeeds|].
  intros m w' Hrun.
  destruct (setOptionsForContentSlot_ok fault contentSlotId options w w' m Hnd Hrun)
    as [Hmap Hm].
  split_and!; [done|done|].
  revert Hrun. unfold setOptionsForContentSlot. rewrite exec_bind.
  destruct (exec fault (await _) w) as [[existing|e] w0]; [|done].
  rewrite exec_bind.
  destruct (exec fault (for_of (keys _) _) w0) as [[[]|e] w1]; [|done].
  rewrite exec_bind.
  destruct (exec fault (for_of options _) w1) as [[[]|e] w2]; [|done].
  intros Hlast. await_inv Hlast as [_ Hw']. rewrite Hw'. apply last_snoc.
Qed.

Lemma setOptionsForContentSlot_converges_witness :
  let w := world_of (with_contentSlotOptions
                       {[3 := {["a" := VString "1"; "b" := VString "2"]}]} empty_store) in
  let r := exec no_fault
             (setOptionsForContentSlot 3 [("b", VString "3"); ("c", VString "4")]) w in
  optionsOf (st r.2) 3 = {["b" := VString "3"; "c" := VString "4"]}.
Proof.
  intros w r.
  assert (NoDup [("b", VString "3"); ("c", VString "4")].*1) as Hnd.
  { apply (bool_decide_unpack _). by vm_compute. }
  destruct (setOptionsForContentSlot_converges no_fault 3
              [("b", VString "3"); ("c", VString "4")] w Hnd) as [_ H].
  destruct (H _ r.2 eq_refl) as (Hmap & _ & _).
  rewrite Hmap. by vm_compute.
Defined.

(** ** Displays *)



(** C8, as stated, fails for deletion: the [display_deleted] event carries
    the result of the repository's delete, not a display record. *)
Lemma display_deleted_carries_no_record :
  ¬ (∀ (fault : nat → bool) (displayId : nat) (w : world) (ev : event),
       ev ∈ emitted (exec fault (deleteDisplay displayId) w).2 →
       ev ∉ emitted w →
       ∃ d, ev.2 = payload_display (Some d)).
Proof.
  intros H.
  pose (w := world_of (with_displays {[1 := mkDisplay 1 "hall" true "client" "" ""]}
                         2 empty_store)).
  destruct (H no_fault 1 w (display_deleted, payload_result true)) as [d Hd].
  - vm_compute. left.
  - vm_compute. apply not_elem_of_nil.
  - discriminate Hd.
Qed.

(** C8, amended.  [createDisplay] and [updateDisplay] emit at most one
    event each, and only when they complete; it carries the display record
    read back from storage after the mutation, which is the record persisted
    at that time.  [deleteDisplay] emits at most one [display_deleted] event,
    and only when the repository's delete resolved to true; that event
    carries this result, and the display is gone from storage. *)
Theorem display_notifications (fault : nat → bool) :
  (∀ name active clientId description location w o w',
     exec fault (createDisplay name active clientId description location) w = (o, w') →
     (∃ e, o = Err e ∧ emitted w' = emitted w) ∨
     (∃ d, o = Ok (Some d) ∧ displays (st w') !! display_id d = Some d ∧
           emitted w' = emitted w ++ [(display_created, payload_display (Some d))])) ∧
  (∀ displayId name active clientId description location w o w',
     exec fault (updateDisplay displayId name active clientId description location) w
       = (o, w') →
     emitted w' = emitted w ∨
     (∃ d, o = Ok (Some d) ∧ displays (st w') !! displayId = Some d ∧
           emitted w' = emitted w ++ [(display_updated, payload_display (Some d))])) ∧
  (∀ displayId w o w',
     exec fault (deleteDisplay displayId) w = (o, w') →
     emitted w' = emitted w ∨
     (o = Ok true ∧ displays (st w') !! displayId = None ∧
      emitted w' = emitted w ++ [(display_deleted, payload_result true)])).
Proof.
  split_and!.
  - intros name active clientId description location w o w'.
    unfold createDisplay, getDisplayById. rewrite exec_bind.
    await_case as id w1 Hnew.
    { intros [= <- <-]. left. eexists. by rewrite Hnew. }
    destruct Hnew as [Hrepo Hw1]. injection Hrepo as Hid Hst1. subst id.
    rewrite exec_bind. await_case as d w2 Hget.
    { intros [= <- <-]. left. eexists. by rewrite Hget, Hw1. }
    destruct Hget as [Hrepo Hw2]. injection Hrepo as Hd Hst2.
    rewrite exec_bind. await_case as u w3 Hemit.
    { intros [= <- <-]. left. eexists. by rewrite Hemit, Hw2, Hw1. }
    destruct Hemit as [Hrepo Hw3]. injection Hrepo as _ Hst3.
    simpl. intros [= <- <-]. right.
    rewrite <- Hst3, <- Hst2. rewrite <- Hst1 in Hd. simpl in Hd.
    rewrite lookup_insert_eq in Hd. subst d. eexists. split_and!; [done| |].
    + rewrite <- Hst1. simpl. by rewrite lookup_insert_eq.
    + rewrite Hw3. simpl. by rewrite Hw2, Hw1.
  - intros displayId name active clientId description location w o w'.
    unfold updateDisplay, getDisplayById. rewrite exec_bind.
    await_case as id w1 Hupd.
    { intros [= <- <-]. left. by rewrite Hupd. }
    destruct Hupd as [Hrepo Hw1].
    destruct (falsy id) eqn:Hfalsy.
    { await_case as d w2 Hget.
      - intros [= <- <-]. left. by rewrite Hget, Hw1.
      - intros [= <- <-]. left. destruct Hget as [_ ->]. by rewrite Hw1. }
    destruct (displays (st w) !! displayId) as [d0|] eqn:Hd0;
      [|by injection Hrepo as <- _].
    injection Hrepo as <- Hst1.
    rewrite exec_bind. await_case as d w2 Hget.
    { intros [= <- <-]. left. by rewrite Hget, Hw1. }
    destruct Hget as [Hrepo Hw2]. injection Hrepo as Hd Hst2.
    rewrite exec_bind. await_case as u w3 Hemit.
    { intros [= <- <-]. left. by rewrite Hemit, Hw2, Hw1. }
    destruct Hemit as [Hrepo Hw3]. injection Hrepo as _ Hst3.
    simpl. intros [= <- <-]. right.
    rewrite <- Hst3, <- Hst2. rewrite <- Hst1 in Hd. simpl in Hd.
    rewrite lookup_insert_eq in Hd. subst d. eexists. split_and!; [done| |].
    + rewrite <- Hst1. simpl. by rewrite lookup_insert_eq.
    + rewrite Hw3. simpl. by rewrite Hw2, Hw1.
  - intros displayId w o w'. unfold deleteDisplay. rewrite exec_bind.
    await_case as result w1 Hdel.
    { intros [= <- <-]. left. by rewrite Hdel. }
    destruct Hdel as [Hrepo Hw1]. rewrite exec_bind.
    destruct result.
    + await_case as u w2 Hemit.
      { intros [= <- <-]. left. by rewrite Hemit, Hw1. }
      destruct Hemit as [Hrepo2 Hw2]. injection Hrepo2 as _ Hst2.
      simpl. intros [= <- <-]. right. split_and!; [done| |].
      * rewrite <- Hst2. destruct (displays (st w) !! displayId); [|done].
        injection Hrepo as <-. simpl. by rewrite lookup_delete_eq.
      * rewrite Hw2. simpl. by rewrite Hw1.
    + simpl. intros [= <- <-]. left. by rewrite Hw1.
Qed.

Lemma display_notifications_witness :
  emitted (exec no_fault (createDisplay "hall" true "client" "" "")
             (world_of empty_store)).2 =
    [(display_created, payload_display (Some (mkDisplay 1 "hall" true "client" "" "")))].
Proof.
  destruct (display_notifications no_fault) as (Hcreate & _ & _).
  pose (r := exec no_fault (createDisplay "hall" true "client" "" "") (world_of empty_store)).
  destruct (Hcreate "hall" true "client" ""%string ""%string (world_of empty_store)
              r.1 r.2 eq_refl)
    as [(e & He & _)|(d & Hd & _ & Hem)].
  - discriminate He.
  - vm_compute in Hd. injection Hd as <-. exact Hem.
Defined.

(** ** Views *)

Lemma viewsOfGroup_insert (s : store) (v : View) (n : nat) :
  views s !! view_id v = None →
  viewsOfGroup (with_views (<[view_id v := v]> (views s)) n s)
               (view_displayId v) (view_screenType v)
  ≡ₚ v :: viewsOfGroup s (view_displayId v) (view_screenType v).
Proof.
  intros Hfresh. unfold viewsOfGroup. simpl.
  rewrite (map_to_list_insert _ _ _ Hfresh). csimpl.
  rewrite filter_cons_True by done. done.
Qed.

(** What [createView] does in general.  It completes unless the storage
    fails.  It first reads the views of the pair (displayId, screenType),
    then creates the new view with position (the source's [order]) equal to
    the number of views read plus one.  The new view gets a fresh identity,
    every view persisted before is still there unchanged, and the group
    consists of the views it had and the new one, whose position is the new
    size of the group.  Only when the positions of the group are within
    1..count is the new position behind all of them. *)
Theorem createView_appends (fault : nat → bool) (name : string) (columns rows : Z)
    (displayId : nat) (screenType : string) (w : world) :
  store_wf (st w) →
  ((∀ n, fault n = false) →
   ∃ id w', exec fault (createView name columns rows displayId screenType) w = (Ok id, w')) ∧
  ∀ id w',
  exec fault (createView name columns rows displayId screenType) w = (Ok id, w') →
  let count := length (viewsOfGroup (st w) displayId screenType) in
  let view := mkView id name columns rows displayId (count + 1) screenType in
  trace w' = trace w ++
    [viewRepository_getViewsByDisplayIdAndScreenType displayId screenType;
     viewRepository_createView name columns rows displayId (count + 1) screenType] ∧
  views (st w) !! id = None ∧
  views (st w') = <[id := view]> (views (st w)) ∧
  (∀ i v, views (st w) !! i = Some v → views (st w') !! i = Some v) ∧
  viewsOfGroup (st w') displayId screenType ≡ₚ
    view :: viewsOfGroup (st w) displayId screenType ∧
  view_order view = length (viewsOfGroup (st w') displayId screenType) ∧
  ((∀ v, v ∈ viewsOfGroup (st w) displayId screenType → view_order v ≤ count) →
   ∀ v, v ∈ viewsOfGroup (st w) displayId screenType → view_order v < view_order view).
Proof.
  intros Hwf. split.
  { intros Hnf. unfold createView. rewrite exec_bind. await_run Hnf. await_run Hnf.
    by do 2 eexists. }
  intros id w' Hrun count view. revert Hrun. unfold createView.
  rewrite exec_bind. await_case as group w1 Hread; [done|].
  destruct Hread as [Hrepo Hw1]. injection Hrepo as <- Hst1.
  await_case as id' w2 Hnew; [done|].
  destruct Hnew as [Hrepo Hw2]. intros [= -> ->].
  rewrite <- Hst1 in Hrepo. injection Hrepo as Hid Hst2. fold count in Hst2, Hw2.
  rewrite Hid in Hst2. fold view in Hst2.
  assert (views (st w) !! id = None) as Hfresh.
  { destruct (views (st w) !! id) as [v|] eqn:Hv; [|done].
    apply (wf_views _ Hwf) in Hv as [_ Hlt]. lia. }
  assert (viewsOfGroup (st w') displayId screenType ≡ₚ
            view :: viewsOfGroup (st w) displayId screenType) as Hgroup.
  { rewrite <- Hst2. by apply (viewsOfGroup_insert (st w) view). }
  split_and!.
  - rewrite Hw2. simpl. rewrite Hw1. simpl. by rewrite <- app_assoc.
  - done.
  - by rewrite <- Hst2.
  - intros i v Hv. rewrite <- Hst2. simpl. rewrite lookup_insert_ne; [done|].
    intros <-. congruence.
  - done.
  - rewrite Hgroup. simpl. fold count. lia.
  - intros Hle v Hv. specialize (Hle v Hv). simpl. lia.
Qed.

Lemma createView_appends_witness :
  let w := world_of (with_views
                       {[1 := mkView 1 "first" 4 3 5 1 "idle"]} 2 empty_store) in
  views (st (exec no_fault (createView "second" 4 3 5 "idle") w).2) =
    <[2 := mkView 2 "second" 4 3 5 2 "idle"]> (views (st w)).
Proof.
  intros w.
  assert (store_wf (st w)) as Hwf.
  { split; simpl; intros i x Hx; try done.
    apply lookup_singleton_Some in Hx as [<- <-]. simpl. lia. }
  destruct (createView_appends no_fault "second" 4 3 5 "idle" w Hwf) as [_ H].
  destruct (H 2 (exec no_fault (createView "second" 4 3 5 "idle") w).2 eq_refl)
    as (_ & _ & H' & _).
  exact H'.
Defined.

(** C9 does not hold of the code: [createView] takes the number of views of
    the group plus one as the position, and [deleteView] does not renumber
    the views that stay.  After three views were created in a group and the
    first two deleted, the group has one view left, at position 3; the next
    view is created at position 2, before that view and not at the end of
    the group. *)
Theorem createView_not_at_end_after_deletions :
  let w0 := (exec no_fault (createDisplay "hall" true "client" "" "")
               (world_of empty_store)).2 in
  let w1 := (exec no_fault (createView "a" 4 3 1 "idle") w0).2 in
  let w2 := (exec no_fault (createView "b" 4 3 1 "idle") w1).2 in
  let w3 := (exec no_fault (createView "c" 4 3 1 "idle") w2).2 in
  let w4 := (exec no_fault (deleteView 1) w3).2 in
  let w5 := (exec no_fault (deleteView 2) w4).2 in
  let run := exec no_fault (createView "d" 4 3 1 "idle") w5 in
  views (st w3) = {[1 := mkView 1 "a" 4 3 1 1 "idle";
                    2 := mkView 2 "b" 4 3 1 2 "idle";
                    3 := mkView 3 "c" 4 3 1 3 "idle"]} ∧
  views (st w5) = {[3 := mkView 3 "c" 4 3 1 3 "idle"]} ∧
  run.1 = Ok 4 ∧
  views (st run.2) = {[3 := mkView 3 "c" 4 3 1 3 "idle";
                       4 := mkView 4 "d" 4 3 1 2 "idle"]} ∧
  ∃ new other,
    views (st run.2) !! 4 = Some new ∧ other ∈ viewsOfGroup (st run.2) 1 "idle" ∧
    view_order new < view_order other.
Proof.
  intros w0 w1 w2 w3 w4 w5 run. split_and!.
  - by vm_compute.
  - by vm_compute.
  - by vm_compute.
  - by vm_compute.
  - exists (mkView 4 "d" 4 3 1 2 "idle"), (mkView 3 "c" 4 3 1 3 "idle").
    split_and!; [by vm_compute| |simpl; lia].
    apply (bool_decide_unpack _). by vm_compute.
Qed.

(** ** Invariants of an execution *)

Section Invariants.

Variable fault : nat → bool.

Lemma all_calls_impl (P P' : call → Prop) (Q Q' : prog unit → Prop) {A : Type} (p : prog A) :
  (∀ c, P c → P' c) → (∀ q, Q q → Q' q) →
  all_calls P Q p → all_calls P' Q' p.
Proof.
  intros HP HQ. induction p as [A a|A e|A c k IH|A q IHq k IH]; simpl; [done|done|..].
  - intros [Hc Hk]. split; [by apply HP|]. intros r. by apply IH.
  - intros (Hq & Hq' & Hk). split_and!; [by apply HQ|by apply IHq|by apply IH].
Qed.

Lemma all_calls_bind (P : call → Prop) (Q : prog unit → Prop) {A B : Type}
    (p : prog A) (f : A → prog B) :
  all_calls P Q p → (∀ a, all_calls P Q (f a)) → all_calls P Q (bind p f).
Proof.
  intros Hp Hf. induction p as [A a|A e|A c k IH|A q IHq k IH]; simpl in *; [done|done|..].
  - destruct Hp as [Hc Hk]. split; [done|]. intros r. by apply IH.
  - destruct Hp as (Hq & Hq' & Hk). split_and!; [done|done|by apply IH].
Qed.

Lemma all_calls_catch (P : call → Prop) (Q : prog unit → Prop) {A : Type}
    (p : prog A) (h : error → prog A) :
  all_calls P Q p → (∀ e, all_calls P Q (h e)) → all_calls P Q (catch p h).
Proof.
  intros Hp Hh. induction p as [A a|A e|A c k IH|A q IHq k IH]; simpl in *; [done|done|..].
  - destruct Hp as [Hc Hk]. split; [done|]. intros r. by apply IH.
  - destruct Hp as (Hq & Hq' & Hk). split_and!; [done|done|by apply IH].
Qed.

Lemma all_calls_await (P : call → Prop) (Q : prog unit → Prop) (c : call) :
  P c → all_calls P Q (await c).
Proof. intros Hc. simpl. split; [done|]. by intros [e|r]. Qed.

Lemma all_calls_for_of (P : call → Prop) (Q : prog unit → Prop) {X : Type}
    (l : list X) (body : X → prog unit) :
  (∀ x, all_calls P Q (body x)) → all_calls P Q (for_of l body).
Proof.
  intros Hbody. induction l as [|x l IH]; simpl; [done|].
  apply all_calls_bind; [done|]. by intros _.
Qed.

Lemma all_calls_for_push (P : call → Prop) (Q : prog unit → Prop) {X Y : Type}
    (l : list X) (body : X → prog Y) :
  (∀ x, all_calls P Q (body x)) → all_calls P Q (for_push l body).
Proof.
  intros Hbody. induction l as [|x l IH]; simpl; [done|].
  apply all_calls_bind; [done|]. intros y. apply all_calls_bind; [done|]. by intros ys.
Qed.

(** An invariant of the world that every permitted call and every permitted
    un-awaited start preserves holds when the awaited part ends. *)
Lemma exec_invariant (P : call → Prop) (Q : prog unit → Prop) (I : world → Prop) :
  (∀ c w, P c → I w → I (perform fault c w).2) →
  (∀ q w, Q q → I w → I (enqueue q w)) →
  ∀ (A : Type) (p : prog A) (w : world),
    all_calls P Q p → I w → I (exec fault p w).2.
Proof.
  intros Hcall Hspawn A p.
  induction p as [A a|A e|A c k IH|A q IHq k IH]; intros w Hp HI; simpl in *; [done|done|..].
  - destruct Hp as [Hc Hk]. specialize (Hcall c w Hc HI).
    destruct (perform fault c w) as [r w1]. by apply IH.
  - destruct Hp as (Hq & _ & Hk). apply IH; [done|]. by apply Hspawn.
Qed.

(** The same for an invariant of the persisted state. *)
Lemma exec_store_invariant (P : call → Prop) (J : store → Prop) :
  (∀ c s r s', P c → repo c s = inr (r, s') → J s → J s') →
  ∀ (A : Type) (p : prog A) (w : world),
    all_calls P (λ _, True) p → J (st w) → J (st (exec fault p w).2).
Proof.
  intros Hrepo A p w Hp HJ.
  apply (exec_invariant P (λ _, True) (λ w, J (st w))); [| |done|done].
  - intros c w0 Hc HJ0. unfold perform.
    destruct (fault (clock w0) && fallible c); [done|].
    destruct (repo c (st w0)) as [e|[r s']] eqn:Hr; [done|].
    simpl. replace (st (observe c (tick c s' w0))) with s' by (by destruct c).
    by eapply Hrepo.
  - by intros q w0 _ HJ0.
Qed.

End Invariants.

(** ** Reads *)

Lemma repo_read (c : call) (s s' : store) (r : resp c) :
  is_read c → repo c s = inr (r, s') → s' = s.
Proof.
  destruct c; simpl; try done; intros _.
  all: try (by intros [= _ <-]).
  - destruct (views s !! viewId); [by intros [= _ <-]|done].
  - destruct (contentSlots s !! contentSlotId); [by intros [= _ <-]|done].
Qed.

Lemma getContentSlotsForView_reads (viewId : nat) :
  all_calls is_read (λ _, False) (getContentSlotsForView viewId).
Proof.
  unfold getContentSlotsForView. apply all_calls_bind; [by apply all_calls_await|].
  intros slots. apply all_calls_for_push. intros c.
  apply all_calls_bind; [by apply all_calls_await|]. by intros m.
Qed.

Lemma getView_reads (viewId : nat) :
  all_calls is_read (λ _, False) (getView viewId).
Proof.
  unfold getView. apply all_calls_bind; [by apply all_calls_await|].
  intros v. apply all_calls_bind; [apply getContentSlotsForView_reads|]. by intros slots.
Qed.

Section Reads.

Variable fault : nat → bool.

(** A program that only reads, and starts nothing, leaves the persisted
    state, the events, the log and the pending promises as they were. *)
Lemma exec_reads {A : Type} (p : prog A) (w : world) :
  all_calls is_read (λ _, False) p →
  let w' := (exec fault p w).2 in
  st w' = st w ∧ emitted w' = emitted w ∧ logged w' = logged w ∧
  pending w' = pending w ∧ unhandled w' = unhandled w.
Proof.
  intros Hp.
  apply (exec_invariant fault is_read (λ _, False)
           (λ w', st w' = st w ∧ emitted w' = emitted w ∧ logged w' = logged w ∧
                  pending w' = pending w ∧ unhandled w' = unhandled w)); [| |done|done].
  - intros c w0 Hc (Hst & Hem & Hlog & Hpend & Hun). unfold perform.
    destruct (fault (clock w0) && fallible c); [done|].
    destruct (repo c (st w0)) as [e|[r s']] eqn:Hr; [done|].
    apply repo_read in Hr as ->; [|done]. by destruct c.
  - by intros q w0 [].
Qed.

Lemma getView_ok (viewId : nat) (w w' : world) (r : View * list EnrichedContentSlot) :
  exec fault (getView viewId) w = (Ok r, w') →
  views (st w) !! viewId = Some r.1 ∧
  st w' = st w ∧ emitted w' = emitted w ∧ logged w' = logged w ∧
  pending w' = pending w ∧ unhandled w' = unhandled w.
Proof.
  intros Hrun. split.
  - revert Hrun. unfold getView. rewrite exec_bind. await_case as v w1 Hget; [done|].
    destruct Hget as [Hrepo _]. rewrite exec_bind.
    destruct (exec fault (getContentSlotsForView viewId) w1) as [[slots|e] w2]; [|done].
    simpl. intros [= <- <-]. simpl.
    destruct (views (st w) !! viewId); [|done]. by injection Hrepo as <-.
  - pose proof (exec_reads (getView viewId) w (getView_reads viewId)) as H.
    by rewrite Hrun in H.
Qed.

End Reads.

(** ** Notifications and the calls of the reconciler *)

Section Notification.

Variable fault : nat → bool.

(** Logging never fails. *)
Lemma exec_logger_error (e : error) (w : world) :
  @exec fault unit (await (logger_error e)) w =
  (Ok tt, observe (logger_error e) (tick (logger_error e) (st w) w)).
Proof. simpl. unfold perform. simpl. by rewrite andb_false_r. Qed.

(** The promise that [updateView] starts for its notification never
    rejects and writes nothing: it emits the event, or logs what went
    wrong. *)
Lemma notifyViewsUpdated_swallows (displayId : nat) (w : world) :
  let r := exec fault (notifyViewsUpdated displayId) w in
  r.1 = Ok tt ∧ st r.2 = st w ∧
  ((emitted r.2 = emitted w ++ [(views_updated, payload_display (displays (st w) !! displayId))]
    ∧ logged r.2 = logged w) ∨
   (emitted r.2 = emitted w ∧ ∃ e, logged r.2 = logged w ++ [e])).
Proof.
  unfold notifyViewsUpdated, getDisplayById. rewrite exec_catch, exec_bind.
  await_case as d w1 Hget.
  - rewrite exec_logger_error. simpl. rewrite Hget. simpl. split_and!; [done|done|].
    right. split; [done|]. by eexists.
  - destruct Hget as [Hrepo Hw1]. injection Hrepo as <- Hst1.
    await_case as u w2 Hemit.
    + rewrite exec_logger_error. simpl. rewrite Hemit. simpl.
      split_and!; [done|by symmetry|].
      right. rewrite Hw1. simpl. split; [done|]. by eexists.
    + destruct Hemit as [Hrepo Hw2]. injection Hrepo as _ Hst2. destruct u. simpl.
      split_and!; [done|congruence|]. left. rewrite Hw2. simpl. by rewrite Hw1.
Qed.

Lemma setOptionsForContentSlot_calls (contentSlotId : nat) (options : list (string * value)) :
  all_calls (λ c, option_call_on c = Some contentSlotId ∧ ¬ is_removal c) (λ _, False)
    (setOptionsForContentSlot contentSlotId options).
Proof.
  unfold setOptionsForContentSlot.
  apply all_calls_bind; [apply all_calls_await; (split; [reflexivity|simpl; by intros ?])|]. intros existing.
  apply all_calls_bind.
  { apply all_calls_for_of. intros key. destruct (hasOwnProperty options key); [done|].
    apply all_calls_await. (split; [reflexivity|simpl; by intros ?]). }
  intros _. apply all_calls_bind; [|intros _; apply all_calls_await; (split; [reflexivity|simpl; by intros ?])].
  apply all_calls_for_of. intros [key v].
  destruct (has existing key); apply all_calls_await; (split; [reflexivity|simpl; by intros ?]).
Qed.

Lemma all_calls_unawaited (P : call → Prop) (Q : prog unit → Prop) {A : Type} (p : prog A) :
  Q (bind p (λ _, Ret tt)) → all_calls P Q p → all_calls P Q (unawaited p).
Proof.
  intros HQ Hp. unfold unawaited. split; [done|]. split; [|done].
  apply all_calls_bind; [done|]. by intros _.
Qed.

Lemma unawaited_setOptions_calls (viewId contentSlotId : nat)
    (options : list (string * value)) :
  all_calls (reconciler_call viewId) (λ _, True)
    (unawaited (setOptionsForContentSlot contentSlotId options)).
Proof.
  apply all_calls_unawaited; [done|].
  eapply all_calls_impl; [| |apply setOptionsForContentSlot_calls]; [|done].
  intros c [Hc _]. destruct c; simpl in *; try done; by eexists.
Qed.

Lemma updateContentSlotsForView_calls (viewId : nat) (newContentSlots : list SlotDescriptor) :
  all_calls (reconciler_call viewId) (λ _, True)
    (updateContentSlotsForView viewId newContentSlots).
Proof.
  unfold updateContentSlotsForView.
  apply all_calls_bind; [apply all_calls_await; first [done|by eexists]|]. intros existing.
  apply all_calls_catch; [|done].
  apply all_calls_bind.
  - apply all_calls_for_of. intros i. unfold removeSlot.
    apply all_calls_bind; [apply all_calls_await; first [done|by eexists]|]. intros _.
    apply all_calls_bind; [apply all_calls_await; first [done|by eexists]|]. done.
  - intros _. apply all_calls_for_of. intros d. unfold reconcileSlot.
    destruct (desc_id d) as [i|].
    + apply all_calls_bind; [apply all_calls_await; first [done|by eexists]|]. intros c.
      apply all_calls_bind; [apply all_calls_await; first [done|by eexists]|]. intros _.
      apply unawaited_setOptions_calls.
    + apply all_calls_bind; [apply all_calls_await; first [done|by eexists]|]. intros c.
      apply unawaited_setOptions_calls.
Qed.

Lemma repo_reconciler_call (viewId : nat) (c : call) (s s' : store) (r : resp c) :
  reconciler_call viewId c → repo c s = inr (r, s') →
  displays s' = displays s ∧ views s' = views s.
Proof.
  destruct c; try done; simpl; intros Hc Hr;
    repeat match goal with
           | H : context [match ?x with _ => _ end] |- _ => destruct x
           end; simplify_eq; done.
Qed.

End Notification.

(** ** Traces and frames *)

Section Frames.

Variable fault : nat → bool.

Lemma perform_trace (c : call) (w : world) :
  trace (perform fault c w).2 = trace w ++ [c].
Proof.
  unfold perform. destruct (fault (clock w) && fallible c); [done|].
  destruct (repo c (st w)) as [e|[r s']]; [done|]. by destruct c.
Qed.

Lemma perform_quiet (c : call) (w : world) :
  ¬ is_emit c → ¬ is_log c →
  emitted (perform fault c w).2 = emitted w ∧ logged (perform fault c w).2 = logged w.
Proof.
  intros Hemit Hlog. unfold perform. destruct (fault (clock w) && fallible c); [done|].
  destruct (repo c (st w)) as [e|[r s']]; [done|]. by destruct c.
Qed.

(** The calls issued by the awaited part of a program are appended to the
    trace, in order. *)
Lemma exec_trace (P : call → Prop) (Q : prog unit → Prop) {A : Type} (p : prog A)
    (w : world) :
  all_calls P Q p →
  ∃ t, trace (exec fault p w).2 = trace w ++ t ∧ Forall P t.
Proof.
  intros Hp.
  apply (exec_invariant fault P Q
           (λ w', ∃ t, trace w' = trace w ++ t ∧ Forall P t)); [| |done|].
  - intros c w0 Hc (t & Ht & HP). exists (t ++ [c]). rewrite perform_trace, Ht.
    split; [by rewrite app_assoc|]. apply Forall_app. by split; [|constructor].
  - intros q w0 _ Hw0. exact Hw0.
  - exists []. by rewrite app_nil_r.
Qed.

Lemma reconciler_call_quiet (viewId : nat) (c : call) :
  reconciler_call viewId c → ¬ is_emit c ∧ ¬ is_log c.
Proof.
  destruct c; simpl; intros H; split; intros H'; try done; by destruct H.
Qed.

(** The slot reconciler emits nothing, logs nothing, and leaves displays
    and views alone, however it ends. *)
Lemma updateContentSlotsForView_frame (viewId : nat) (newContentSlots : list SlotDescriptor)
    (w : world) :
  let w' := (exec fault (updateContentSlotsForView viewId newContentSlots) w).2 in
  emitted w' = emitted w ∧ logged w' = logged w ∧
  displays (st w') = displays (st w) ∧ views (st w') = views (st w).
Proof.
  apply (exec_invariant fault (reconciler_call viewId) (λ _, True)
           (λ w', emitted w' = emitted w ∧ logged w' = logged w ∧
                  displays (st w') = displays (st w) ∧ views (st w') = views (st w)));
    [| |apply updateContentSlotsForView_calls|done].
  - intros c w0 Hc (Hem & Hlog & Hd & Hv).
    destruct (reconciler_call_quiet viewId c Hc) as [Hnemit Hnlog].
    destruct (perform_quiet c w0) as [-> ->]; [done|done|].
    split_and!; [done|done|..]; unfold perform;
      destruct (fault (clock w0) && fallible c); try done;
      destruct (repo c (st w0)) as [e|[r s']] eqn:Hr; try done;
      apply repo_reconciler_call with (viewId := viewId) in Hr as [Hd' Hv']; try done;
      simpl; replace (st (observe c (tick c s' w0))) with s' by (by destruct c); congruence.
  - by intros q w0 _ H.
Qed.

End Frames.

(** ** Notifications about views *)

(** C7, as stated, fails for [deleteView]: the display is resolved before
    the view is deleted, and when that lookup fails the call is rejected,
    the view stays persisted and nothing is logged. *)
Lemma deleteView_display_lookup_failure_propagates :
  let failing := exec (fault_at 3) (deleteView 1) (world_of sample_store) in
  let passing := exec no_fault (deleteView 1) (world_of sample_store) in
  failing.1 = Err StorageFailure ∧
  last (trace failing.2) = Some (displayRepository_getDisplayById 5) ∧
  views (st failing.2) !! 1 = Some sample_view ∧
  logged failing.2 = [] ∧
  trace passing.2 =
    [viewRepository_getViewById 1;
     contentSlotRepository_getContentSlotsByViewId 1;
     contentSlotOptionRepository_getOptionsForContentSlot 1;
     displayRepository_getDisplayById 5;
     viewRepository_deleteView 1;
     emit views_updated (payload_display (Some sample_display))].
Proof. vm_compute. by split_and!. Qed.

(** C7, amended.  [updateView] completes its mutation and reads the view
    back first; only then it starts, without awaiting it, the promise that
    resolves the owning display and emits [views_updated]: nothing was
    emitted or logged when [updateView] returns the record persisted for the
    view, and that promise never rejects, it emits the event or logs the
    failure.  [deleteView] resolves the owning display before it deletes: a
    failure of that lookup rejects [deleteView] and leaves the view persisted;
    once the view is deleted, the event is emitted, and a failure of the
    emission is logged and swallowed, the call being reported successful. *)
Theorem view_notifications (fault : nat → bool) :
  (∀ id name columns rows contentSlots w r w',
     exec fault (updateView id name columns rows contentSlots) w = (Ok r, w') →
     emitted w' = emitted w ∧ logged w' = logged w ∧
     views (st w') !! id = Some r.1 ∧
     last (pending w') = Some (notifyViewsUpdated (view_displayId r.1))) ∧
  (∀ displayId w,
     let n := exec fault (notifyViewsUpdated displayId) w in
     n.1 = Ok tt ∧ st n.2 = st w ∧
     ((emitted n.2 =
         emitted w ++ [(views_updated, payload_display (displays (st w) !! displayId))]
       ∧ logged n.2 = logged w) ∨
      (emitted n.2 = emitted w ∧ ∃ e, logged n.2 = logged w ++ [e]))) ∧
  (∀ viewId w view w1,
     exec fault (getView viewId) w = (Ok view, w1) →
     st w1 = st w ∧ emitted w1 = emitted w ∧ logged w1 = logged w ∧
     match perform fault (displayRepository_getDisplayById (view_displayId view.1)) w1 with
     | (inl e, w2) =>
         exec fault (deleteView viewId) w = (Err e, w2) ∧
         st w2 = st w ∧ emitted w2 = emitted w ∧ logged w2 = logged w
     | (inr display, w2) =>
         display = displays (st w) !! view_displayId view.1 ∧
         match perform fault (viewRepository_deleteView viewId) w2 with
         | (inl _, _) => True
         | (inr _, _) =>
             ∃ w', exec fault (deleteView viewId) w = (Ok tt, w') ∧
                   views (st w') = delete viewId (views (st w)) ∧
                   ((emitted w' = emitted w ++ [(views_updated, payload_display display)]
                     ∧ logged w' = logged w) ∨
                    (emitted w' = emitted w ∧ logged w' = logged w ++ [ListenerFailure]))
         end
     end).
Proof.
  split_and!.
  - intros id name columns rows contentSlots w r w'. unfold updateView.
    rewrite exec_bind. await_case as view w1 Hview; [done|].
    destruct Hview as [_ Hw1].
    rewrite exec_bind. await_case as updated w2 Hupd; [done|].
    destruct Hupd as [_ Hw2].
    rewrite exec_bind.
    pose proof (updateContentSlotsForView_frame fault (view_id updated) contentSlots w2)
      as (Hem3 & Hlog3 & _ & _).
    destruct (exec fault (updateContentSlotsForView _ _) w2) as [[[]|e] w3]; [|done].
    rewrite exec_bind.
    destruct (exec fault (getView id) w3) as [[r'|e] w4] eqn:Hread; [|done].
    apply getView_ok in Hread as (Hr & Hst4 & Hem4 & Hlog4 & _).
    simpl. intros [= <- <-]. simpl in *. split_and!.
    + rewrite Hem4, Hem3, Hw2. simpl. by rewrite Hw1.
    + rewrite Hlog4, Hlog3, Hw2. simpl. by rewrite Hw1.
    + by rewrite Hst4.
    + apply last_snoc.
  - intros displayId w. apply notifyViewsUpdated_swallows.
  - intros viewId w view w1 Hview.
    pose proof (getView_ok fault viewId w w1 view Hview) as (Hv & Hst1 & Hem1 & Hlog1 & _).
    split_and!; [done|done|done|].
    unfold deleteView, getDisplayById. rewrite exec_bind, Hview, exec_bind.
    await_unfold.
    destruct (perform fault (displayRepository_getDisplayById _) w1)
      as [[e|display] w2] eqn:Hget.
    { apply perform_err in Hget. rewrite Hget. simpl. by split_and!. }
    apply perform_ok in Hget as [Hrepo Hw2]. simpl in Hrepo. injection Hrepo as Hd Hst2.
    split; [by rewrite <- Hst1|].
    rewrite exec_catch, exec_bind. await_unfold.
    destruct (perform fault (viewRepository_deleteView viewId) w2)
      as [[e|b] w3] eqn:Hdel; [done|].
    apply perform_ok in Hdel as [Hrepo Hw3]. simpl in Hrepo.
    rewrite <- Hst2, Hst1, Hv in Hrepo. injection Hrepo as _ Hst3.
    assert (emitted w3 = emitted w ∧ logged w3 = logged w) as [Hem3 Hlog3].
    { rewrite Hw3. simpl. rewrite Hw2. simpl. done. }
    await_unfold.
    destruct (perform fault (emit _ _) w3) as [[e|u] w4] eqn:Hemit;
      [pose proof (perform_err_kind _ _ _ _ _ Hemit) as [->|He]; [|done];
       apply perform_err in Hemit
      |apply perform_ok in Hemit; simpl in Hemit].
    + rewrite exec_logger_error. eexists. split; [done|]. simpl.
      rewrite Hemit. simpl. split; [by rewrite <- Hst3|].
      right. by rewrite Hem3, Hlog3.
    + destruct Hemit as [Hrepo Hw4]. injection Hrepo as _ Hst4. destruct u.
      eexists. split; [done|]. split; [by rewrite <- Hst4, <- Hst3|].
      left. rewrite Hw4. simpl. by rewrite Hem3, Hlog3.
Qed.

Lemma view_notifications_witness :
  emitted (exec no_fault (deleteView 1) (world_of sample_store)).2 =
    [(views_updated, payload_display (Some sample_display))].
Proof.
  destruct (view_notifications no_fault) as (_ & _ & H).
  destruct (H 1 (world_of sample_store) _ _ eq_refl) as (_ & _ & _ & Hdel).
  vm_compute in Hdel. destruct Hdel as [_ (w' & Hrun & _ & [[Hem _]|[_ Hlog]])].
  - injection Hrun as <-. exact Hem.
  - injection Hrun as <-. discriminate Hlog.
Defined.

(** ** The slot table after a reconciliation *)

Lemma lookup_delete_all {V : Type} (l : list nat) (m : gmap nat V) (k : nat) :
  delete_all l m !! k = if decide (k ∈ l) then None else m !! k.
Proof.
  unfold delete_all. revert m. induction l as [|i l IH]; intros m.
  - destruct (decide (k ∈ [])) as [Hin|_]; [by apply elem_of_nil in Hin|done].
  - cbn [foldl]. rewrite IH.
    destruct (decide (k ∈ l)) as [Hin|Hnin].
    + by rewrite decide_True by (by right).
    + destruct (decide (k = i)) as [->|Hne].
      * rewrite lookup_delete_eq. by rewrite decide_True by left.
      * rewrite lookup_delete_ne by done.
        rewrite decide_False; [done|]. by intros [?|?]%elem_of_cons.
Qed.

Lemma repo_wf (c : call) (s s' : store) (r : resp c) :
  store_wf s → repo c s = inr (r, s') → store_wf s'.
Proof.
  intros [Hd Hv Hc].
  destruct c; simpl; intros Hr;
    repeat match goal with
           | H : context [match ?x with _ => _ end] |- _ => destruct x eqn:?
           end; simplify_eq; try done.
  all: split; simpl; try done.
  all: intros i x; rewrite ?lookup_insert, ?lookup_delete; intros Hx.
  all: repeat case_decide; simplify_eq; simpl; try done.
  all: try (match goal with
            | H : displays _ !! _ = Some _ |- _ => apply Hd in H
            | H : views _ !! _ = Some _ |- _ => apply Hv in H
            | H : contentSlots _ !! _ = Some _ |- _ => apply Hc in H
            end).
  all: try (split; [tauto|lia]).
Qed.

Section SlotReconciler.

Variable fault : nat → bool.

Lemma all_calls_True {A : Type} (p : prog A) : all_calls (λ _, True) (λ _, True) p.
Proof.
  induction p as [A a|A e|A c k IH|A q IHq k IH]; simpl; [done|done|..].
  - split; [done|]. intros r. apply IH.
  - by split_and!.
Qed.

(** Well-formedness of the store survives every execution. *)
Lemma exec_wf {A : Type} (p : prog A) (w : world) :
  store_wf (st w) → store_wf (st (exec fault p w).2).
Proof.
  apply (exec_store_invariant fault (λ _, True) store_wf); [|apply all_calls_True].
  intros c s r s' _ Hr Hwf. by eapply repo_wf.
Qed.

Lemma removeSlot_ok (i : nat) (w w' : world) :
  exec fault (removeSlot i) w = (Ok tt, w') →
  contentSlots (st w') = delete i (contentSlots (st w)) ∧
  contentSlotOptions (st w') = delete i (contentSlotOptions (st w)) ∧
  nextContentSlotId (st w') = nextContentSlotId (st w) ∧
  pending w' = pending w ∧
  trace w' = trace w ++ [contentSlotOptionRepository_deleteOptionsForContentSlot i;
                         contentSlotRepository_deleteContentSlot i].
Proof.
  unfold removeSlot. rewrite exec_bind. await_case as u w1 Hopt; [done|].
  destruct Hopt as [Hrepo Hw1]. injection Hrepo as _ Hst1.
  rewrite exec_bind. await_case as b w2 Hslot; [done|].
  destruct Hslot as [Hrepo Hw2]. simpl. intros [= <-].
  assert (st w2 = with_contentSlots (delete i (contentSlots (st w1)))
                    (nextContentSlotId (st w1)) (st w1)) as ->.
  { destruct (contentSlots (st w1) !! i) eqn:Hi; injection Hrepo as _ <-; [done|].
    rewrite delete_id by done. by destruct (st w1). }
  rewrite <- Hst1. simpl. split_and!; [done|done|done|..].
  - rewrite Hw2. simpl. by rewrite Hw1.
  - rewrite Hw2. simpl. rewrite Hw1. simpl. by rewrite <- app_assoc.
Qed.

Lemma reconcileSlot_ok (viewId : nat) (d : SlotDescriptor) (w w' : world) :
  store_wf (st w) →
  exec fault (reconcileSlot viewId d) w = (Ok tt, w') →
  (contentSlots (st w'), nextContentSlotId (st w')) =
    apply_descriptor viewId (contentSlots (st w), nextContentSlotId (st w)) d ∧
  contentSlotOptions (st w') = contentSlotOptions (st w) ∧
  pending w' = pending w ++ option_tasks (nextContentSlotId (st w)) [d] ∧
  (∀ i, desc_id d = Some i → is_Some (contentSlots (st w) !! i)).
Proof.
  intros Hwf. unfold reconcileSlot, apply_descriptor. cbn [fst snd option_tasks].
  destruct (desc_id d) as [i|] eqn:Hid.
  - rewrite exec_bind. await_case as c w1 Hget; [done|].
    destruct Hget as [Hrepo Hw1].
    destruct (contentSlots (st w) !! i) as [c0|] eqn:Hi; [|done].
    injection Hrepo as <- Hst1.
    destruct (wf_contentSlots _ Hwf _ _ Hi) as [Hci _].
    rewrite exec_bind. await_case as o w2 Hupd; [done|].
    destruct Hupd as [Hrepo Hw2]. rewrite <- Hst1, Hci, Hi in Hrepo.
    injection Hrepo as _ Hst2. simpl. intros [= <-]. simpl.
    rewrite <- Hst2. simpl. split_and!; [done|done| |].
    + rewrite Hw2. simpl. rewrite Hw1. simpl. by rewrite Hci.
    + intros ? [= <-]. by eexists.
  - rewrite exec_bind. await_case as c w1 Hnew; [done|].
    destruct Hnew as [Hrepo Hw1]. injection Hrepo as <- Hst1.
    simpl. intros [= <-]. simpl. rewrite <- Hst1. simpl.
    split_and!; [done|done| |done]. by rewrite Hw1.
Qed.

Lemma option_tasks_cons (next : nat) (viewId : nat) (m : gmap nat ContentSlot)
    (d : SlotDescriptor) (l : list SlotDescriptor) :
  option_tasks next (d :: l) =
  option_tasks next [d] ++ option_tasks (apply_descriptor viewId (m, next) d).2 l.
Proof. unfold apply_descriptor. simpl. by destruct (desc_id d). Qed.

(** The slot table, the option table and the promises started, when the
    slot reconciler completes. *)
Lemma updateContentSlotsForView_ok (viewId : nat) (newContentSlots : list SlotDescriptor)
    (w w' : world) :
  store_wf (st w) →
  exec fault (updateContentSlotsForView viewId newContentSlots) w = (Ok tt, w') →
  let removed := removedIds (slotsOfView (st w) viewId) newContentSlots in
  (contentSlots (st w'), nextContentSlotId (st w')) =
    foldl (apply_descriptor viewId)
      (delete_all removed (contentSlots (st w)), nextContentSlotId (st w)) newContentSlots ∧
  contentSlotOptions (st w') = delete_all removed (contentSlotOptions (st w)) ∧
  pending w' = pending w ++ option_tasks (nextContentSlotId (st w)) newContentSlots ∧
  store_wf (st w').
Proof.
  intros Hwf Hrun removed.
  assert (store_wf (st w')) as Hwf'
    by (pose proof (exec_wf (updateContentSlotsForView viewId newContentSlots) w Hwf) as H;
        by rewrite Hrun in H).
  revert Hrun. unfold updateContentSlotsForView. rewrite exec_bind.
  await_case as existing w0 Hread; [done|].
  destruct Hread as [Hrepo Hw0]. injection Hrepo as <- Hst0.
  fold removed. rewrite exec_rethrow, exec_bind.
  destruct (exec fault (for_of removed removeSlot) w0) as [[[]|e] w1] eqn:Hdel; [|done].
  intros Hput.
  assert (store_wf (st w1)) as Hwf1.
  { pose proof (exec_wf (for_of removed removeSlot) w0) as H.
    rewrite Hdel, <- Hst0 in H. by apply H. }
  assert (contentSlots (st w1) = delete_all removed (contentSlots (st w)) ∧
          contentSlotOptions (st w1) = delete_all removed (contentSlotOptions (st w)) ∧
          nextContentSlotId (st w1) = nextContentSlotId (st w) ∧
          pending w1 = pending w) as (Hs1 & Ho1 & Hn1 & Hp1).
  { apply (exec_for_of_inv fault
             (λ l w2, delete_all l (contentSlots (st w2)) =
                        delete_all removed (contentSlots (st w)) ∧
                      delete_all l (contentSlotOptions (st w2)) =
                        delete_all removed (contentSlotOptions (st w)) ∧
                      nextContentSlotId (st w2) = nextContentSlotId (st w) ∧
                      pending w2 = pending w)
             removed removeSlot w0 w1); [| |done].
    - rewrite <- Hst0, Hw0. done.
    - intros x l' w2 w3 (Hs & Ho & Hn & Hp) Hbody.
      apply removeSlot_ok in Hbody as (-> & -> & -> & -> & _). done. }
  assert ((contentSlots (st w'), nextContentSlotId (st w')) =
            foldl (apply_descriptor viewId)
              (contentSlots (st w1), nextContentSlotId (st w1)) newContentSlots ∧
          contentSlotOptions (st w') = contentSlotOptions (st w1) ∧
          pending w' = pending w1 ++ option_tasks (nextContentSlotId (st w1))
                                       newContentSlots) as (Hs & Ho & Hp).
  { apply (exec_for_of_inv fault
             (λ l w2,
                store_wf (st w2) ∧
                foldl (apply_descriptor viewId)
                  (contentSlots (st w2), nextContentSlotId (st w2)) l =
                foldl (apply_descriptor viewId)
                  (contentSlots (st w1), nextContentSlotId (st w1)) newContentSlots ∧
                contentSlotOptions (st w2) = contentSlotOptions (st w1) ∧
                pending w2 ++ option_tasks (nextContentSlotId (st w2)) l =
                pending w1 ++ option_tasks (nextContentSlotId (st w1)) newContentSlots)
             newContentSlots (reconcileSlot viewId) w1 w') in Hput.
    - destruct Hput as (_ & Hs & Ho & Hp). simpl in Hs, Hp.
      rewrite app_nil_r in Hp. done.
    - done.
    - intros x l' w2 w3 (Hwf2 & Hs & Ho & Hp) Hbody.
      pose proof (exec_wf (reconcileSlot viewId x) w2 Hwf2) as Hwf3.
      rewrite Hbody in Hwf3.
      apply reconcileSlot_ok in Hbody as (Hs3 & Ho3 & Hp3 & _); [|done].
      split_and!; [done| | |].
      + rewrite <- Hs. simpl. by rewrite Hs3.
      + congruence.
      + rewrite <- Hp, Hp3.
        rewrite (option_tasks_cons _ viewId (contentSlots (st w2)) x l'), <- Hs3.
        simpl. by rewrite <- app_assoc. }
  split_and!; [|by rewrite Ho, Ho1| |done].
  - by rewrite Hs, Hs1, Hn1.
  - by rewrite Hp, Hp1, Hn1.
Qed.

End SlotReconciler.

(** ** Ownership of the content slots *)

Lemma submittedIds_with_desc_viewId (x : option nat) (l : list SlotDescriptor) :
  submittedIds (with_desc_viewId x <$> l) = submittedIds l.
Proof.
  unfold submittedIds. induction l as [|d l IH]; [done|].
  csimpl. by rewrite IH.
Qed.

Lemma for_of_with_desc_viewId (viewId : nat) (x : option nat) (l : list SlotDescriptor) :
  for_of (with_desc_viewId x <$> l) (reconcileSlot viewId) = for_of l (reconcileSlot viewId).
Proof.
  induction l as [|d l IH]; [done|].
  csimpl. by rewrite IH.
Qed.

Lemma updateContentSlotsForView_ignores_viewId (viewId : nat) (x : option nat)
    (l : list SlotDescriptor) :
  updateContentSlotsForView viewId (with_desc_viewId x <$> l) =
  updateContentSlotsForView viewId l.
Proof.
  unfold updateContentSlotsForView, removedIds.
  by rewrite submittedIds_with_desc_viewId, for_of_with_desc_viewId.
Qed.

Lemma apply_descriptors_owned (viewId : nat) (l : list SlotDescriptor)
    (m : gmap nat ContentSlot) (n i : nat) :
  (Some i ∈ desc_id <$> l ∨ ∃ c, m !! i = Some c ∧ slot_viewId c = viewId) →
  ∃ c, (foldl (apply_descriptor viewId) (m, n) l).1 !! i = Some c ∧ slot_viewId c = viewId.
Proof.
  revert m n. induction l as [|d l IH]; intros m n Hi.
  - destruct Hi as [Hi|Hi]; [by apply elem_of_nil in Hi|done].
  - cbn [foldl]. unfold apply_descriptor at 2. cbn [fst snd].
    destruct (desc_id d) as [j|] eqn:Hj.
    + apply IH. rewrite fmap_cons, Hj in Hi.
      destruct (decide (i = j)) as [->|Hne].
      * right. rewrite lookup_insert_eq. by eexists.
      * destruct Hi as [[Hi|Hi]%elem_of_cons|Hi]; [congruence|by left|].
        right. by rewrite lookup_insert_ne.
    + apply IH. rewrite fmap_cons, Hj in Hi.
      destruct (decide (i = n)) as [->|Hne].
      * right. rewrite lookup_insert_eq. by eexists.
      * destruct Hi as [[Hi|Hi]%elem_of_cons|Hi]; [done|by left|].
        right. by rewrite lookup_insert_ne.
Qed.

Lemma apply_descriptors_untouched (viewId : nat) (l : list SlotDescriptor)
    (m : gmap nat ContentSlot) (n i : nat) :
  i < n → Some i ∉ desc_id <$> l →
  (foldl (apply_descriptor viewId) (m, n) l).1 !! i = m !! i.
Proof.
  revert m n. induction l as [|d l IH]; intros m n Hlt Hi; [done|].
  cbn [foldl]. unfold apply_descriptor at 2. cbn [fst snd].
  rewrite fmap_cons in Hi. apply not_elem_of_cons in Hi as [Hd Hi].
  destruct (desc_id d) as [j|] eqn:Hj.
  - rewrite IH by done. apply lookup_insert_ne. congruence.
  - rewrite IH by (done || lia). apply lookup_insert_ne. lia.
Qed.

Lemma elem_of_slotsOfView (s : store) (viewId : nat) (c : ContentSlot) :
  c ∈ slotsOfView s viewId ↔
  slot_viewId c = viewId ∧ ∃ i, contentSlots s !! i = Some c.
Proof.
  unfold slotsOfView. rewrite list_elem_of_filter, list_elem_of_fmap. split.
  - intros [Hv [[i c'] [-> Hic]]]. split; [done|]. exists i.
    by apply elem_of_map_to_list.
  - intros [Hv [i Hi]]. split; [done|]. exists (i, c). split; [done|].
    by apply elem_of_map_to_list.
Qed.

Lemma elem_of_removedIds (s : store) (viewId : nat) (l : list SlotDescriptor) (i : nat) :
  store_wf s →
  i ∈ removedIds (slotsOfView s viewId) l ↔
  (∃ c, contentSlots s !! i = Some c ∧ slot_viewId c = viewId) ∧ Some i ∉ desc_id <$> l.
Proof.
  intros Hwf. unfold removedIds, submittedIds.
  rewrite list_elem_of_filter, list_elem_of_fmap, list_elem_of_omap.
  split.
  - intros [Hnot [c [-> [Hv [k Hk]]%elem_of_slotsOfView]]].
    destruct (wf_contentSlots _ Hwf _ _ Hk) as [Hck _]. rewrite Hck in *.
    split; [by exists c|]. intros [d [Hd Hid]]%list_elem_of_fmap. apply Hnot. by exists d.
  - intros [(c & Hc & Hv) Hnot]. split.
    + intros (d & Hd & Hid). apply Hnot. apply list_elem_of_fmap. by exists d.
    + exists c. destruct (wf_contentSlots _ Hwf _ _ Hc) as [Hid _].
      split; [done|]. apply elem_of_slotsOfView. split; [done|]. by exists i.
Qed.

(** C6, as stated, fails for the slot reconciler: a descriptor that carries
    the identity of a slot of another view makes the reconciler move that
    slot into its own view. *)
Lemma reconciler_moves_foreign_slot :
  let desired := [mkSlotDescriptor (Some 1) "clock" 1 1 2 2 None None;
                  mkSlotDescriptor (Some 2) "weather" 3 1 4 2 None None] in
  let r := exec no_fault (updateContentSlotsForView 1 desired) (world_of two_view_store) in
  r.1 = Ok tt ∧
  slot_viewId <$> contentSlots two_view_store !! 2 = Some 2 ∧
  slot_viewId <$> contentSlots (st r.2) !! 2 = Some 1.
Proof. vm_compute. by split_and!. Qed.

(** C6, amended.  [updateView] takes name, columns and rows from the
    caller and displayId, position and screenType from the record it has just
    read, so these three never change.  The slot reconciler names its own
    view argument in every call that names a view, and what it does is the
    same whatever [viewId] property the descriptors carry.  Hence every slot
    named by a descriptor ends up in the reconciler's view (also one that
    belonged to another view before), and a slot of another view that no
    descriptor names is left as it was. *)
Theorem updateView_keeps_placement (fault : nat → bool) :
  (∀ id name columns rows contentSlots w r w' v0,
     store_wf (st w) → views (st w) !! id = Some v0 →
     exec fault (updateView id name columns rows contentSlots) w = (Ok r, w') →
     r.1 = mkView id name columns rows
             (view_displayId v0) (view_order v0) (view_screenType v0) ∧
     views (st w') = <[id := r.1]> (views (st w))) ∧
  (∀ viewId l w,
     ∃ t, trace (exec fault (updateContentSlotsForView viewId l) w).2 = trace w ++ t ∧
          Forall (reconciler_call viewId) t) ∧
  (∀ viewId x l,
     updateContentSlotsForView viewId (with_desc_viewId x <$> l) =
     updateContentSlotsForView viewId l) ∧
  (∀ viewId l w w',
     store_wf (st w) →
     exec fault (updateContentSlotsForView viewId l) w = (Ok tt, w') →
     (∀ i, Some i ∈ desc_id <$> l →
           ∃ c, contentSlots (st w') !! i = Some c ∧ slot_viewId c = viewId) ∧
     (∀ i c, contentSlots (st w) !! i = Some c → slot_viewId c ≠ viewId →
             Some i ∉ desc_id <$> l → contentSlots (st w') !! i = Some c)).
Proof.
  split_and!.
  - intros id name columns rows contentSlots w r w' v0 Hwf Hv0. unfold updateView.
    rewrite exec_bind. await_case as view w1 Hview; [done|].
    destruct Hview as [Hrepo Hw1]. rewrite Hv0 in Hrepo. injection Hrepo as <- Hst1.
    destruct (wf_views _ Hwf _ _ Hv0) as [Hid _]. rewrite Hid.
    rewrite exec_bind. await_case as updated w2 Hupd; [done|].
    destruct Hupd as [Hrepo Hw2]. rewrite <- Hst1, Hv0 in Hrepo.
    injection Hrepo as <- Hst2.
    rewrite exec_bind.
    pose proof (updateContentSlotsForView_frame fault id contentSlots w2)
      as (_ & _ & _ & Hv3).
    cbn [view_id].
    destruct (exec fault (updateContentSlotsForView id contentSlots) w2)
      as [[[]|e] w3]; [|done].
    rewrite exec_bind.
    destruct (exec fault (getView id) w3) as [[r'|e] w4] eqn:Hread; [|done].
    apply getView_ok in Hread as (Hr & Hst4 & _).
    simpl. intros [= <- <-]. simpl in *.
    rewrite Hst4, Hv3, <- Hst2 in *. simpl in *.
    rewrite lookup_insert_eq in Hr. injection Hr as <-. done.
  - intros viewId l w. apply exec_trace with (Q := λ _, True).
    apply updateContentSlotsForView_calls.
  - intros viewId x l. apply updateContentSlotsForView_ignores_viewId.
  - intros viewId l w w' Hwf Hrun.
    apply updateContentSlotsForView_ok in Hrun as (Hs & _ & _ & _); [|done].
    apply (f_equal fst) in Hs. simpl in Hs. rewrite Hs. split.
    + intros i Hi. apply apply_descriptors_owned. by left.
    + intros i c Hc Hv Hi.
      rewrite apply_descriptors_untouched; [|by apply (wf_contentSlots _ Hwf _ _ Hc)|done].
      rewrite lookup_delete_all, decide_False; [done|].
      intros [(c' & Hc' & Hv') _]%elem_of_removedIds; [|done]. congruence.
Qed.

Lemma sample_store_wf : store_wf sample_store.
Proof.
  split; simpl; intros i x Hx; apply lookup_singleton_Some in Hx as [<- <-]; simpl; lia.
Qed.

Lemma updateView_keeps_placement_witness :
  (exec no_fault (updateView 1 "renamed" 6 4 []) (world_of sample_store)).1 =
    Ok (mkView 1 "renamed" 6 4 5 1 "idle", []).
Proof.
  destruct (updateView_keeps_placement no_fault) as (H & _).
  pose (r := exec no_fault (updateView 1 "renamed" 6 4 []) (world_of sample_store)).
  destruct (H 1 "renamed"%string 6%Z 4%Z [] (world_of sample_store)
              (mkView 1 "renamed" 6 4 5 1 "idle", []) r.2 sample_view
              sample_store_wf eq_refl eq_refl) as [_ _].
  reflexivity.
Defined.

(** ** Removal of content slots *)

Lemma options_before_slot_snoc (t : list call) (c : call) :
  options_before_slot t →
  (∀ i, c = contentSlotRepository_deleteContentSlot i →
        last t = Some (contentSlotOptionRepository_deleteOptionsForContentSlot i)) →
  options_before_slot (t ++ [c]).
Proof.
  intros Ht Hc n i Hn.
  destruct (decide (n < length t)) as [Hlt|Hge].
  - rewrite lookup_app_l in Hn by done. destruct (Ht n i Hn) as (m & -> & Hm).
    exists m. split; [done|]. rewrite lookup_app_l; [done|lia].
  - assert (n = length t) as ->.
    { apply lookup_lt_Some in Hn. rewrite length_app in Hn. simpl in Hn. lia. }
    rewrite lookup_app_r, Nat.sub_diag in Hn by done. injection Hn as ->.
    specialize (Hc i eq_refl). rewrite last_lookup in Hc.
    destruct (length t) as [|m] eqn:Hlen; [by destruct t|].
    exists m. split; [done|]. rewrite lookup_app_l by lia. exact Hc.
Qed.

Section Removal.

Variable fault : nat → bool.

Lemma exec_for_of_always {X : Type} (I : world → Prop) (l : list X)
    (body : X → prog unit) (w : world) :
  I w → (∀ x w1, I w1 → I (exec fault (body x) w1).2) →
  I (exec fault (for_of l body) w).2.
Proof.
  intros HI Hbody. revert w HI. induction l as [|x l IH]; intros w HI; simpl; [done|].
  rewrite exec_bind. specialize (Hbody x w HI).
  destruct (exec fault (body x) w) as [[[]|e] w1]; [by apply IH|done].
Qed.

Lemma removeSlot_ordered (i : nat) (w0 w : world) :
  (∃ t, trace w = trace w0 ++ t ∧ options_before_slot t) →
  ∃ t, trace (exec fault (removeSlot i) w).2 = trace w0 ++ t ∧ options_before_slot t.
Proof.
  intros (t & Ht & Hobs). unfold removeSlot. rewrite exec_bind. await_unfold.
  pose proof (perform_trace fault
                (contentSlotOptionRepository_deleteOptionsForContentSlot i) w) as Htr1.
  destruct (perform fault (contentSlotOptionRepository_deleteOptionsForContentSlot i) w)
    as [[e|u] w1]; simpl in Htr1.
  - exists (t ++ [contentSlotOptionRepository_deleteOptionsForContentSlot i]).
    simpl. rewrite Htr1, Ht, app_assoc. split; [done|].
    by apply options_before_slot_snoc.
  - rewrite exec_bind. await_unfold.
    pose proof (perform_trace fault (contentSlotRepository_deleteContentSlot i) w1) as Htr2.
    exists ((t ++ [contentSlotOptionRepository_deleteOptionsForContentSlot i]) ++
            [contentSlotRepository_deleteContentSlot i]).
    split.
    + destruct (perform fault (contentSlotRepository_deleteContentSlot i) w1)
        as [[e|b] w2]; simpl in *; by rewrite Htr2, Htr1, Ht, !app_assoc.
    + apply options_before_slot_snoc; [by apply options_before_slot_snoc|].
      intros j [= <-]. apply last_snoc.
Qed.


Lemma reconcileSlot_calls (viewId : nat) (d : SlotDescriptor) :
  all_calls (upsert_call viewId) (λ _, True) (reconcileSlot viewId d).
Proof.
  assert (∀ i o, all_calls (upsert_call viewId) (λ _, True)
                   (unawaited (setOptionsForContentSlot i o))) as Hspawn.
  { intros i o. apply all_calls_unawaited; [done|].
    eapply all_calls_impl; [| |apply setOptionsForContentSlot_calls]; [|done].
    intros c [Hc Hnr]. split; [|done]. destruct c; simpl in *; try done; by eexists. }
  unfold reconcileSlot. destruct (desc_id d) as [i|].
  - apply all_calls_bind; [apply all_calls_await; (split; [done|simpl; by intros ?])|]. intros c.
    apply all_calls_bind; [apply all_calls_await; (split; [done|simpl; by intros ?])|]. intros _. apply Hspawn.
  - apply all_calls_bind; [apply all_calls_await; (split; [done|simpl; by intros ?])|]. intros c. apply Hspawn.
Qed.

(** Whatever the outcome of the slot reconciler, a content slot is only
    ever deleted right after its options were. *)
Lemma updateContentSlotsForView_ordered (viewId : nat) (l : list SlotDescriptor) (w : world) :
  ∃ t, trace (exec fault (updateContentSlotsForView viewId l) w).2 = trace w ++ t ∧
       options_before_slot t.
Proof.
  unfold updateContentSlotsForView. rewrite exec_bind. await_unfold.
  pose proof (perform_trace fault (contentSlotRepository_getContentSlotsByViewId viewId) w)
    as Htr.
  assert (options_before_slot [contentSlotRepository_getContentSlotsByViewId viewId]) as H0.
  { intros [|n] i Hn; [done|]. by destruct n. }
  destruct (perform fault (contentSlotRepository_getContentSlotsByViewId viewId) w)
    as [[e|existing] w0]; simpl in Htr; [by eexists|].
  rewrite exec_rethrow, exec_bind.
  set (removed := removedIds existing l).
  assert (∃ t, trace (exec fault (for_of removed removeSlot) w0).2 = trace w ++ t ∧
               options_before_slot t) as (t1 & Ht1 & Hobs1).
  { apply (exec_for_of_always (λ w1, ∃ t, trace w1 = trace w ++ t ∧ options_before_slot t));
      [by eexists|].
    intros x w1. apply removeSlot_ordered. }
  destruct (exec fault (for_of removed removeSlot) w0) as [[[]|e] w1]; [|by eexists].
  simpl in Ht1.
  apply (exec_invariant fault (upsert_call viewId) (λ _, True)
           (λ w2, ∃ t, trace w2 = trace w ++ t ∧ options_before_slot t)).
  - intros c w2 [_ Hc] (t & Ht & Hobs). exists (t ++ [c]).
    rewrite perform_trace, Ht, app_assoc. split; [done|].
    apply options_before_slot_snoc; [done|]. intros i ->. by destruct Hc.
  - by intros q w2 _ H.
  - apply all_calls_for_of. apply reconcileSlot_calls.
  - by eexists.
Qed.

Lemma all_calls_for_of_Forall (P : call → Prop) (Q : prog unit → Prop) {X : Type}
    (l : list X) (body : X → prog unit) :
  Forall (λ x, all_calls P Q (body x)) l → all_calls P Q (for_of l body).
Proof.
  induction 1 as [|x l Hx Hl IH]; simpl; [done|].
  apply all_calls_bind; [done|]. by intros _.
Qed.

(** The calls of a completed slot reconciliation: the read, then for every
    removed slot the deletion of its options followed by its own, then
    the calls of the second loop. *)
Lemma updateContentSlotsForView_trace_with (P : call → Prop) (viewId : nat)
    (l : list SlotDescriptor) (w w' : world) :
  Forall (λ d, all_calls P (λ _, True) (reconcileSlot viewId d)) l →
  exec fault (updateContentSlotsForView viewId l) w = (Ok tt, w') →
  ∃ t, trace w' =
         trace w ++ contentSlotRepository_getContentSlotsByViewId viewId ::
                    (removedIds (slotsOfView (st w) viewId) l ≫= removal_calls) ++ t ∧
       Forall P t.
Proof.
  intros Hcalls. unfold updateContentSlotsForView. rewrite exec_bind.
  await_case as existing w0 Hread; [done|].
  destruct Hread as [Hrepo Hw0]. injection Hrepo as <- Hst0.
  rewrite exec_rethrow, exec_bind.
  set (removed := removedIds (slotsOfView (st w) viewId) l).
  destruct (exec fault (for_of removed removeSlot) w0) as [[[]|e] w1] eqn:Hdel; [|done].
  assert (trace w1 = trace w0 ++ (removed ≫= removal_calls)) as Htr1.
  { apply (exec_for_of_inv fault
             (λ l1 w2, trace w2 ++ (l1 ≫= removal_calls) =
                       trace w0 ++ (removed ≫= removal_calls))
             removed removeSlot w0 w1) in Hdel; [|done|].
    - by rewrite app_nil_r in Hdel.
    - intros x l1 w2 w3 Hinv Hbody.
      apply removeSlot_ok in Hbody as (_ & _ & _ & _ & ->).
      rewrite <- Hinv. rewrite bind_cons. by rewrite <- !app_assoc. }
  intros Hput.
  destruct (exec_trace fault P (λ _, True) (for_of l (reconcileSlot viewId)) w1)
    as (t & Ht & HP); [by apply all_calls_for_of_Forall|].
  rewrite Hput in Ht. simpl in Ht. exists t. split; [|done].
  rewrite Ht, Htr1, Hw0. simpl. by rewrite <- !app_assoc.
Qed.

Lemma updateContentSlotsForView_trace (viewId : nat) (l : list SlotDescriptor)
    (w w' : world) :
  exec fault (updateContentSlotsForView viewId l) w = (Ok tt, w') →
  ∃ t, trace w' =
         trace w ++ contentSlotRepository_getContentSlotsByViewId viewId ::
                    (removedIds (slotsOfView (st w) viewId) l ≫= removal_calls) ++ t ∧
       Forall (upsert_call viewId) t.
Proof.
  apply updateContentSlotsForView_trace_with.
  apply Forall_forall. intros d _. apply reconcileSlot_calls.
Qed.

(** ** Promises that were started and not awaited *)

Lemma exec_no_spawn (P : call → Prop) {A : Type} (p : prog A) (w : world) :
  all_calls P (λ _, False) p →
  pending (exec fault p w).2 = pending w ∧ unhandled (exec fault p w).2 = unhandled w.
Proof.
  intros Hp.
  apply (exec_invariant fault P (λ _, False)
           (λ w', pending w' = pending w ∧ unhandled w' = unhandled w)); [| |done|done].
  - intros c w0 _ [Hp0 Hu0]. unfold perform.
    destruct (fault (clock w0) && fallible c); [done|].
    destruct (repo c (st w0)) as [e|[r s']]; [done|]. by destruct c.
  - by intros q w0 [].
Qed.

(** When every pending promise issues only calls that preserve an invariant
    of the persisted state, and starts nothing, settling them preserves
    it. *)
Lemma settle_store_invariant (P : call → Prop) (J : store → Prop) :
  (∀ c s r s', P c → repo c s = inr (r, s') → J s → J s') →
  ∀ (n : nat) (w : world),
    Forall (all_calls P (λ _, False)) (pending w) → J (st w) →
    J (st (settle fault n w)).
Proof.
  intros Hrepo n. induction n as [|n IH]; intros w Hpend HJ; simpl; [done|].
  destruct (pending w) as [|q qs] eqn:Hq; [done|].
  apply Forall_cons in Hpend as [Hq1 Hqs].
  pose proof (exec_no_spawn P q (dequeue w) Hq1) as [Hp1 _].
  pose proof (exec_store_invariant fault P J Hrepo _ q (dequeue w)) as HJ1.
  destruct (exec fault q (dequeue w)) as [r w1]. simpl in *.
  apply IH.
  - destruct r; simpl; rewrite Hp1, Hq; done.
  - destruct r; simpl; apply HJ1; try done;
      (eapply all_calls_impl; [| |exact Hq1]; done).
Qed.

Lemma option_tasks_elsewhere (i next : nat) (l : list SlotDescriptor) :
  i < next → Some i ∉ desc_id <$> l →
  Forall (all_calls (λ c, ∃ j, option_call_on c = Some j ∧ j ≠ i) (λ _, False))
         (option_tasks next l).
Proof.
  revert next. induction l as [|d l IH]; intros next Hlt Hi; simpl; [done|].
  rewrite fmap_cons in Hi. apply not_elem_of_cons in Hi as [Hd Hi].
  assert (∀ j, j ≠ i →
            all_calls (λ c, ∃ j, option_call_on c = Some j ∧ j ≠ i) (λ _, False)
              (option_task j d)) as Htask.
  { intros j Hj. unfold option_task. apply all_calls_bind; [|done].
    eapply all_calls_impl; [| |apply setOptionsForContentSlot_calls]; [|done].
    intros c [Hc _]. by exists j. }
  destruct (desc_id d) as [j|] eqn:Hj.
  - constructor; [apply Htask; congruence|by apply IH].
  - constructor; [apply Htask; lia|apply IH; [lia|done]].
Qed.

Lemma repo_option_call_elsewhere (i : nat) (c : call) (s s' : store) (r : resp c) :
  (∃ j, option_call_on c = Some j ∧ j ≠ i) →
  repo c s = inr (r, s') → optionsOf s' i = optionsOf s i.
Proof.
  intros (j & Hc & Hj). destruct c; simpl in Hc; try done; injection Hc as ->; simpl.
  - by intros [= _ <-].
  - intros [= _ <-]. by rewrite optionsOf_delete_all, decide_False.
  - intros [= _ <-]. by rewrite optionsOf_write, decide_False.
  - destruct (optionsOf s j !! key); intros [= _ <-]; [|done].
    by rewrite optionsOf_write, decide_False.
  - intros [= _ <-]. by rewrite optionsOf_write, decide_False.
Qed.

End Removal.

(** C5.  Whatever the outcome of [updateContentSlotsForView], a content
    slot is deleted only right after the options of that slot were deleted.
    When the call completes, its trace is the read, then for every removed
    slot the deletion of its options followed by the deletion of the slot,
    then calls that delete nothing; for every removed slot no option and no
    slot record is persisted under its identity, and the promises that this
    call started do not bring any option back. *)
Theorem removed_slots_lose_their_options_first (fault : nat → bool) (viewId : nat)
    (l : list SlotDescriptor) (w : world) :
  let removed := removedIds (slotsOfView (st w) viewId) l in
  let run := exec fault (updateContentSlotsForView viewId l) w in
  (∃ t, trace run.2 = trace w ++ t ∧ options_before_slot t) ∧
  (run.1 = Ok tt →
   (∃ t, trace run.2 =
           trace w ++ contentSlotRepository_getContentSlotsByViewId viewId ::
                      (removed ≫= removal_calls) ++ t ∧
         Forall (upsert_call viewId) t) ∧
   (store_wf (st w) →
    ∀ i, i ∈ removed →
         optionsOf (st run.2) i = ∅ ∧
         contentSlots (st run.2) !! i = None ∧
         (pending w = [] →
          ∀ fault' n, optionsOf (st (settle fault' n run.2)) i = ∅))).
Proof.
  intros removed run. split; [apply updateContentSlotsForView_ordered|].
  intros Hok. destruct run as [o w'] eqn:Hrun. simpl in Hok. subst o. simpl.
  split; [by apply (updateContentSlotsForView_trace fault)|].
  intros Hwf i Hi.
  pose proof (updateContentSlotsForView_ok fault viewId l w w' Hwf Hrun)
    as (Hs & Ho & Hp & _).
  fold removed in Hs, Ho.
  pose proof Hi as Hi'. apply elem_of_removedIds in Hi' as [(c & Hc & Hv) Hnot]; [|done].
  destruct (wf_contentSlots _ Hwf _ _ Hc) as [_ Hlt].
  assert (optionsOf (st w') i = ∅) as Hempty.
  { unfold optionsOf. by rewrite Ho, lookup_delete_all, decide_True. }
  split_and!; [done| |].
  - apply (f_equal fst) in Hs. simpl in Hs.
    rewrite Hs, apply_descriptors_untouched by done.
    by rewrite lookup_delete_all, decide_True.
  - intros Hquiet fault' n.
    apply (settle_store_invariant fault'
             (λ c, ∃ j, option_call_on c = Some j ∧ j ≠ i) (λ s, optionsOf s i = ∅));
      [| |done].
    + intros c0 s r s' Hc0 Hr Hs0. rewrite <- Hs0. by eapply repo_option_call_elsewhere.
    + rewrite Hp, Hquiet. simpl. by apply option_tasks_elsewhere.
Qed.

Lemma removed_slots_lose_their_options_first_witness :
  optionsOf (st (exec no_fault (updateContentSlotsForView 1 []) (world_of sample_store)).2) 1
    = ∅.
Proof.
  destruct (removed_slots_lose_their_options_first no_fault 1 [] (world_of sample_store))
    as [_ H].
  destruct (H eq_refl) as [_ H'].
  destruct (H' sample_store_wf 1) as (Hempty & _).
  - vm_compute. left.
  - exact Hempty.
Defined.

(** ** Completion of the slot reconciler *)

(** C1 does not hold of the code: the option-set reconciliation of a slot is
    started without being awaited, so [updateContentSlotsForView] completes
    while the options of the new slot are not persisted yet.  They are
    written only when the promise left pending is run. *)
Theorem updateContentSlotsForView_returns_before_options :
  let run := exec no_fault (updateContentSlotsForView 1 [clock_descriptor])
                  (world_of empty_store) in
  run.1 = Ok tt ∧
  contentSlots (st run.2) !! 1 = Some (mkContentSlot 1 "clock" 1 1 1 2 2) ∧
  optionsOf (st run.2) 1 = ∅ ∧
  optionsOf (st run.2) 1 ≠ list_to_map [("color", VString "red")] ∧
  pending run.2 = [option_task 1 clock_descriptor] ∧
  optionsOf (st (settle no_fault 1 run.2)) 1 = {["color" := VString "red"]}.
Proof.
  intros run.
  assert (optionsOf (st run.2) 1 = ∅) as Hempty by (by vm_compute).
  split_and!.
  - by vm_compute.
  - by vm_compute.
  - exact Hempty.
  - rewrite Hempty. intros H. apply (f_equal (lookup "color")) in H.
    vm_compute in H. discriminate H.
  - reflexivity.
  - by vm_compute.
Qed.


(** The promise left pending can also undo the cleanup of a later call: a
    second reconciliation removes the slot created by the first, options
    first, and the pending promise of the first call then writes an option
    for the slot that is gone. *)
Lemma dangling_promise_revives_options :
  let first := exec no_fault (updateContentSlotsForView 1 [clock_descriptor])
                    (world_of empty_store) in
  let second := exec no_fault (updateContentSlotsForView 1 [clock_descriptor]) first.2 in
  let later := settle no_fault 2 second.2 in
  second.1 = Ok tt ∧
  contentSlots (st second.2) !! 1 = None ∧
  optionsOf (st second.2) 1 = ∅ ∧
  contentSlots (st later) !! 1 = None ∧
  optionsOf (st later) 1 = {["color" := VString "red"]}.
Proof.
  intros first second later. split_and!; by vm_compute.
Qed.

(** C4 does not hold of the code: the option-set reconciliation runs beside
    the remaining steps, and its failure reaches nobody.  Here the storage
    fails on the update of the option of slot 1: the call has completed
    successfully, the slot of the second descriptor is created and
    reconciled all the same, the rejection stays unhandled and the persisted
    option keeps its old value.  What the claim says about the awaited steps
    holds: a descriptor naming an identity that is not persisted rejects the
    call with NotFound, and the deletion and the creation done before it
    stay. *)
Theorem updateContentSlotsForView_option_failure_is_lost :
  let desired := [recoloured_descriptor; weather_descriptor] in
  let run := exec (fault_at 5) (updateContentSlotsForView 1 desired)
                  (world_of sample_store) in
  let later := settle (fault_at 5) 2 run.2 in
  run.1 = Ok tt ∧
  length (pending run.2) = 2 ∧
  trace later =
    [contentSlotRepository_getContentSlotsByViewId 1;
     contentSlotRepository_getContentSlot 1;
     contentSlotRepository_updateContentSlot 1 "clock" 1 1 1 2 2;
     contentSlotRepository_createContentSlot "weather" 1 3 1 4 2;
     contentSlotOptionRepository_getOptionsForContentSlot 1;
     contentSlotOptionRepository_updateOption 1 "color" (VString "blue");
     contentSlotOptionRepository_getOptionsForContentSlot 2;
     contentSlotOptionRepository_getOptionsForContentSlot 2] ∧
  unhandled later = [StorageFailure] ∧
  optionsOf (st later) 1 = {["color" := VString "red"]} ∧
  is_Some (contentSlots (st later) !! 2) ∧
  let rejected := exec no_fault
                    (updateContentSlotsForView 1 [weather_descriptor; missing_descriptor])
                    (world_of sample_store) in
  rejected.1 = Err NotFound ∧
  contentSlots (st rejected.2) !! 1 = None ∧
  contentSlots (st rejected.2) !! 2 = Some (mkContentSlot 2 "weather" 1 3 1 4 2).
Proof.
  intros desired run later. split_and!.
  - by vm_compute.
  - by vm_compute.
  - by vm_compute.
  - by vm_compute.
  - by vm_compute.
  - vm_compute. by eexists.
  - intros rejected. by vm_compute.
Qed.

(** ** Reconciling twice *)

Lemma apply_descriptors_named (viewId : nat) (l : list SlotDescriptor)
    (m : gmap nat ContentSlot) (n : nat) :
  all_named l →
  foldl (apply_descriptor viewId) (m, n) l =
  ((foldl (apply_descriptor viewId) (∅, n) l).1 ∪ m, n).
Proof.
  intros Hl. revert m. induction Hl as [|d l [i Hi] Hl IH]; intros m.
  - simpl. by rewrite (left_id_L ∅ (∪)).
  - cbn [foldl]. unfold apply_descriptor at 2 4. rewrite Hi. cbn [fst snd].
    rewrite IH, (IH (<[i:=_]> ∅)). cbn [fst]. f_equal.
    rewrite <- (assoc_L (∪)). f_equal.
    by rewrite insert_union_singleton_l, insert_empty.
Qed.

Lemma apply_descriptors_twice (viewId : nat) (l : list SlotDescriptor)
    (m : gmap nat ContentSlot) (n : nat) :
  all_named l →
  foldl (apply_descriptor viewId) (foldl (apply_descriptor viewId) (m, n) l) l =
  foldl (apply_descriptor viewId) (m, n) l.
Proof.
  intros Hl. rewrite (apply_descriptors_named viewId l m n Hl).
  rewrite apply_descriptors_named by done. f_equal.
  by rewrite (assoc_L (∪)), (idemp_L (∪)).
Qed.

(** After a reconciliation with descriptors that all carry an identity,
    nothing is left to remove. *)
Lemma removedIds_after (viewId : nat) (l : list SlotDescriptor) (s s1 : store) :
  store_wf s → store_wf s1 → all_named l →
  (contentSlots s1, nextContentSlotId s1) =
    foldl (apply_descriptor viewId)
      (delete_all (removedIds (slotsOfView s viewId) l) (contentSlots s),
       nextContentSlotId s) l →
  removedIds (slotsOfView s1 viewId) l = [].
Proof.
  intros Hwf Hwf1 Hl Hs1.
  rewrite apply_descriptors_named in Hs1 by done. injection Hs1 as Hs1 Hn1.
  apply elem_of_nil_inv. intros i.
  intros [(c & Hc & Hv) Hnot]%elem_of_removedIds; [|done].
  destruct (wf_contentSlots _ Hwf1 _ _ Hc) as [_ Hlt]. rewrite Hn1 in Hlt.
  pose proof (apply_descriptors_untouched viewId l ∅ (nextContentSlotId s) i Hlt Hnot)
    as Hnone.
  rewrite lookup_empty in Hnone.
  rewrite Hs1, lookup_union_r in Hc by done.
  rewrite lookup_delete_all in Hc. case_decide as Hrem; [done|].
  apply Hrem. apply elem_of_removedIds; [done|]. split; [by exists c|done].
Qed.

Section Twice.

Variable fault : nat → bool.

Lemma reconcileSlot_named_calls (viewId : nat) (d : SlotDescriptor) :
  is_Some (desc_id d) →
  all_calls (λ c, upsert_call viewId c ∧ ¬ is_slot_write c) (λ _, True)
    (reconcileSlot viewId d).
Proof.
  intros [i Hi].
  assert (∀ j o, all_calls (λ c, upsert_call viewId c ∧ ¬ is_slot_write c) (λ _, True)
                   (unawaited (setOptionsForContentSlot j o))) as Hspawn.
  { intros j o. apply all_calls_unawaited; [done|].
    eapply all_calls_impl; [| |apply setOptionsForContentSlot_calls]; [|done].
    intros c [Hc Hnr]. destruct c; simpl in *; try done.
    all: split; [split; [by eexists|done]|by intros ?]. }
  unfold reconcileSlot. rewrite Hi.
  apply all_calls_bind; [apply all_calls_await; unfold upsert_call; simpl; by split_and!; try intros ?|].
  intros c.
  apply all_calls_bind; [apply all_calls_await; unfold upsert_call; simpl; by split_and!; try intros ?|].
  intros _. apply Hspawn.
Qed.

(** A second reconciliation with descriptors that all carry an identity
    leaves the slot table, the counter and the option table as the first
    left them, and issues no creation and no deletion. *)
Lemma updateContentSlotsForView_again (fault' : nat → bool) (viewId : nat)
    (l : list SlotDescriptor) (w w1 w1' w2 : world) :
  store_wf (st w) → all_named l →
  exec fault (updateContentSlotsForView viewId l) w = (Ok tt, w1) →
  store_wf (st w1') →
  contentSlots (st w1') = contentSlots (st w1) →
  nextContentSlotId (st w1') = nextContentSlotId (st w1) →
  exec fault' (updateContentSlotsForView viewId l) w1' = (Ok tt, w2) →
  contentSlots (st w2) = contentSlots (st w1) ∧
  nextContentSlotId (st w2) = nextContentSlotId (st w1) ∧
  contentSlotOptions (st w2) = contentSlotOptions (st w1') ∧
  ∃ t, trace w2 = trace w1' ++ t ∧ Forall (λ c, ¬ is_slot_write c) t.
Proof.
  intros Hwf Hl Hrun1 Hwf1' Hslots Hnext Hrun2.
  pose proof (updateContentSlotsForView_ok fault viewId l w w1 Hwf Hrun1)
    as (Hs1 & _ & _ & Hwf1).
  pose proof (updateContentSlotsForView_ok fault' viewId l w1' w2 Hwf1' Hrun2)
    as (Hs2 & Ho2 & _ & _).
  assert (removedIds (slotsOfView (st w1') viewId) l = []) as Hnone.
  { apply (removedIds_after viewId l (st w)); [done|done|done|].
    by rewrite Hslots, Hnext. }
  rewrite Hnone in Hs2, Ho2. simpl in Hs2, Ho2.
  rewrite Hslots, Hnext, Hs1, apply_descriptors_twice, <- Hs1 in Hs2 by done.
  injection Hs2 as Hs2 Hn2. split_and!; [done|done|done|].
  destruct (updateContentSlotsForView_trace_with fault'
              (λ c, upsert_call viewId c ∧ ¬ is_slot_write c) viewId l w1' w2)
    as (t & Ht & HP); [|done|].
  { eapply Forall_impl; [exact Hl|]. intros d. apply reconcileSlot_named_calls. }
  rewrite Hnone in Ht. simpl in Ht. eexists. split; [exact Ht|].
  constructor; [by intros ?|]. eapply Forall_impl; [exact HP|]. by intros c [_ Hc].
Qed.

(** The option-set reconciler on a slot whose persisted map already is the
    desired one: it reads, issues one update per entry, each with the value
    that is persisted already, and reads again; no option map changes. *)
Lemma setOptionsForContentSlot_again (contentSlotId : nat)
    (options : list (string * value)) (w w' : world) (m : gmap string value) :
  NoDup options.*1 →
  optionsOf (st w) contentSlotId = list_to_map options →
  exec fault (setOptionsForContentSlot contentSlotId options) w = (Ok m, w') →
  m = list_to_map options ∧
  (∀ j, optionsOf (st w') j = optionsOf (st w) j) ∧
  ∃ t, trace w' =
         trace w ++ contentSlotOptionRepository_getOptionsForContentSlot contentSlotId ::
                    t ++ [contentSlotOptionRepository_getOptionsForContentSlot contentSlotId] ∧
       Forall (λ c, ∃ k v, c = contentSlotOptionRepository_updateOption contentSlotId k v ∧
                           optionsOf (st w) contentSlotId !! k = Some v) t.
Proof.
  intros Hnd Hsame. unfold setOptionsForContentSlot. rewrite exec_bind.
  await_case as existing w0 Hget; [done|].
  destruct Hget as [Hrepo Hw0]. injection Hrepo as <- Hst0.
  rewrite exec_bind.
  destruct (exec fault (for_of (keys _) _) w0) as [[[]|e] w1] eqn:Hdel; [|done].
  assert (w1 = w0) as ->.
  { apply (exec_for_of_inv fault
             (λ l w2, (∀ y, y ∈ l → y ∈ options.*1) ∧ w2 = w0) _ _ w0 w1) in Hdel;
      [by destruct Hdel| |].
    - split; [|done]. intros y [v Hv]%elem_of_keys. rewrite Hsame in Hv.
      apply elem_of_list_to_map_2 in Hv. apply list_elem_of_fmap. by exists (y, v).
    - intros x l' w2 w3 [Hin ->] Hbody. split; [intros y Hy; apply Hin; by right|].
      assert (hasOwnProperty options x = true) as Hown.
      { apply hasOwnProperty_spec, Hin. left. }
      rewrite Hown in Hbody. by injection Hbody. }
  rewrite exec_bind.
  destruct (exec fault (for_of options _) w0) as [[[]|e] w2] eqn:Hput; [|done].
  apply (exec_for_of_inv fault
           (λ l w3,
              (∀ k v, (k, v) ∈ l → optionsOf (st w) contentSlotId !! k = Some v) ∧
              (∀ j, optionsOf (st w3) j = optionsOf (st w) j) ∧
              ∃ t, trace w3 = trace w0 ++ t ∧
                   Forall (λ c, ∃ k v,
                             c = contentSlotOptionRepository_updateOption contentSlotId k v ∧
                             optionsOf (st w) contentSlotId !! k = Some v) t)
           _ _ w0 w2) in Hput.
  - destruct Hput as (_ & Hopts & t & Ht & HP).
    intros Hlast. await_inv Hlast as [Hrepo Hw']. simpl in Hrepo.
    injection Hrepo as <- Hst'. split_and!.
    + by rewrite Hopts.
    + intros j. by rewrite <- Hst'.
    + exists t. split; [|done]. rewrite Hw'. simpl. rewrite Ht, Hw0. simpl.
      by rewrite <- !app_assoc.
  - split_and!.
    + intros k v Hkv. rewrite Hsame. by apply elem_of_list_to_map_1.
    + intros j. by rewrite <- Hst0.
    + exists []. by rewrite app_nil_r.
  - intros [k v] l' w3 w4 (Hval & Hopts & t & Ht & HP) Hbody.
    assert (optionsOf (st w) contentSlotId !! k = Some v) as Hkv by (apply Hval; left).
    assert (has (optionsOf (st w) contentSlotId) k = true) as Hhas
      by (apply has_spec; by eexists).
    rewrite Hhas in Hbody. await_inv Hbody as [Hrepo Hw4]. simpl in Hrepo.
    rewrite Hopts, Hkv in Hrepo. injection Hrepo as Hst4.
    split_and!.
    + intros k' v' Hin. apply Hval. by right.
    + intros j. rewrite <- Hst4, optionsOf_write. case_decide as Hj; [|done].
      subst j. by rewrite insert_id.
    + exists (t ++ [contentSlotOptionRepository_updateOption contentSlotId k v]).
      rewrite Hw4. simpl. rewrite Ht, app_assoc. split; [done|].
      apply Forall_app. split; [done|]. constructor; [|done]. by exists k, v.
Qed.

End Twice.

Section TwiceSucceeds.

Variable fault : nat → bool.

Lemma exec_for_of_total_inv {X : Type} (I : world → Prop) (l : list X)
    (body : X → prog unit) :
  (∀ x, x ∈ l → ∀ w, I w → ∃ w', exec fault (body x) w = (Ok tt, w') ∧ I w') →
  ∀ w, I w → ∃ w', exec fault (for_of l body) w = (Ok tt, w') ∧ I w'.
Proof.
  induction l as [|x l IH]; intros Hbody w HI; simpl; [by eexists|].
  rewrite exec_bind.
  destruct (Hbody x (list_elem_of_here _ _) w HI) as (w1 & -> & HI1).
  apply IH; [|done]. intros y Hy. apply Hbody. by right.
Qed.

(** Without a storage failure, the second reconciliation with descriptors
    that all carry an identity completes. *)
Lemma updateContentSlotsForView_again_succeeds (fault' : nat → bool) (viewId : nat)
    (l : list SlotDescriptor) (w w1 w1' : world) :
  store_wf (st w) → all_named l →
  exec fault' (updateContentSlotsForView viewId l) w = (Ok tt, w1) →
  store_wf (st w1') →
  contentSlots (st w1') = contentSlots (st w1) →
  nextContentSlotId (st w1') = nextContentSlotId (st w1) →
  (∀ n, fault n = false) →
  ∃ w2, exec fault (updateContentSlotsForView viewId l) w1' = (Ok tt, w2).
Proof.
  intros Hwf Hl Hrun1 Hwf1' Hslots Hnext Hnf.
  pose proof (updateContentSlotsForView_ok fault' viewId l w w1 Hwf Hrun1)
    as (Hs1 & _ & _ & Hwf1).
  assert (removedIds (slotsOfView (st w1') viewId) l = []) as Hnone.
  { apply (removedIds_after viewId l (st w)); [done|done|done|].
    by rewrite Hslots, Hnext. }
  assert (∀ i, Some i ∈ desc_id <$> l → is_Some (contentSlots (st w1') !! i)) as Hdom.
  { intros i Hi. rewrite Hslots. apply (f_equal fst) in Hs1. simpl in Hs1. rewrite Hs1.
    destruct (apply_descriptors_owned viewId l
                (delete_all (removedIds (slotsOfView (st w) viewId) l) (contentSlots (st w)))
                (nextContentSlotId (st w)) i) as (c & -> & _); [by left|by eexists]. }
  unfold updateContentSlotsForView. rewrite exec_bind. await_run Hnf.
  rewrite Hnone, exec_rethrow. simpl for_of at 1. cbn [bind].
  destruct (exec_for_of_total_inv
              (λ w2, store_wf (st w2) ∧
                     ∀ i, Some i ∈ desc_id <$> l → is_Some (contentSlots (st w2) !! i))
              l (reconcileSlot viewId)) with
    (w := observe (contentSlotRepository_getContentSlotsByViewId viewId)
            (tick (contentSlotRepository_getContentSlotsByViewId viewId) (st w1') w1'))
    as (w2 & Hrun2 & _); [|done|by eexists].
  intros d Hd w2 [Hwf2 Hdom2].
  destruct (proj1 (Forall_forall _ _) Hl d Hd) as [i Hi].
  destruct (Hdom2 i) as [c Hc]; [apply list_elem_of_fmap; by exists d|].
  destruct (wf_contentSlots _ Hwf2 _ _ Hc) as [Hci _].
  unfold reconcileSlot. rewrite Hi, exec_bind.
  rewrite (exec_await_no_fault fault (contentSlotRepository_getContentSlot i) w2 c (st w2))
    by (done || by simpl; rewrite Hc).
  rewrite exec_bind, Hci.
  set (w3 := observe _ _).
  set (c' := mkContentSlot i (desc_componentType d) viewId (desc_columnStart d)
               (desc_rowStart d) (desc_columnEnd d) (desc_rowEnd d)).
  rewrite (exec_await_no_fault fault
             (contentSlotRepository_updateContentSlot i (desc_componentType d) viewId
                (desc_columnStart d) (desc_rowStart d) (desc_columnEnd d) (desc_rowEnd d))
             w3 (Some i)
             (with_contentSlots (<[i := c']> (contentSlots (st w2)))
                (nextContentSlotId (st w2)) (st w2)))
    by (done || by simpl; rewrite Hc).
  eexists. split; [reflexivity|]. simpl. split.
  - split; simpl; try apply Hwf2. intros j x. rewrite lookup_insert.
    case_decide as Hj; [|apply Hwf2]. intros [= <-]. subst j. simpl.
    split; [done|]. by apply (wf_contentSlots _ Hwf2 _ _ Hc).
  - intros j Hj. rewrite lookup_insert. case_decide; [by eexists|by apply Hdom2].
Qed.

End TwiceSucceeds.

(** C3, as stated, fails for descriptors without an identity: the second
    call takes the slot that the first call created for such a descriptor
    for a slot to remove, deletes it and creates another one. *)
Lemma second_reconciliation_recreates_new_slots :
  let first := exec no_fault (updateContentSlotsForView 1 [weather_descriptor])
                    (world_of empty_store) in
  let second := exec no_fault (updateContentSlotsForView 1 [weather_descriptor]) first.2 in
  first.1 = Ok tt ∧ second.1 = Ok tt ∧
  trace second.2 =
    trace first.2 ++
    [contentSlotRepository_getContentSlotsByViewId 1;
     contentSlotOptionRepository_deleteOptionsForContentSlot 1;
     contentSlotRepository_deleteContentSlot 1;
     contentSlotRepository_createContentSlot "weather" 1 3 1 4 2] ∧
  contentSlots (st first.2) = {[1 := mkContentSlot 1 "weather" 1 3 1 4 2]} ∧
  contentSlots (st second.2) = {[2 := mkContentSlot 2 "weather" 1 3 1 4 2]}.
Proof. vm_compute. by split_and!. Qed.

(** C3, amended.  When every descriptor carries an identity, a second
    [updateContentSlotsForView] with the same list, run on the slot table
    that the first one left, completes unless the storage fails, leaves the
    slot table, the identity counter and the option table unchanged and
    issues no creation and no deletion.  A second [setOptionsForContentSlot]
    with the same object, run on the option map that the first one left,
    completes unless the storage fails, returns the same map, changes no
    option map and issues, between its two reads, only updates that write
    the value already persisted. *)
Theorem reconciling_twice (fault fault' : nat → bool) :
  (∀ viewId l w w1 w1',
     store_wf (st w) → all_named l →
     exec fault (updateContentSlotsForView viewId l) w = (Ok tt, w1) →
     store_wf (st w1') →
     contentSlots (st w1') = contentSlots (st w1) →
     nextContentSlotId (st w1') = nextContentSlotId (st w1) →
     ((∀ n, fault' n = false) →
      ∃ w2, exec fault' (updateContentSlotsForView viewId l) w1' = (Ok tt, w2)) ∧
     ∀ w2,
       exec fault' (updateContentSlotsForView viewId l) w1' = (Ok tt, w2) →
       contentSlots (st w2) = contentSlots (st w1) ∧
       nextContentSlotId (st w2) = nextContentSlotId (st w1) ∧
       contentSlotOptions (st w2) = contentSlotOptions (st w1') ∧
       ∃ t, trace w2 = trace w1' ++ t ∧ Forall (λ c, ¬ is_slot_write c) t) ∧
  (∀ contentSlotId options w m1 w1 w1',
     NoDup options.*1 →
     exec fault (setOptionsForContentSlot contentSlotId options) w = (Ok m1, w1) →
     optionsOf (st w1') contentSlotId = optionsOf (st w1) contentSlotId →
     ((∀ n, fault' n = false) →
      ∃ m2 w2,
        exec fault' (setOptionsForContentSlot contentSlotId options) w1' = (Ok m2, w2)) ∧
     ∀ m2 w2,
       exec fault' (setOptionsForContentSlot contentSlotId options) w1' = (Ok m2, w2) →
       m2 = m1 ∧
       (∀ j, optionsOf (st w2) j = optionsOf (st w1') j) ∧
       ∃ t, trace w2 =
              trace w1' ++
              contentSlotOptionRepository_getOptionsForContentSlot contentSlotId ::
              t ++ [contentSlotOptionRepository_getOptionsForContentSlot contentSlotId] ∧
            Forall (λ c, ∃ k v,
                      c = contentSlotOptionRepository_updateOption contentSlotId k v ∧
                      optionsOf (st w1') contentSlotId !! k = Some v) t).
Proof.
  split.
  - intros viewId l w w1 w1' Hwf Hl Hrun1 Hwf1' Hslots Hnext. split.
    + intros Hnf.
      by apply (updateContentSlotsForView_again_succeeds fault' fault viewId l w w1 w1').
    + intros w2 Hrun2.
      by apply (updateContentSlotsForView_again fault fault' viewId l w w1 w1' w2).
  - intros contentSlotId options w m1 w1 w1' Hnd Hrun1 Hsame. split.
    + intros Hnf. by apply setOptionsForContentSlot_succeeds.
    + intros m2 w2 Hrun2.
      destruct (setOptionsForContentSlot_ok fault _ _ _ _ _ Hnd Hrun1) as [Hmap ->].
      rewrite Hmap in Hsame.
      destruct (setOptionsForContentSlot_again fault' _ _ _ _ _ Hnd Hsame Hrun2)
        as (-> & Hopts & Htrace).
      by rewrite Hmap.
Qed.

Lemma reconciling_twice_witness :
  let l := [recoloured_descriptor] in
  let first := exec no_fault (updateContentSlotsForView 1 l) (world_of sample_store) in
  let second := exec no_fault (updateContentSlotsForView 1 l) first.2 in
  contentSlots (st second.2) = contentSlots (st first.2).
Proof.
  intros l first second.
  destruct (reconciling_twice no_fault no_fault) as [H _].
  assert (store_wf (st first.2)) as Hwf1.
  { apply (exec_wf no_fault). apply sample_store_wf. }
  assert (all_named l) as Hl by (constructor; [by eexists|constructor]).
  destruct (H 1 l (world_of sample_store) first.2 first.2
              sample_store_wf Hl eq_refl Hwf1 eq_refl eq_refl) as [_ H2].
  destruct (H2 second.2 eq_refl) as (Hs & _).
  exact Hs.
Defined.

(** ** The socket controller *)

Lemma onConnected_state (findDisplay : option string → error + option Display)
    (socket : Socket) (this : SocketController) :
  let run := onConnected findDisplay socket this in
  let displayId := query_displayId socket in
  match findDisplay displayId with
  | inl e =>
      run.1 = Err e ∧ sockets run.2 = sockets this ∧
      pendingDisplayIds run.2 = pendingDisplayIds this
  | inr display =>
      run.1 = Ok tt ∧ sockets run.2 = <[displayId := socket]> (sockets this) ∧
      pendingDisplayIds run.2 =
        if not_active display then {[displayId]} ∪ pendingDisplayIds this
        else pendingDisplayIds this
  end.
Proof.
  unfold onConnected. simpl.
  destruct (findDisplay _) as [e|display]; simpl; [done|].
  by destruct (not_active display).
Qed.

(** X1. Whatever sockets connect and disconnect, in whatever order and
    whatever the display lookups answer, every display identifier that the
    controller holds as pending has a socket registered under it. *)
Theorem pending_displays_have_sockets (events : list SocketEvent) :
  let this := foldl handle newSocketController events in
  pendingDisplayIds this ⊆ dom (sockets this).
Proof.
  simpl. induction events as [|ev events IH] using rev_ind; [set_solver|].
  rewrite foldl_app. simpl.
  set (this := foldl handle newSocketController events) in *.
  destruct ev as [findDisplay socket|socket reason]; simpl.
  - pose proof (onConnected_state findDisplay socket this) as H. simpl in H.
    destruct (findDisplay _) as [e|display].
    + destruct H as (_ & -> & ->). done.
    + destruct H as (_ & -> & ->). rewrite dom_insert_L.
      destruct (not_active display); set_solver.
  - rewrite dom_delete_L. set_solver.
Qed.

(** X2. After [onDisconnect] the display identifier of the socket is
    neither registered nor pending, whichever socket was registered under
    it; every other identifier is as before. *)
Theorem onDisconnect_forgets (socket : Socket) (reason : string) (this : SocketController) :
  let this' := onDisconnect socket reason this in
  let displayId := query_displayId socket in
  sockets this' !! displayId = None ∧
  isDisplayPending displayId this' = false ∧
  ∀ d, d ≠ displayId →
       sockets this' !! d = sockets this !! d ∧
       isDisplayPending d this' = isDisplayPending d this.
Proof.
  simpl. split_and!.
  - by rewrite lookup_delete_eq.
  - unfold isDisplayPending. apply bool_decide_eq_false. simpl. set_solver.
  - intros d Hd. split; [by rewrite lookup_delete_ne|].
    unfold isDisplayPending. apply bool_decide_ext. simpl. set_solver.
Qed.

Lemma onDisconnect_forgets_witness :
  let this := (onConnected finds_nothing sample_socket newSocketController).2 in
  sockets (onDisconnect sample_socket "closed" this) !! None = sockets this !! None.
Proof.
  intros this.
  exact (proj1 (proj2 (proj2 (onDisconnect_forgets sample_socket "closed" this)) None
                  ltac:(done))).
Defined.

(** X3. A socket that disconnects late takes the registration of a newer
    socket of the same display with it: [onDisconnect] removes the entry of
    the display identifier without looking at which socket it holds. *)
Theorem late_disconnect_unregisters_newer_socket
    (findDisplay : option string → error + option Display)
    (old new : Socket) (reason : string) (this : SocketController) :
  query_displayId old = query_displayId new →
  (onConnected findDisplay new this).1 = Ok tt →
  let connected := (onConnected findDisplay new this).2 in
  sockets connected !! query_displayId new = Some new ∧
  sockets (onDisconnect old reason connected) !! query_displayId new = None.
Proof.
  intros Hid Hok. pose proof (onConnected_state findDisplay new this) as H. simpl in H.
  destruct (findDisplay _) as [e|display].
  { destruct H as (He & _). by rewrite He in Hok. }
  destruct H as (_ & Hs & _). simpl. split.
  - by rewrite Hs, lookup_insert_eq.
  - unfold onDisconnect. simpl. by rewrite Hid, lookup_delete_eq.
Qed.

Lemma late_disconnect_unregisters_newer_socket_witness :
  sockets (onDisconnect sample_socket "timeout"
             (onConnected finds_sample second_socket
                (onConnected finds_sample sample_socket newSocketController).2).2)
    !! Some "7" = None.
Proof.
  exact (proj2 (late_disconnect_unregisters_newer_socket finds_sample sample_socket
                  second_socket "timeout" _ eq_refl eq_refl)).
Defined.

Lemma sent_to_app (socketId : string) (l1 l2 : list SocketEffect) :
  sent_to socketId (l1 ++ l2) = sent_to socketId l1 ++ sent_to socketId l2.
Proof. unfold sent_to. by rewrite omap_app. Qed.

(** X4. What a connection does.  When the display lookup resolves, the
    socket is registered under its display identifier whether or not the
    display is active, and it is sent exactly one message: [auth_error]
    when there is no such display or it is not active, [auth_success]
    otherwise.  A display identifier becomes pending in the first case and
    is never taken off the pending set by a connection, not even by one of
    an active display.  When the lookup rejects, nothing is registered and
    nothing is sent. *)
Theorem onConnected_outcome (findDisplay : option string → error + option Display)
    (socket : Socket) (this : SocketController) :
  let run := onConnected findDisplay socket this in
  let displayId := query_displayId socket in
  let sent := sent_to (socket_id socket) in
  match findDisplay displayId with
  | inl e =>
      run.1 = Err e ∧ sockets run.2 = sockets this ∧
      (∀ d, isDisplayPending d run.2 = isDisplayPending d this) ∧
      sent (effects run.2) = sent (effects this)
  | inr display =>
      run.1 = Ok tt ∧
      sockets run.2 = <[displayId := socket]> (sockets this) ∧
      (∀ d, isDisplayPending d run.2 =
            isDisplayPending d this || (not_active display && bool_decide (d = displayId))) ∧
      sent (effects run.2) =
        sent (effects this) ++
        [if not_active display then auth_error "Display not active" else auth_success]
  end.
Proof.
  unfold onConnected. simpl.
  destruct (findDisplay _) as [e|display]; simpl.
  { split_and!; try done. rewrite !sent_to_app. simpl. by rewrite !app_nil_r. }
  destruct (not_active display); simpl; split_and!; try done.
  - intros d. unfold isDisplayPending. simpl.
    destruct (decide (d = query_displayId socket)) as [->|Hd].
    + rewrite bool_decide_eq_true_2 by set_solver.
      by rewrite (bool_decide_eq_true_2 (_ = _)), orb_true_r.
    + rewrite (bool_decide_eq_false_2 (d = _)) by done. rewrite orb_false_r.
      apply bool_decide_ext. set_solver.
  - rewrite !sent_to_app. simpl. rewrite decide_True by done. by rewrite !app_nil_r.
  - intros d. by rewrite orb_false_r.
  - rewrite !sent_to_app. simpl. rewrite decide_True by done. by rewrite !app_nil_r.
Qed.



(** X6. Connecting and then disconnecting a socket leaves both collections
    as they were, provided the display identifier was neither registered
    nor pending before. *)
Theorem connect_then_disconnect_restores
    (findDisplay : option string → error + option Display)
    (socket : Socket) (reason : string) (this : SocketController) :
  sockets this !! query_displayId socket = None →
  query_displayId socket ∉ pendingDisplayIds this →
  let this' := onDisconnect socket reason (onConnected findDisplay socket this).2 in
  sockets this' = sockets this ∧ pendingDisplayIds this' = pendingDisplayIds this.
Proof.
  intros Hs Hp. pose proof (onConnected_state findDisplay socket this) as H. simpl in H.
  unfold onDisconnect. simpl.
  destruct (findDisplay _) as [e|display].
  - destruct H as (_ & -> & ->). split; [by rewrite delete_id|set_solver].
  - destruct H as (_ & -> & ->). split; [by rewrite delete_insert_id|].
    destruct (not_active display); set_solver.
Qed.

Lemma connect_then_disconnect_restores_witness :
  let this' := onDisconnect sample_socket "closed"
                 (onConnected finds_nothing sample_socket newSocketController).2 in
  sockets this' = ∅ ∧ pendingDisplayIds this' = ∅.
Proof.
  exact (connect_then_disconnect_restores finds_nothing sample_socket "closed"
           newSocketController eq_refl ltac:(set_solver)).
Defined.

(** X7. A display identifier that is pending stays pending until a socket
    with that identifier disconnects: later connections do not clear it,
    also when the display has been activated in the meantime and the
    connection is answered with [auth_success]. *)
Theorem pending_until_disconnect (displayId : option string) (events : list SocketEvent)
    (this : SocketController) :
  isDisplayPending displayId this = true →
  Forall (λ ev, ¬ disconnects displayId ev) events →
  isDisplayPending displayId (foldl handle this events) = true.
Proof.
  intros Hp Hev. revert this Hp.
  induction Hev as [|ev events Hev _ IH]; intros this Hp; [done|].
  simpl. apply IH. destruct ev as [findDisplay socket|socket reason]; simpl.
  - pose proof (onConnected_state findDisplay socket this) as H. simpl in H.
    unfold isDisplayPending in *. apply bool_decide_eq_true in Hp.
    apply bool_decide_eq_true.
    destruct (findDisplay _) as [e|display]; destruct H as (_ & _ & ->); [done|].
    destruct (not_active display); set_solver.
  - simpl in Hev. unfold isDisplayPending in *. simpl.
    apply bool_decide_eq_true in Hp. apply bool_decide_eq_true. set_solver.
Qed.

Lemma pending_until_disconnect_witness :
  isDisplayPending (Some "7")
    (foldl handle (onConnected finds_nothing sample_socket newSocketController).2
       [connection finds_sample second_socket]) = true.
Proof.
  apply (pending_until_disconnect (Some "7") [connection finds_sample second_socket]).
  - reflexivity.
  - repeat constructor. simpl. by intros ?.
Defined.

(** ** Reading a view *)

Lemma assign_entries (l : list (string * value)) (acc : gmap string value) (k : string) :
  NoDup l.*1 →
  foldl (λ options entry, assign options entry.1 entry.2) acc l !! k =
  if decide (k = "__proto__") then acc !! k
  else match list_to_map (M := gmap string value) l !! k with
       | Some v => Some v
       | None => acc !! k
       end.
Proof.
  revert acc. induction l as [|[key v] l IH]; intros acc Hnd.
  { simpl. by case_decide. }
  rewrite fmap_cons in Hnd. apply NoDup_cons in Hnd as [Hout Hnd]. simpl in Hout.
  cbn [foldl]. rewrite IH by done. rewrite list_to_map_cons. cbn [fst snd].
  case_decide as Hk.
  - unfold assign. case_decide; [done|]. subst k. by rewrite lookup_insert_ne.
  - destruct (decide (key = k)) as [->|Hne].
    + rewrite lookup_insert_eq, (not_elem_of_list_to_map_1 _ k Hout).
      unfold assign. rewrite decide_False by done. by rewrite lookup_insert_eq.
    + rewrite lookup_insert_ne by done.
      destruct (list_to_map l !! k); [done|].
      unfold assign. case_decide; [done|]. by rewrite lookup_insert_ne.
Qed.

(** The copy into a regular object keeps every option but [__proto__]. *)
Lemma toObject_spec (allOptions : gmap string value) :
  toObject allOptions = delete "__proto__" allOptions.
Proof.
  apply map_eq. intros k. unfold toObject.
  rewrite assign_entries by apply NoDup_fst_map_to_list.
  rewrite list_to_map_to_list. case_decide as Hk.
  - subst k. by rewrite lookup_delete_eq.
  - rewrite lookup_delete_ne by done. by destruct (allOptions !! k).
Qed.

Section ReadingViews.

Variable fault : nat → bool.

Lemma exec_enrich_loop (l : list ContentSlot) (w : world) :
  let run := exec fault
    (for_push (Y := EnrichedContentSlot) l (λ contentSlot,
       allOptions ← await (contentSlotOptionRepository_getOptionsForContentSlot
                             (slot_id contentSlot));
       Ret (contentSlot, toObject allOptions))) w in
  st run.2 = st w ∧
  (∀ r, run.1 = Ok r →
        r = (λ c, (c, delete "__proto__" (optionsOf (st w) (slot_id c)))) <$> l ∧
        trace run.2 =
          trace w ++ ((λ c, contentSlotOptionRepository_getOptionsForContentSlot (slot_id c))
                        <$> l)) ∧
  ((∀ n, fault n = false) → ∃ r, run.1 = Ok r).
Proof.
  revert w. induction l as [|c l IH]; intros w; cbn zeta.
  { simpl. split_and!; [done| |by eexists]. intros r [= <-]. by rewrite app_nil_r. }
  cbn [for_push]. rewrite exec_bind, exec_bind.
  await_unfold. unfold perform. simpl.
  destruct (fault (clock w)) eqn:Hfault; simpl.
  { split_and!; [done|done|]. intros Hf. by rewrite Hf in Hfault. }
  rewrite exec_bind.
  set (w1 := tick _ (st w) w).
  destruct (IH w1) as (Hst & Hok & Htotal). clear IH.
  destruct (exec fault (for_push l _) w1) as [[r|e] w2]; simpl in *.
  - split_and!; [done| |by eexists].
    intros ? [= <-]. destruct (Hok r eq_refl) as [-> ->].
    split; [by rewrite toObject_spec|]. by rewrite <-app_assoc.
  - split_and!; [done|done|]. intros Hf. destruct (Htotal Hf) as [? [=]].
Qed.

Lemma exec_getContentSlotsForView (viewId : nat) (w : world) :
  let run := exec fault (getContentSlotsForView viewId) w in
  (∀ r, run.1 = Ok r →
        r = enriched (st w) viewId ∧
        trace run.2 = trace w ++ enrich_calls (st w) viewId) ∧
  ((∀ n, fault n = false) → run.1 = Ok (enriched (st w) viewId)).
Proof.
  cbn zeta. unfold getContentSlotsForView. rewrite exec_bind. await_unfold.
  unfold perform. simpl.
  destruct (fault (clock w)) eqn:Hfault; simpl.
  { split; [done|]. intros Hf. by rewrite Hf in Hfault. }
  set (w1 := tick _ (st w) w).
  destruct (exec_enrich_loop (slotsOfView (st w) viewId) w1) as (_ & Hok & Htotal).
  destruct (exec fault (for_push _ _) w1) as [[r0|e] w2]; simpl in *.
  - destruct (Hok r0 eq_refl) as [-> ->]. split; [|done].
    intros r [= <-]. split; [done|]. unfold enrich_calls. simpl. by rewrite <-app_assoc.
  - split; [done|]. intros Hf. by destruct (Htotal Hf) as [? [=]].
Qed.

(** X8. [getContentSlotsForView] resolves to the content slots persisted
    for the view, each with an options object that holds the options
    persisted for it, except that an option named [__proto__] is missing
    from the object: the copy of the repository's Map into a regular object
    drops it.  The method issues one read for the content slots and then
    one option read per content slot, writes nothing, and rejects only when
    one of these reads fails. *)
Theorem getContentSlotsForView_result (viewId : nat) (w : world) :
  let run := exec fault (getContentSlotsForView viewId) w in
  st run.2 = st w ∧ emitted run.2 = emitted w ∧ pending run.2 = pending w ∧
  (∀ r, run.1 = Ok r →
        r = enriched (st w) viewId ∧
        r.*1 = slotsOfView (st w) viewId ∧
        (∀ c o key, (c, o) ∈ r →
           o !! key = if decide (key = "__proto__") then None
                      else optionsOf (st w) (slot_id c) !! key) ∧
        trace run.2 = trace w ++ enrich_calls (st w) viewId) ∧
  ((∀ n, fault n = false) → run.1 = Ok (enriched (st w) viewId)).
Proof.
  cbn zeta.
  pose proof (exec_reads fault (getContentSlotsForView viewId) w
                (getContentSlotsForView_reads viewId)) as (Hst & Hem & _ & Hpe & _).
  destruct (exec_getContentSlotsForView viewId w) as [Hok Htotal].
  split_and!; [done..| |done].
  intros r Hr. destruct (Hok r Hr) as [-> Htrace]. split_and!; [done| | |done].
  - unfold enriched. rewrite <-list_fmap_compose. apply list_fmap_id.
  - intros c o key (c' & [= <- ->] & _)%list_elem_of_fmap.
    case_decide as Hk; [subst key; by rewrite lookup_delete_eq|by rewrite lookup_delete_ne].
Qed.

Lemma getView_ok_slots (viewId : nat) (w w' : world) (r : View * list EnrichedContentSlot) :
  exec fault (getView viewId) w = (Ok r, w') → r.2 = enriched (st w) viewId.
Proof.
  unfold getView. rewrite exec_bind.
  await_case as view w1 Hget; [done|]. destruct Hget as [Hrepo ->]. rewrite exec_bind.
  match goal with |- context [exec fault (getContentSlotsForView viewId) ?w0] =>
    destruct (exec_getContentSlotsForView viewId w0) as (Hok & _);
    destruct (exec fault (getContentSlotsForView viewId) w0) as [[r0|e] w2]; [|done]
  end.
  simpl in *. intros [= <- <-]. simpl. destruct (Hok r0 eq_refl) as [-> _].
  destruct (views (st w) !! viewId); [|done]. by injection Hrepo as _ <-.
Qed.

(** X9. [getView] resolves to the persisted view with its content slots
    and their options objects (the persisted options except one named
    [__proto__]), and writes nothing.  Without a failing read it resolves
    whenever the view is persisted and rejects with the repository's
    rejection when it is not. *)
Theorem getView_result (viewId : nat) (w : world) :
  let run := exec fault (getView viewId) w in
  st run.2 = st w ∧ emitted run.2 = emitted w ∧ pending run.2 = pending w ∧
  (∀ r, run.1 = Ok r →
        views (st w) !! viewId = Some r.1 ∧ r.2 = enriched (st w) viewId) ∧
  ((∀ n, fault n = false) →
   run.1 = match views (st w) !! viewId with
           | Some view => Ok (view, enriched (st w) viewId)
           | None => Err NotFound
           end).
Proof.
  cbn zeta.
  pose proof (exec_reads fault (getView viewId) w (getView_reads viewId))
    as (Hst & Hem & _ & Hpe & _).
  split_and!; [done..| |].
  - intros r Hrun.
    assert (exec fault (getView viewId) w = (Ok r, (exec fault (getView viewId) w).2)) as Hrun'
      by (by rewrite (surjective_pairing (exec fault (getView viewId) w)), Hrun).
    split; [by apply (getView_ok fault viewId w _ r Hrun')|].
    by apply (getView_ok_slots viewId w _ r Hrun').
  - intros Hf. unfold getView. rewrite exec_bind. await_unfold. unfold perform.
    rewrite Hf. cbn [andb repo]. destruct (views (st w) !! viewId) as [view|]; [|done].
    cbn [observe]. rewrite exec_bind.
    match goal with |- context [exec fault (getContentSlotsForView viewId) ?w0] =>
      destruct (exec_getContentSlotsForView viewId w0) as (_ & Htotal);
      rewrite (surjective_pairing (exec fault (getContentSlotsForView viewId) w0))
    end.
    by rewrite (Htotal Hf).
Qed.

End ReadingViews.

Lemma getContentSlotsForView_result_witness :
  (exec no_fault (getContentSlotsForView 1) (world_of proto_store)).1 =
    Ok [(sample_slot, {["color" := VString "red"]})].
Proof.
  exact (proj2 (proj2 (proj2 (proj2
           (getContentSlotsForView_result no_fault 1 (world_of proto_store))))) (λ _, eq_refl)).
Defined.

Lemma getView_result_witness :
  (exec no_fault (getView 1) (world_of proto_store)).1 =
    Ok (sample_view, [(sample_slot, {["color" := VString "red"]})]) ∧
  (exec no_fault (getView 9) (world_of proto_store)).1 = Err NotFound.
Proof.
  split.
  - exact (proj2 (proj2 (proj2 (proj2 (getView_result no_fault 1 (world_of proto_store)))))
             (λ _, eq_refl)).
  - exact (proj2 (proj2 (proj2 (proj2 (getView_result no_fault 9 (world_of proto_store)))))
             (λ _, eq_refl)).
Defined.

(** ** The writes of an option-set reconciliation *)

Section OptionWrites.

Variable fault : nat → bool.

Lemma exec_for_of_trace {X : Type} (l : list X) (body : X → prog unit)
    (calls : X → list call) (w w' : world) :
  (∀ x w1 w2, exec fault (body x) w1 = (Ok tt, w2) → trace w2 = trace w1 ++ calls x) →
  exec fault (for_of l body) w = (Ok tt, w') →
  trace w' = trace w ++ (l ≫= calls).
Proof.
  intros Hbody Hrun.
  enough (trace w' ++ ([] ≫= calls) = trace w ++ (l ≫= calls)) as H
    by (by rewrite <-H; simpl; rewrite app_nil_r).
  apply (exec_for_of_inv fault
           (λ l0 w0, trace w0 ++ (l0 ≫= calls) = trace w ++ (l ≫= calls)) l body w w');
    [done| |done].
  intros x l' w1 w2 HI Hx. rewrite (Hbody _ _ _ Hx), <-HI. csimpl. by rewrite app_assoc.
Qed.

Lemma repo_option_call_frame (contentSlotId : nat) (c : call) (s s' : store) (r : resp c) :
  option_call_on c = Some contentSlotId →
  repo c s = inr (r, s') →
  displays s' = displays s ∧ views s' = views s ∧ contentSlots s' = contentSlots s ∧
  nextDisplayId s' = nextDisplayId s ∧ nextViewId s' = nextViewId s ∧
  nextContentSlotId s' = nextContentSlotId s ∧
  ∀ j, j ≠ contentSlotId → contentSlotOptions s' !! j = contentSlotOptions s !! j.
Proof.
  intros Hc Hrepo. destruct c; try done; simpl in *; injection Hc as ->.
  - by injection Hrepo as _ <-.
  - injection Hrepo as _ <-. simpl. split_and!; try done.
    intros j Hj. by rewrite lookup_delete_ne.
  - injection Hrepo as _ <-. simpl. split_and!; try done.
    intros j Hj. by rewrite lookup_insert_ne.
  - destruct (optionsOf s contentSlotId !! key); injection Hrepo as _ <-; [|done].
    simpl. split_and!; try done. intros j Hj. by rewrite lookup_insert_ne.
  - injection Hrepo as _ <-. simpl. split_and!; try done.
    intros j Hj. by rewrite lookup_insert_ne.
Qed.

Lemma exec_option_calls_frame {A : Type} (contentSlotId : nat) (p : prog A) (w : world) :
  all_calls (λ c, option_call_on c = Some contentSlotId) (λ _, False) p →
  let w' := (exec fault p w).2 in
  (∀ j, j ≠ contentSlotId → contentSlotOptions (st w') !! j = contentSlotOptions (st w) !! j) ∧
  contentSlots (st w') = contentSlots (st w) ∧
  nextContentSlotId (st w') = nextContentSlotId (st w) ∧
  views (st w') = views (st w) ∧
  displays (st w') = displays (st w) ∧
  emitted w' = emitted w ∧ logged w' = logged w ∧
  pending w' = pending w ∧ unhandled w' = unhandled w.
Proof.
  intros Hcalls. cbn zeta.
  assert (all_calls (λ c, option_call_on c = Some contentSlotId) (λ _, True) p) as Hcalls'.
  { eapply all_calls_impl; [| |exact Hcalls]; [done|by intros q []]. }
  pose proof (exec_store_invariant fault (λ c, option_call_on c = Some contentSlotId)
    (λ s, (∀ j, j ≠ contentSlotId → contentSlotOptions s !! j = contentSlotOptions (st w) !! j) ∧
          contentSlots s = contentSlots (st w) ∧
          nextContentSlotId s = nextContentSlotId (st w) ∧
          views s = views (st w) ∧ displays s = displays (st w))) as Hinv.
  destruct Hinv with (p := p) (w := w) as (Ho & Hs & Hn & Hv & Hd); [|done|done|].
  { intros c s r s' Hc Hrepo (Ho & Hs & Hn & Hv & Hd).
    destruct (repo_option_call_frame _ _ _ _ _ Hc Hrepo)
      as (-> & -> & -> & _ & _ & -> & Ho').
    split_and!; try done. intros j Hj. by rewrite Ho', Ho. }
  pose proof (exec_invariant fault (λ c, option_call_on c = Some contentSlotId) (λ _, True)
    (λ w0, emitted w0 = emitted w ∧ logged w0 = logged w)) as Hquiet.
  destruct Hquiet with (p := p) (w := w) as (He & Hl); [| |done|done|].
  { intros c w0 Hc [He Hl].
    assert (¬ is_emit c ∧ ¬ is_log c) as [Hne Hnl]
      by (destruct c; try done; simpl; split; by intros ?).
    destruct (perform_quiet fault c w0 Hne Hnl) as [-> ->]. done. }
  { by intros q w0 _ [He Hl]. }
  destruct (exec_no_spawn fault _ _ w Hcalls) as [Hp Hu].
  by split_and!.
Qed.

(** X10. [setOptionsForContentSlot] touches nothing but the option map of
    its content slot, whether it resolves or rejects: the option maps of
    all other content slots, the content slots, the views and the displays
    stay as they are, nothing is emitted or logged, and no promise is
    started. *)
Theorem setOptionsForContentSlot_frame (contentSlotId : nat)
    (options : list (string * value)) (w : world) :
  let w' := (exec fault (setOptionsForContentSlot contentSlotId options) w).2 in
  (∀ j, j ≠ contentSlotId → contentSlotOptions (st w') !! j = contentSlotOptions (st w) !! j) ∧
  contentSlots (st w') = contentSlots (st w) ∧
  views (st w') = views (st w) ∧
  displays (st w') = displays (st w) ∧
  emitted w' = emitted w ∧ logged w' = logged w ∧ pending w' = pending w.
Proof.
  cbn zeta.
  assert (all_calls (λ c, option_call_on c = Some contentSlotId) (λ _, False)
            (setOptionsForContentSlot contentSlotId options)) as Hcalls.
  { eapply all_calls_impl; [| |apply setOptionsForContentSlot_calls]; [by intros c [? _]|done]. }
  destruct (exec_option_calls_frame contentSlotId _ w Hcalls)
    as (Ho & Hs & _ & Hv & Hd & He & Hl & Hp & _).
  by split_and!.
Qed.

Lemma stale_keys_bind (contentSlotId : nat) (options : list (string * value))
    (l : list string) :
  l ≫= (λ key, if hasOwnProperty options key then []
               else [contentSlotOptionRepository_deleteOption contentSlotId key]) =
  contentSlotOptionRepository_deleteOption contentSlotId <$>
    filter (λ key, key ∉ options.*1) l.
Proof.
  induction l as [|key l IH]; [done|]. csimpl. rewrite IH.
  destruct (hasOwnProperty options key) eqn:Hown.
  - apply hasOwnProperty_spec in Hown. by rewrite filter_cons_False by (by intros ?).
  - assert (key ∉ options.*1) as Hout.
    { intros Hin%hasOwnProperty_spec. by rewrite Hin in Hown. }
    by rewrite filter_cons_True by done.
Qed.

(** X11. The repository calls of a [setOptionsForContentSlot] that
    resolves: one read, one [deleteOption] for every persisted key that the
    desired options do not have, one write for every desired entry (an
    update when its key was persisted at the start, a create otherwise,
    whether or not the value differs), and one final read.  A desired key
    is never deleted and a key that is not persisted is never updated. *)
Theorem setOptionsForContentSlot_writes (contentSlotId : nat)
    (options : list (string * value)) (w w' : world) (m : gmap string value) :
  exec fault (setOptionsForContentSlot contentSlotId options) w = (Ok m, w') →
  let existingOptions := optionsOf (st w) contentSlotId in
  trace w' =
    trace w ++
    contentSlotOptionRepository_getOptionsForContentSlot contentSlotId ::
    (contentSlotOptionRepository_deleteOption contentSlotId
       <$> stale_keys existingOptions options) ++
    (option_write contentSlotId existingOptions <$> options) ++
    [contentSlotOptionRepository_getOptionsForContentSlot contentSlotId].
Proof.
  cbn zeta. unfold setOptionsForContentSlot. rewrite exec_bind.
  await_case as existing w0 Hget; [done|].
  destruct Hget as [Hrepo Hw0]. injection Hrepo as <- Hst0.
  rewrite exec_bind.
  destruct (exec fault (for_of (keys _) _) w0) as [[[]|e] w1] eqn:Hdel; [|done].
  apply (exec_for_of_trace _ _
           (λ key, if hasOwnProperty options key then []
                   else [contentSlotOptionRepository_deleteOption contentSlotId key]))
    in Hdel.
  2:{ intros key w2 w3. destruct (hasOwnProperty options key).
      - intros [= <-]. by rewrite app_nil_r.
      - intros Hrun. await_inv Hrun as [_ ->]. done. }
  rewrite stale_keys_bind in Hdel.
  rewrite exec_bind.
  destruct (exec fault (for_of options _) w1) as [[[]|e] w2] eqn:Hput; [|done].
  apply (exec_for_of_trace _ _
           (λ entry, [option_write contentSlotId (optionsOf (st w) contentSlotId) entry]))
    in Hput.
  2:{ intros [key v] w3 w4. unfold option_write. simpl.
      destruct (has (optionsOf (st w) contentSlotId) key);
        intros Hrun; await_inv Hrun as [_ ->]; done. }
  intros Hlast. await_inv Hlast as [_ ->]. simpl.
  assert (∀ l : list (string * value),
            l ≫= (λ entry, [option_write contentSlotId (optionsOf (st w) contentSlotId) entry])
            = option_write contentSlotId (optionsOf (st w) contentSlotId) <$> l) as Hmap.
  { induction l as [|entry l IH]; [done|]. csimpl. by rewrite IH. }
  rewrite Hput, Hmap, Hdel, Hw0. simpl. unfold stale_keys.
  by rewrite <-!app_assoc.
Qed.

End OptionWrites.

Lemma setOptionsForContentSlot_frame_witness :
  let w := world_of sample_store in
  contentSlotOptions (st (exec no_fault (setOptionsForContentSlot 2 []) w).2) !! 1 =
    contentSlotOptions (st w) !! 1.
Proof.
  intros w.
  exact (proj1 (setOptionsForContentSlot_frame no_fault 2 [] w) 1 ltac:(done)).
Defined.

Lemma setOptionsForContentSlot_writes_witness :
  let w := world_of (with_contentSlotOptions
                       {[3 := {["a" := VString "1"; "b" := VString "2"]}]} empty_store) in
  trace (exec no_fault
           (setOptionsForContentSlot 3 [("b", VString "3"); ("c", VString "4")]) w).2 =
    [contentSlotOptionRepository_getOptionsForContentSlot 3;
     contentSlotOptionRepository_deleteOption 3 "a";
     contentSlotOptionRepository_updateOption 3 "b" (VString "3");
     contentSlotOptionRepository_createOption 3 "c" (VString "4");
     contentSlotOptionRepository_getOptionsForContentSlot 3].
Proof.
  intros w.
  exact (setOptionsForContentSlot_writes no_fault 3 [("b", VString "3"); ("c", VString "4")]
           w _ _ eq_refl).
Defined.

(** ** An empty list of content slots *)

Section EmptyList.

Variable fault : nat → bool.

Lemma removeSlot_succeeds (i : nat) (w : world) :
  (∀ n, fault n = false) → ∃ w', exec fault (removeSlot i) w = (Ok tt, w').
Proof.
  intros Hf. unfold removeSlot. rewrite exec_bind. await_run Hf.
  rewrite exec_bind.
  set (w1 := observe _ _).
  destruct (repo (contentSlotRepository_deleteContentSlot i) (st w1)) as [e|[b s']] eqn:Hrepo.
  { revert Hrepo. simpl. by destruct (_ !! i). }
  rewrite (exec_await_no_fault fault (contentSlotRepository_deleteContentSlot i) w1 b s' Hf Hrepo).
  by eexists.
Qed.

(** X12. Submitting an empty list removes every content slot of the view
    together with its options, leaves the content slots of all other views
    and their options as they are, and starts no promise.  Without a
    failing call it always resolves. *)
Theorem updateContentSlotsForView_empty (viewId : nat) (w : world) :
  store_wf (st w) →
  ((∀ n, fault n = false) →
   ∃ w', exec fault (updateContentSlotsForView viewId []) w = (Ok tt, w')) ∧
  ∀ w', exec fault (updateContentSlotsForView viewId []) w = (Ok tt, w') →
    slotsOfView (st w') viewId = [] ∧
    (∀ c, c ∈ slotsOfView (st w) viewId →
          contentSlots (st w') !! slot_id c = None ∧ optionsOf (st w') (slot_id c) = ∅) ∧
    (∀ i c, contentSlots (st w) !! i = Some c → slot_viewId c ≠ viewId →
            contentSlots (st w') !! i = Some c ∧ optionsOf (st w') i = optionsOf (st w) i) ∧
    pending w' = pending w.
Proof.
  intros Hwf. split.
  { intros Hf. unfold updateContentSlotsForView. rewrite exec_bind. await_run Hf.
    rewrite exec_rethrow, exec_bind.
    set (w1 := observe _ _).
    destruct (exec_for_of_total fault (removedIds (slotsOfView (st w) viewId) []) removeSlot)
      with (w := w1) as [w2 ->]; [intros i w0; by apply removeSlot_succeeds|].
    by eexists. }
  intros w' Hrun.
  destruct (updateContentSlotsForView_ok fault viewId [] w w' Hwf Hrun)
    as (Hs & Ho & Hp & Hwf').
  simpl in Hs, Hp. rewrite app_nil_r in Hp. injection Hs as Hs _.
  set (removed := removedIds (slotsOfView (st w) viewId) []) in *.
  assert (∀ i, i ∈ removed ↔ ∃ c, contentSlots (st w) !! i = Some c ∧ slot_viewId c = viewId)
    as Hremoved.
  { intros i. unfold removed. rewrite (elem_of_removedIds (st w) viewId [] i Hwf).
    simpl. split; [by intros [? _]|]. intros H. split; [done|]. by intros ?%elem_of_nil. }
  split_and!; [| | |done].
  - apply elem_of_nil_inv. intros c [Hv [i Hi]]%elem_of_slotsOfView.
    rewrite Hs, lookup_delete_all in Hi. case_decide as Hin; [done|].
    apply Hin, Hremoved. by exists c.
  - intros c [Hv [i Hi]]%elem_of_slotsOfView.
    destruct (wf_contentSlots _ Hwf _ _ Hi) as [Hid _]. rewrite Hid.
    assert (i ∈ removed) as Hin by (apply Hremoved; by exists c).
    unfold optionsOf. rewrite Hs, Ho, !lookup_delete_all. by rewrite !decide_True.
  - intros i c Hi Hv.
    assert (i ∉ removed) as Hout.
    { intros [c' [Hc' Hv']]%Hremoved. rewrite Hi in Hc'. by injection Hc' as <-. }
    unfold optionsOf. rewrite Hs, Ho, !lookup_delete_all. by rewrite !decide_False.
Qed.

End EmptyList.

Lemma two_view_store_wf : store_wf two_view_store.
Proof.
  split; intros i x; simpl; intros H.
  - apply lookup_singleton_Some in H as [<- <-]. simpl. lia.
  - apply lookup_insert_Some in H as [[<- <-]|[_ H]]; [simpl; lia|].
    apply lookup_singleton_Some in H as [<- <-]. simpl. lia.
  - apply lookup_insert_Some in H as [[<- <-]|[_ H]]; [simpl; lia|].
    apply lookup_singleton_Some in H as [<- <-]. simpl. lia.
Qed.

Lemma updateContentSlotsForView_empty_witness :
  slotsOfView
    (st (exec no_fault (updateContentSlotsForView 1 []) (world_of two_view_store)).2) 1 = [].
Proof.
  exact (proj1 (proj2 (updateContentSlotsForView_empty no_fault 1 (world_of two_view_store)
                         two_view_store_wf) _ eq_refl)).
Defined.

(** ** The option promises, once they have run *)

Lemma option_tasks_targets (next : nat) (l : list SlotDescriptor) :
  option_tasks next l = (λ t, option_task t.1 t.2) <$> zip (targets next l) l.
Proof.
  revert next. induction l as [|d l IH]; intros next; [done|].
  simpl. destruct (desc_id d); simpl; by rewrite IH.
Qed.

Lemma length_targets (next : nat) (l : list SlotDescriptor) :
  length (targets next l) = length l.
Proof.
  revert next. induction l as [|d l IH]; intros next; [done|].
  simpl. destruct (desc_id d); simpl; by rewrite IH.
Qed.

Lemma apply_descriptors_off_target (viewId : nat) (l : list SlotDescriptor)
    (m : gmap nat ContentSlot) (n i : nat) :
  i ∉ targets n l →
  (foldl (apply_descriptor viewId) (m, n) l).1 !! i = m !! i.
Proof.
  revert m n. induction l as [|d l IH]; intros m n Hi; [done|].
  simpl in *. unfold apply_descriptor at 2. destruct (desc_id d) as [id|]; simpl.
  - apply not_elem_of_cons in Hi as [Hne Hi]. rewrite IH by done. by rewrite lookup_insert_ne.
  - apply not_elem_of_cons in Hi as [Hne Hi]. rewrite IH by done. by rewrite lookup_insert_ne.
Qed.

Lemma apply_descriptors_on_target (viewId : nat) (l : list SlotDescriptor)
    (m : gmap nat ContentSlot) (n k i : nat) (d : SlotDescriptor) :
  NoDup (targets n l) →
  l !! k = Some d → targets n l !! k = Some i →
  (foldl (apply_descriptor viewId) (m, n) l).1 !! i = Some (slot_record viewId i d).
Proof.
  revert m n k. induction l as [|d0 l IH]; intros m n k Hnd Hd Hi; [done|].
  simpl in *. unfold apply_descriptor at 2.
  destruct (desc_id d0) as [id|]; simpl in *; apply NoDup_cons in Hnd as [Hout Hnd].
  - destruct k as [|k]; simpl in *.
    + injection Hd as ->. injection Hi as ->.
      rewrite apply_descriptors_off_target by done. by rewrite lookup_insert_eq.
    + by apply (IH _ _ k).
  - destruct k as [|k]; simpl in *.
    + injection Hd as ->. injection Hi as ->.
      rewrite apply_descriptors_off_target by done. by rewrite lookup_insert_eq.
    + by apply (IH _ _ k).
Qed.

Section Settling.

Variable fault : nat → bool.
Hypothesis no_failure : ∀ n, fault n = false.

Lemma exec_option_task (i : nat) (d : SlotDescriptor) (w : world) :
  NoDup (default [] (desc_options d)).*1 →
  ∃ w', exec fault (option_task i d) w = (Ok tt, w') ∧
        optionsOf (st w') i = list_to_map (default [] (desc_options d)) ∧
        (∀ j, j ≠ i → contentSlotOptions (st w') !! j = contentSlotOptions (st w) !! j) ∧
        contentSlots (st w') = contentSlots (st w) ∧
        views (st w') = views (st w) ∧ displays (st w') = displays (st w) ∧
        emitted w' = emitted w ∧ pending w' = pending w ∧ unhandled w' = unhandled w.
Proof using no_failure.
  intros Hnd. unfold option_task. rewrite exec_bind.
  destruct (setOptionsForContentSlot_succeeds fault i (default [] (desc_options d)) w
              no_failure) as (m & w' & Hrun).
  assert (all_calls (λ c, option_call_on c = Some i) (λ _, False)
            (setOptionsForContentSlot i (default [] (desc_options d)))) as Hcalls.
  { eapply all_calls_impl; [| |apply setOptionsForContentSlot_calls]; [by intros c [? _]|done]. }
  pose proof (exec_option_calls_frame fault i _ w Hcalls) as Hframe.
  rewrite Hrun in *. simpl in Hframe.
  destruct Hframe as (Ho & Hs & _ & Hv & Hd & He & _ & Hp & Hu).
  destruct (setOptionsForContentSlot_ok fault i _ w w' m Hnd Hrun) as [Hopts _].
  exists w'. by split_and!.
Qed.

Lemma settle_option_tasks (tasks : list (nat * SlotDescriptor)) (w : world) :
  pending w = (λ t, option_task t.1 t.2) <$> tasks →
  NoDup tasks.*1 →
  Forall (λ t, NoDup (default [] (desc_options t.2)).*1) tasks →
  let later := settle fault (length tasks) w in
  pending later = [] ∧ unhandled later = unhandled w ∧
  contentSlots (st later) = contentSlots (st w) ∧
  views (st later) = views (st w) ∧ displays (st later) = displays (st w) ∧
  emitted later = emitted w ∧
  (∀ t, t ∈ tasks → optionsOf (st later) t.1 = list_to_map (default [] (desc_options t.2))) ∧
  (∀ j, j ∉ tasks.*1 → contentSlotOptions (st later) !! j = contentSlotOptions (st w) !! j).
Proof using no_failure.
  revert w. induction tasks as [|[i d] tasks IH]; intros w Hpend Hnd Hopts; cbn zeta.
  { simpl. split_and!; try done. by intros t ?%elem_of_nil. }
  simpl in Hpend. cbn [length settle]. rewrite Hpend.
  apply NoDup_cons in Hnd as [Hout Hnd]. apply Forall_cons in Hopts as [Hd Hopts].
  destruct (exec_option_task i d (dequeue w) Hd)
    as (w1 & -> & Hi & Hoth & Hs1 & Hv1 & Hd1 & He1 & Hp1 & Hu1).
  simpl in *. rewrite Hpend in Hp1. simpl in Hp1.
  destruct (IH w1 Hp1 Hnd Hopts) as (Hp & Hu & Hs & Hv & Hdd & He & Hon & Hoff).
  split_and!; try congruence.
  - intros t [->|Hin]%elem_of_cons; [|by apply Hon]. simpl.
    unfold optionsOf in *. by rewrite (Hoff i Hout).
  - intros j [Hne Hj]%not_elem_of_cons. rewrite (Hoff j Hj). by apply Hoth.
Qed.

End Settling.

(** X13. The options do arrive, later.  When [updateContentSlotsForView]
    has resolved, it has started one option reconciliation per descriptor;
    once these promises have run, and if none of their calls fails, every
    descriptor's content slot has exactly the submitted options (none, when
    the descriptor has no [options]), provided the descriptors address
    distinct content slots.  The promises change nothing else: the content
    slots stay as the method left them. *)
Theorem options_persist_once_settled (fault fault' : nat → bool) (viewId : nat)
    (l : list SlotDescriptor) (w w' : world) :
  store_wf (st w) → pending w = [] →
  (∀ n, fault' n = false) →
  NoDup (targets (nextContentSlotId (st w)) l) →
  Forall (λ d, NoDup (default [] (desc_options d)).*1) l →
  exec fault (updateContentSlotsForView viewId l) w = (Ok tt, w') →
  let later := settle fault' (length l) w' in
  length (pending w') = length l ∧
  pending later = [] ∧ unhandled later = unhandled w' ∧
  contentSlots (st later) = contentSlots (st w') ∧
  ∀ k d i, l !! k = Some d → targets (nextContentSlotId (st w)) l !! k = Some i →
    contentSlots (st later) !! i = Some (slot_record viewId i d) ∧
    optionsOf (st later) i = list_to_map (default [] (desc_options d)).
Proof.
  intros Hwf Hquiet Hf Hnd Hopts Hrun.
  destruct (updateContentSlotsForView_ok fault viewId l w w' Hwf Hrun)
    as (Hs & _ & Hp & _).
  rewrite Hquiet in Hp. simpl in Hp. rewrite option_tasks_targets in Hp.
  set (next := nextContentSlotId (st w)) in *.
  set (tasks := zip (targets next l) l) in *.
  assert (tasks.*1 = targets next l) as Hfst
    by (apply fst_zip; by rewrite length_targets).
  assert (length tasks = length l) as Hlen.
  { unfold tasks. rewrite length_zip, length_targets. lia. }
  pose proof (settle_option_tasks fault' Hf tasks w' Hp) as Hsettle.
  rewrite Hlen in Hsettle. cbn zeta in *.
  destruct Hsettle as (Hp' & Hu' & Hs' & _ & _ & _ & Hon & _).
  { by rewrite Hfst. }
  { apply Forall_forall. intros [i d] Hin%elem_of_zip_r. simpl.
    by apply (proj1 (Forall_forall _ _) Hopts). }
  split_and!; [|done..|].
  { by rewrite Hp, length_fmap. }
  intros k d i Hd Hi. split.
  - rewrite Hs'. apply (f_equal fst) in Hs. simpl in Hs. rewrite Hs.
    by apply (apply_descriptors_on_target viewId l _ next k).
  - apply (Hon (i, d)). apply (list_elem_of_lookup_2 _ k).
    apply lookup_zip_with_Some. by exists i, d.
Qed.

Lemma options_persist_once_settled_witness :
  let l := [recoloured_descriptor; weather_descriptor] in
  let run := exec no_fault (updateContentSlotsForView 1 l) (world_of sample_store) in
  let later := settle no_fault 2 run.2 in
  optionsOf (st later) 1 = {["color" := VString "blue"]} ∧ optionsOf (st later) 2 = ∅.
Proof.
  intros l run later.
  assert (NoDup (targets 2 l)) as Hnd by (by apply (bool_decide_unpack _)).
  assert (Forall (λ d, NoDup (default [] (desc_options d)).*1) l) as Hopts.
  { repeat constructor. simpl. by intros ?%elem_of_nil. }
  pose proof (options_persist_once_settled no_fault no_fault 1 l (world_of sample_store)
                run.2 sample_store_wf eq_refl (λ _, eq_refl) Hnd Hopts eq_refl)
    as (_ & _ & _ & _ & H).
  split.
  - exact (proj2 (H 0 recoloured_descriptor 1 eq_refl eq_refl)).
  - exact (proj2 (H 1 weather_descriptor 2 eq_refl eq_refl)).
Defined.

(** ** Deleting a view or a display *)

Section Deleting.

Variable fault : nat → bool.

Lemma deleteView_calls (viewId : nat) :
  all_calls (deleteView_call viewId) (λ _, False) (deleteView viewId).
Proof.
  unfold deleteView. apply all_calls_bind.
  { eapply all_calls_impl; [| |apply getView_reads]; [by intros c Hc; left|done]. }
  intros view. apply all_calls_bind; [apply all_calls_await; by left|].
  intros display. apply all_calls_catch.
  - apply all_calls_bind; [apply all_calls_await; right; by left|].
    intros _. apply (all_calls_await _ _ (emit views_updated (payload_display display))).
    right. right. by left.
  - intros e. apply (all_calls_await _ _ (logger_error e)). right. right. by right.
Qed.

Lemma repo_deleteView_call (viewId : nat) (c : call) (s s' : store) (r : resp c) :
  deleteView_call viewId c → repo c s = inr (r, s') →
  contentSlots s' = contentSlots s ∧ contentSlotOptions s' = contentSlotOptions s ∧
  displays s' = displays s ∧ ∀ j, j ≠ viewId → views s' !! j = views s !! j.
Proof.
  intros [Hread|[->|[Hemit|Hlog]]] Hrepo.
  - by rewrite (repo_read c s s' r Hread Hrepo).
  - simpl in Hrepo. destruct (views s !! viewId); injection Hrepo as _ <-; [|done].
    simpl. split_and!; try done. intros j Hj. by rewrite lookup_delete_ne.
  - destruct c; try done. by injection Hrepo as _ <-.
  - destruct c; try done. by injection Hrepo as _ <-.
Qed.

Lemma exec_deleteView_frame (viewId : nat) (w : world) :
  let w' := (exec fault (deleteView viewId) w).2 in
  contentSlots (st w') = contentSlots (st w) ∧
  contentSlotOptions (st w') = contentSlotOptions (st w) ∧
  displays (st w') = displays (st w) ∧
  ∀ j, j ≠ viewId → views (st w') !! j = views (st w) !! j.
Proof.
  apply (exec_store_invariant fault (deleteView_call viewId)
    (λ s, contentSlots s = contentSlots (st w) ∧
          contentSlotOptions s = contentSlotOptions (st w) ∧
          displays s = displays (st w) ∧
          ∀ j, j ≠ viewId → views s !! j = views (st w) !! j)); [| |done].
  - intros c s r s' Hc Hrepo (Hs & Ho & Hd & Hv).
    destruct (repo_deleteView_call viewId c s s' r Hc Hrepo) as (-> & -> & -> & Hv').
    split_and!; try done. intros j Hj. by rewrite Hv', Hv.
  - eapply all_calls_impl; [| |apply deleteView_calls]; done.
Qed.

(** X14. [deleteView] does not cascade.  Whatever its outcome, the content
    slots and the option maps stay as they are, so the content slots of a
    deleted view and their options remain persisted; the displays and all
    other views are untouched and no promise is started. *)
Theorem deleteView_keeps_content_slots (viewId : nat) (w : world) :
  let w' := (exec fault (deleteView viewId) w).2 in
  contentSlots (st w') = contentSlots (st w) ∧
  contentSlotOptions (st w') = contentSlotOptions (st w) ∧
  slotsOfView (st w') viewId = slotsOfView (st w) viewId ∧
  displays (st w') = displays (st w) ∧
  (∀ j, j ≠ viewId → views (st w') !! j = views (st w) !! j) ∧
  pending w' = pending w.
Proof.
  cbn zeta. destruct (exec_deleteView_frame viewId w) as (Hs & Ho & Hd & Hv).
  destruct (exec_no_spawn fault _ _ w (deleteView_calls viewId)) as [Hp _].
  split_and!; try done. unfold slotsOfView. by rewrite Hs.
Qed.

(** X15. [deleteView] swallows a failed deletion.  When the view and its
    display were read and the call that deletes the view fails, the method
    still resolves: the error goes to the logger, no event is emitted, and
    the view is still persisted. *)
Theorem deleteView_swallows_failed_deletion (viewId : nat) (w w1 w2 w3 : world)
    (view : View * list EnrichedContentSlot) (display : option Display) (e : error) :
  exec fault (getView viewId) w = (Ok view, w1) →
  perform fault (displayRepository_getDisplayById (view_displayId view.1)) w1
    = (inr display, w2) →
  perform fault (viewRepository_deleteView viewId) w2 = (inl e, w3) →
  ∃ w', exec fault (deleteView viewId) w = (Ok tt, w') ∧
        st w' = st w ∧ views (st w') !! viewId = Some view.1 ∧
        emitted w' = emitted w ∧ logged w' = logged w ++ [e].
Proof.
  intros Hview Hdisplay Hdelete.
  destruct (getView_ok fault viewId w w1 view Hview) as (Hv & Hst1 & He1 & Hl1 & _).
  apply perform_ok in Hdisplay as Hd. destruct Hd as [Hrepo Hw2].
  simpl in Hrepo. injection Hrepo as _ Hst2.
  pose proof (perform_err fault _ _ _ _ Hdelete) as Hw3.
  unfold deleteView, getDisplayById. rewrite exec_bind, Hview, exec_bind.
  await_unfold. rewrite Hdisplay, exec_catch, exec_bind.
  await_unfold. rewrite Hdelete. rewrite exec_logger_error.
  eexists. split; [done|]. rewrite Hw3. simpl. rewrite Hw2. simpl.
  rewrite <-Hst2, Hst1, He1, Hl1. done.
Qed.

Lemma deleteDisplay_calls (displayId : nat) :
  all_calls (deleteDisplay_call displayId) (λ _, False) (deleteDisplay displayId).
Proof.
  unfold deleteDisplay. apply all_calls_bind; [apply all_calls_await; by left|].
  intros result. apply all_calls_bind; [|done].
  destruct result; [|done].
  apply (all_calls_await _ _ (emit display_deleted (payload_result true))). by right.
Qed.

(** X16. [deleteDisplay] does not cascade either.  Whatever its outcome,
    the views, the content slots and the option maps stay as they are, so
    the views of a deleted display remain persisted, and all other displays
    are untouched.  When there is no such display nothing changes at all:
    the method resolves to false, or rejects when the repository call
    fails, and emits no event. *)
Theorem deleteDisplay_keeps_views (displayId : nat) (w : world) :
  let run := exec fault (deleteDisplay displayId) w in
  views (st run.2) = views (st w) ∧
  contentSlots (st run.2) = contentSlots (st w) ∧
  contentSlotOptions (st run.2) = contentSlotOptions (st w) ∧
  (∀ j, j ≠ displayId → displays (st run.2) !! j = displays (st w) !! j) ∧
  (displays (st w) !! displayId = None →
   st run.2 = st w ∧ emitted run.2 = emitted w ∧
   run.1 = if fault (clock w) then Err StorageFailure else Ok false).
Proof.
  cbn zeta. pose proof (deleteDisplay_calls displayId) as Hcalls.
  pose proof (exec_store_invariant fault (deleteDisplay_call displayId)
    (λ s, views s = views (st w) ∧ contentSlots s = contentSlots (st w) ∧
          contentSlotOptions s = contentSlotOptions (st w) ∧
          ∀ j, j ≠ displayId → displays s !! j = displays (st w) !! j)) as Hinv.
  destruct Hinv with (p := deleteDisplay displayId) (w := w) as (Hv & Hs & Ho & Hd);
    [| |done|].
  { intros c s r s' [->|Hemit] Hrepo (Hv & Hs & Ho & Hd).
    - simpl in Hrepo. destruct (displays s !! displayId); injection Hrepo as _ <-; [|done].
      simpl. split_and!; try done. intros j Hj. by rewrite lookup_delete_ne, Hd.
    - destruct c; try done. by injection Hrepo as _ <-. }
  { eapply all_calls_impl; [| |exact Hcalls]; done. }
  split_and!; try done.
  intros Hnone. unfold deleteDisplay. rewrite exec_bind. await_unfold. unfold perform.
  simpl. rewrite Hnone. by destruct (fault (clock w)).
Qed.

End Deleting.

Lemma deleteDisplay_keeps_views_witness :
  let run := exec no_fault (deleteDisplay 9) (world_of sample_store) in
  st run.2 = sample_store ∧ emitted run.2 = [] ∧ run.1 = Ok false.
Proof.
  exact (proj2 (proj2 (proj2 (proj2
           (deleteDisplay_keeps_views no_fault 9 (world_of sample_store))))) eq_refl).
Defined.

Lemma deleteView_keeps_content_slots_witness :
  slotsOfView (st (exec no_fault (deleteView 1) (world_of sample_store)).2) 1 =
    slotsOfView sample_store 1.
Proof.
  exact (proj1 (proj2 (proj2 (deleteView_keeps_content_slots no_fault 1 (world_of sample_store))))).
Defined.

Lemma deleteView_swallows_failed_deletion_witness :
  ∃ w', exec (fault_at 4) (deleteView 1) (world_of sample_store) = (Ok tt, w') ∧
        st w' = sample_store ∧ views (st w') !! 1 = Some sample_view ∧
        emitted w' = [] ∧ logged w' = [StorageFailure].
Proof.
  exact (deleteView_swallows_failed_deletion (fault_at 4) 1 (world_of sample_store)
           _ _ _ _ _ _ eq_refl eq_refl eq_refl).
Defined.

(** ** What [updateView] hands back *)

Section UpdatingViews.

Variable fault : nat → bool.

(** X17. The content slots that [updateView] resolves to are the content
    slots persisted for the view when the method resolves, which are the
    ones the slot reconciler made of the submitted list: the slots of the
    view that were not submitted are gone, every descriptor is applied, and
    every descriptor that has an identity has its slot among the returned
    ones, inside the view.  Nothing is said about the options objects
    returned with the slots: the option reconciliations that were started
    and not awaited may or may not have written by then. *)
Theorem updateView_returns_reconciled_slots (id : nat) (name : string)
    (columns rows : Z) (newContentSlots : list SlotDescriptor) (w w' : world)
    (r : View * list EnrichedContentSlot) :
  store_wf (st w) →
  exec fault (updateView id name columns rows newContentSlots) w = (Ok r, w') →
  let removed := removedIds (slotsOfView (st w) id) newContentSlots in
  r.2.*1 = slotsOfView (st w') id ∧
  (contentSlots (st w'), nextContentSlotId (st w')) =
    foldl (apply_descriptor id)
      (delete_all removed (contentSlots (st w)), nextContentSlotId (st w))
      newContentSlots ∧
  (∀ c, c ∈ r.2.*1 → slot_viewId c = id) ∧
  (∀ i, Some i ∈ desc_id <$> newContentSlots → ∃ c, c ∈ r.2.*1 ∧ slot_id c = i).
Proof.
  intros Hwf. cbn zeta. unfold updateView.
  rewrite exec_bind. await_case as view w1 Hview; [done|].
  destruct Hview as [Hrepo1 Hw1].
  destruct (views (st w) !! id) as [v0|] eqn:Hv0; [|done]. injection Hrepo1 as <- Hst1.
  destruct (wf_views _ Hwf _ _ Hv0) as [Hid _]. rewrite Hid.
  rewrite exec_bind. await_case as updated w2 Hupd; [done|].
  destruct Hupd as [Hrepo2 Hw2]. rewrite <-Hst1, Hv0 in Hrepo2.
  injection Hrepo2 as <- Hst2. cbn [view_id].
  assert (store_wf (st w2)) as Hwf2.
  { rewrite <-Hst2. split; simpl; try apply Hwf. intros j x.
    rewrite lookup_insert. case_decide as Hj; [|apply Hwf].
    intros [= <-]. subst j. simpl. split; [done|]. by apply (wf_views _ Hwf _ _ Hv0). }
  assert (contentSlots (st w2) = contentSlots (st w) ∧
          nextContentSlotId (st w2) = nextContentSlotId (st w)) as [Hs2 Hn2]
    by (by rewrite <-Hst2).
  rewrite exec_bind.
  destruct (exec fault (updateContentSlotsForView id newContentSlots) w2)
    as [[[]|e] w3] eqn:Hrec; [|done].
  destruct (updateContentSlotsForView_ok fault _ _ w2 w3 Hwf2 Hrec) as (Hs3 & _ & _ & Hwf3).
  assert (slotsOfView (st w2) id = slotsOfView (st w) id) as Hsame
    by (unfold slotsOfView; by rewrite Hs2).
  rewrite Hsame, Hs2, Hn2 in Hs3.
  rewrite exec_bind.
  destruct (exec fault (getView id) w3) as [[r'|e] w4] eqn:Hread; [|done].
  pose proof (getView_ok_slots fault id w3 w4 r' Hread) as Hslots.
  apply getView_ok in Hread as (_ & Hst4 & _).
  simpl. intros [= <- <-]. simpl. rewrite Hst4.
  assert (r'.2.*1 = slotsOfView (st w3) id) as Hfst.
  { rewrite Hslots. unfold enriched. rewrite <-list_fmap_compose. apply list_fmap_id. }
  split_and!; [done|done| |].
  - intros c Hc. rewrite Hfst in Hc. by apply elem_of_slotsOfView in Hc as [Hv _].
  - intros i Hi. apply (f_equal fst) in Hs3. simpl in Hs3.
    destruct (apply_descriptors_owned id newContentSlots
                (delete_all (removedIds (slotsOfView (st w) id) newContentSlots)
                   (contentSlots (st w)))
                (nextContentSlotId (st w)) i) as (c & Hc & Hv); [by left|].
    rewrite <-Hs3 in Hc. exists c. split.
    + rewrite Hfst. apply elem_of_slotsOfView. split; [done|]. by exists i.
    + by apply (wf_contentSlots _ Hwf3 _ _ Hc).
Qed.

End UpdatingViews.

Lemma updateView_returns_reconciled_slots_witness :
  ∃ r w',
    exec no_fault (updateView 1 "main" 4 3 [recoloured_descriptor; weather_descriptor])
      (world_of sample_store) = (Ok r, w') ∧
    r.2.*1 = slotsOfView (st w') 1 ∧
    ∃ c, c ∈ r.2.*1 ∧ slot_id c = 1.
Proof.
  assert (∃ r w',
            exec no_fault (updateView 1 "main" 4 3 [recoloured_descriptor; weather_descriptor])
              (world_of sample_store) = (Ok r, w')) as (r & w' & Hrun)
    by (vm_compute; by do 2 eexists).
  exists r, w'. split; [exact Hrun|].
  destruct (updateView_returns_reconciled_slots no_fault 1 "main" 4 3
              [recoloured_descriptor; weather_descriptor] (world_of sample_store) w' r
              sample_store_wf Hrun)
    as (Hslots & _ & _ & Hnamed).
  split; [exact Hslots|]. apply Hnamed. apply list_elem_of_fmap.
  exists recoloured_descriptor. split; [reflexivity|]. apply list_elem_of_here.
Defined.

(** ** A rejected [updateView] *)

Section RejectedUpdate.

Variable fault : nat → bool.

Lemma updateContentSlotsForView_spawns (viewId : nat) (l : list SlotDescriptor) :
  all_calls (reconciler_call viewId) is_option_task (updateContentSlotsForView viewId l).
Proof.
  assert (∀ i d, all_calls (reconciler_call viewId) is_option_task
                   (unawaited (setOptionsForContentSlot i (default [] (desc_options d)))))
    as Hspawn.
  { intros i d. apply all_calls_unawaited; [by exists i, d|].
    eapply all_calls_impl; [| |apply setOptionsForContentSlot_calls]; [|done].
    intros c [Hc _]. destruct c; simpl in *; try done; by eexists. }
  unfold updateContentSlotsForView.
  apply all_calls_bind; [apply all_calls_await; first [done|by eexists]|]. intros existing.
  apply all_calls_catch; [|done].
  apply all_calls_bind.
  - apply all_calls_for_of. intros i. unfold removeSlot.
    apply all_calls_bind; [apply all_calls_await; first [done|by eexists]|]. intros _.
    apply all_calls_bind; [apply all_calls_await; first [done|by eexists]|]. done.
  - intros _. apply all_calls_for_of. intros d. unfold reconcileSlot.
    destruct (desc_id d) as [i|].
    + apply all_calls_bind; [apply all_calls_await; first [done|by eexists]|]. intros c.
      apply all_calls_bind; [apply all_calls_await; first [done|by eexists]|]. intros _.
      apply Hspawn.
    + apply all_calls_bind; [apply all_calls_await; first [done|by eexists]|]. intros c.
      apply Hspawn.
Qed.

Lemma perform_pending (c : call) (w : world) : pending (perform fault c w).2 = pending w.
Proof.
  unfold perform. destruct (fault (clock w) && fallible c); [done|].
  destruct (repo c (st w)) as [e|[r s']]; [done|]. by destruct c.
Qed.

Lemma updateContentSlotsForView_pending (viewId : nat) (l : list SlotDescriptor) (w : world) :
  ∃ started, pending (exec fault (updateContentSlotsForView viewId l) w).2
               = pending w ++ started ∧
             Forall is_option_task started.
Proof.
  apply (exec_invariant fault (reconciler_call viewId) is_option_task
           (λ w', ∃ started, pending w' = pending w ++ started ∧
                             Forall is_option_task started));
    [| |apply updateContentSlotsForView_spawns|].
  - intros c w0 _ (started & Hp & Hs). exists started. by rewrite perform_pending.
  - intros q w0 Hq (started & Hp & Hs). exists (started ++ [q]). simpl.
    rewrite Hp, app_assoc. split; [done|]. apply Forall_app. split; [done|]. by constructor.
  - exists []. by rewrite app_nil_r.
Qed.

(** X18. [updateView] is not atomic.  When the view was read and updated
    and the slot reconciler then rejects, the method rejects with the same
    error, but the view keeps its new name, columns and rows; no event is
    emitted and no notification is started, the only promises started are
    the option reconciliations of the descriptors handled before the
    failure. *)
Theorem updateView_rejects_after_update (id : nat) (name : string) (columns rows : Z)
    (contentSlots : list SlotDescriptor) (w w1 w2 w3 : world) (v0 updated : View)
    (e : error) :
  store_wf (st w) →
  perform fault (viewRepository_getViewById id) w = (inr v0, w1) →
  perform fault
    (viewRepository_updateView id name columns rows
       (view_displayId v0) (view_order v0) (view_screenType v0)) w1 = (inr updated, w2) →
  exec fault (updateContentSlotsForView id contentSlots) w2 = (Err e, w3) →
  exec fault (updateView id name columns rows contentSlots) w = (Err e, w3) ∧
  views (st w3) !! id =
    Some (mkView id name columns rows
            (view_displayId v0) (view_order v0) (view_screenType v0)) ∧
  emitted w3 = emitted w ∧
  ∃ started, pending w3 = pending w ++ started ∧ Forall is_option_task started.
Proof.
  intros Hwf Hview Hupd Hrec.
  pose proof (perform_ok fault _ _ _ _ Hview) as [Hrepo1 Hw1]. simpl in Hrepo1.
  destruct (views (st w) !! id) as [v|] eqn:Hv0; [|done]. injection Hrepo1 as -> Hst1.
  destruct (wf_views _ Hwf _ _ Hv0) as [Hid _].
  pose proof (perform_ok fault _ _ _ _ Hupd) as [Hrepo2 Hw2]. simpl in Hrepo2.
  rewrite <-Hst1, Hv0 in Hrepo2. injection Hrepo2 as <- Hst2.
  pose proof (updateContentSlotsForView_frame fault id contentSlots w2) as Hframe.
  pose proof (updateContentSlotsForView_pending id contentSlots w2) as Hpend.
  rewrite Hrec in Hframe, Hpend. simpl in Hframe, Hpend.
  destruct Hframe as (He3 & _ & _ & Hv3).
  split_and!.
  - unfold updateView. rewrite exec_bind. await_unfold. rewrite Hview.
    rewrite exec_bind, Hid. await_unfold. rewrite Hupd.
    rewrite exec_bind. cbn [view_id]. by rewrite Hrec.
  - rewrite Hv3, <-Hst2. simpl. by rewrite lookup_insert_eq.
  - rewrite He3, Hw2, Hw1. done.
  - destruct Hpend as (started & -> & Hs). exists started. split; [|done].
    rewrite Hw2, Hw1. done.
Qed.

End RejectedUpdate.

Lemma updateView_rejects_after_update_witness :
  let run := exec no_fault (updateView 1 "renamed" 6 4 [missing_descriptor])
                  (world_of sample_store) in
  run.1 = Err NotFound ∧
  views (st run.2) !! 1 = Some (mkView 1 "renamed" 6 4 5 1 "idle").
Proof.
  pose proof (updateView_rejects_after_update no_fault 1 "renamed" 6 4 [missing_descriptor]
                (world_of sample_store) _ _ _ sample_view _ NotFound
                sample_store_wf eq_refl eq_refl eq_refl) as (Hrun & Hview & _).
  intros run. unfold run. rewrite Hrun. split; [reflexivity|exact Hview].
Defined.

(** ** Positions of views *)

Lemma createView_ok (fault : nat → bool) (name : string) (columns rows : Z) (displayId : nat)
    (screenType : string) (w w' : world) (id : nat) :
  exec fault (createView name columns rows displayId screenType) w = (Ok id, w') →
  let order := length (viewsOfGroup (st w) displayId screenType) + 1 in
  id = nextViewId (st w) ∧
  st w' = with_views
            (<[id := mkView id name columns rows displayId order screenType]> (views (st w)))
            (S id) (st w).
Proof.
  unfold createView. rewrite exec_bind. await_case as group w1 Hread; [done|].
  destruct Hread as [Hrepo Hw1]. injection Hrepo as <- Hst1.
  await_case as id' w2 Hnew; [done|].
  destruct Hnew as [Hrepo Hw2]. intros [= -> ->].
  rewrite <- Hst1 in Hrepo. injection Hrepo as Hid Hst2. by rewrite <-Hid in *.
Qed.

Lemma viewsOfGroup_delete (s s' : store) (i : nat) (v : View) :
  views s !! i = Some v → views s' = delete i (views s) →
  viewsOfGroup s (view_displayId v) (view_screenType v)
  ≡ₚ v :: viewsOfGroup s' (view_displayId v) (view_screenType v).
Proof.
  intros Hv Hs'. unfold viewsOfGroup. rewrite Hs', <-(map_to_list_delete _ _ _ Hv).
  csimpl. by rewrite filter_cons_True by done.
Qed.

(** X19. Positions are not unique after a deletion.  [createView] takes
    the number of views in the group plus one as the position; when a view
    other than the last one has been deleted from the group, the next view
    created in that group gets the position that the last view already
    has. *)
Theorem createView_after_deleteView_reuses_position (fault fault' : nat → bool)
    (viewId : nat) (name : string) (columns rows : Z) (w w1 w2 : world)
    (v last : View) (id : nat) :
  store_wf (st w) →
  views (st w) !! viewId = Some v →
  views (st w) !! view_id last = Some last →
  view_id last ≠ viewId →
  view_displayId last = view_displayId v → view_screenType last = view_screenType v →
  view_order last = length (viewsOfGroup (st w) (view_displayId v) (view_screenType v)) →
  exec fault (deleteView viewId) w = (Ok tt, w1) →
  views (st w1) !! viewId = None →
  exec fault' (createView name columns rows (view_displayId v) (view_screenType v)) w1
    = (Ok id, w2) →
  ∃ new, views (st w2) !! id = Some new ∧
         views (st w2) !! view_id last = Some last ∧
         id ≠ view_id last ∧
         view_displayId new = view_displayId last ∧
         view_screenType new = view_screenType last ∧
         view_order new = view_order last.
Proof.
  intros Hwf Hv Hlast Hne Hd Ht Horder Hdel Hgone Hcreate.
  pose proof (exec_deleteView_frame fault viewId w) as Hframe.
  pose proof (exec_wf fault (deleteView viewId) w Hwf) as Hwf1.
  rewrite Hdel in Hframe, Hwf1. simpl in Hframe, Hwf1.
  destruct Hframe as (_ & _ & _ & Hothers).
  assert (views (st w1) = delete viewId (views (st w))) as Hviews1.
  { apply map_eq. intros j. destruct (decide (j = viewId)) as [->|Hj].
    - by rewrite lookup_delete_eq.
    - rewrite lookup_delete_ne by done. by apply Hothers. }
  pose proof (viewsOfGroup_delete (st w) (st w1) viewId v Hv Hviews1) as Hgroup.
  apply Permutation_length in Hgroup. simpl in Hgroup.
  destruct (createView_ok fault' _ _ _ _ _ _ _ _ Hcreate) as [Hid Hst2].
  assert (views (st w1) !! view_id last = Some last) as Hlast1
    by (by rewrite Hothers).
  destruct (wf_views _ Hwf1 _ _ Hlast1) as [_ Hlt].
  eexists. rewrite Hst2. simpl. split_and!.
  - by rewrite lookup_insert_eq.
  - rewrite lookup_insert_ne by lia. done.
  - lia.
  - done.
  - done.
  - simpl. lia.
Qed.

Lemma createView_after_deleteView_reuses_position_witness :
  let w1 := (exec no_fault (deleteView 1) (world_of two_view_store)).2 in
  let w2 := (exec no_fault (createView "third" 2 2 5 "idle") w1).2 in
  ∃ new, views (st w2) !! 3 = Some new ∧
         views (st w2) !! 2 = Some (mkView 2 "side" 2 2 5 2 "idle") ∧
         3 ≠ 2 ∧ view_displayId new = 5 ∧ view_screenType new = "idle" ∧
         view_order new = 2.
Proof.
  exact (createView_after_deleteView_reuses_position no_fault no_fault 1 "third" 2 2
           (world_of two_view_store) _ _ sample_view (mkView 2 "side" 2 2 5 2 "idle") 3
           two_view_store_wf eq_refl eq_refl ltac:(done) eq_refl eq_refl eq_refl
           eq_refl eq_refl eq_refl).
Defined.

(** X20. Two views created one after the other in the same group get
    consecutive positions, and both are persisted afterwards. *)
Theorem createView_twice_consecutive (fault fault' : nat → bool)
    (name1 name2 : string) (columns1 rows1 columns2 rows2 : Z)
    (displayId : nat) (screenType : string) (w w1 w2 : world) (id1 id2 : nat) :
  store_wf (st w) →
  exec fault (createView name1 columns1 rows1 displayId screenType) w = (Ok id1, w1) →
  exec fault' (createView name2 columns2 rows2 displayId screenType) w1 = (Ok id2, w2) →
  ∃ order,
    views (st w2) !! id1 =
      Some (mkView id1 name1 columns1 rows1 displayId order screenType) ∧
    views (st w2) !! id2 =
      Some (mkView id2 name2 columns2 rows2 displayId (order + 1) screenType) ∧
    id1 ≠ id2.
Proof.
  intros Hwf Hfirst Hsecond.
  destruct (createView_ok fault _ _ _ _ _ _ _ _ Hfirst) as [Hid1 Hst1].
  destruct (createView_ok fault' _ _ _ _ _ _ _ _ Hsecond) as [Hid2 Hst2].
  set (order := length (viewsOfGroup (st w) displayId screenType) + 1) in *.
  set (v1 := mkView id1 name1 columns1 rows1 displayId order screenType) in *.
  assert (views (st w) !! id1 = None) as Hfresh.
  { destruct (views (st w) !! id1) as [v|] eqn:Hv; [|done].
    apply (wf_views _ Hwf) in Hv as [_ Hlt]. lia. }
  assert (length (viewsOfGroup (st w1) displayId screenType) = order) as Hlen.
  { pose proof (viewsOfGroup_insert (st w) v1 (S id1) Hfresh) as Hgroup.
    apply Permutation_length in Hgroup. rewrite Hst1. etrans; [exact Hgroup|].
    simpl. unfold order. lia. }
  rewrite Hlen in Hst2. rewrite Hst1 in Hid2. simpl in Hid2.
  exists order. rewrite Hst2. simpl. split_and!.
  - rewrite lookup_insert_ne by lia. rewrite Hst1. simpl. by rewrite lookup_insert_eq.
  - by rewrite lookup_insert_eq.
  - lia.
Qed.

Lemma createView_twice_consecutive_witness :
  let w1 := (exec no_fault (createView "a" 4 3 5 "idle") (world_of empty_store)).2 in
  let w2 := (exec no_fault (createView "b" 2 2 5 "idle") w1).2 in
  ∃ order, views (st w2) !! 1 = Some (mkView 1 "a" 4 3 5 order "idle") ∧
           views (st w2) !! 2 = Some (mkView 2 "b" 2 2 5 (order + 1) "idle") ∧ 1 ≠ 2.
Proof.
  assert (store_wf empty_store) as Hwf by (by split; intros i x; simpl).
  exact (createView_twice_consecutive no_fault no_fault "a" "b" 4 3 2 2 5 "idle"
           (world_of empty_store) _ _ 1 2 Hwf eq_refl eq_refl).
Defined.

(** ** The views of a display *)

Section ViewsOfDisplay.

Variable fault : nat → bool.

Lemma exec_enrich_views (views : list View) (w : world) :
  let run := exec fault
    (for_push (Y := EnrichedView) views (λ view,
       contentSlots ← getContentSlotsForView (view_id view);
       Ret (view, contentSlots))) w in
  st run.2 = st w ∧ pending run.2 = pending w ∧ emitted run.2 = emitted w ∧
  (∀ r, run.1 = Ok r → r = enriched_views (st w) views) ∧
  ((∀ n, fault n = false) → run.1 = Ok (enriched_views (st w) views)).
Proof.
  revert w. induction views as [|view views IH]; intros w; cbn zeta.
  { simpl. split_and!; try done. by intros r [= <-]. }
  cbn [for_push]. rewrite exec_bind, exec_bind.
  pose proof (exec_reads fault (getContentSlotsForView (view_id view)) w
                (getContentSlotsForView_reads (view_id view))) as (Hst & Hem & _ & Hpe & _).
  destruct (exec_getContentSlotsForView fault (view_id view) w) as [Hok Htotal].
  destruct (exec fault (getContentSlotsForView (view_id view)) w) as [[slots|e] w1];
    simpl in *.
  2:{ split_and!; try done. intros Hf. by specialize (Htotal Hf). }
  destruct (Hok slots eq_refl) as [-> _]. rewrite exec_bind.
  destruct (IH w1) as (Hst' & Hpe' & Hem' & Hok' & Htotal'). clear IH.
  destruct (exec fault (for_push views _) w1) as [[r|e] w2]; simpl in *.
  - rewrite Hst in *. split_and!; try congruence.
    + intros ? [= <-]. by rewrite (Hok' r eq_refl).
    + intros Hf. specialize (Htotal' Hf). by injection Htotal' as ->.
  - split_and!; try congruence. intros Hf. by specialize (Htotal' Hf).
Qed.

(** X21. [getViewsForDisplay] resolves to one entry per view that the
    repository read returned, in the same order, each with the content
    slots persisted for that view and their options objects as
    [getContentSlotsForView] builds them (the persisted options except one
    named [__proto__]); it writes nothing, and any failing read rejects the
    whole call. *)
Theorem getViewsForDisplay_result (getViewsByDisplayId : nat → prog (list View))
    (displayId : nat) (views : list View) (w w1 : world) :
  exec fault (getViewsByDisplayId displayId) w = (Ok views, w1) →
  st w1 = st w →
  let run := exec fault (getViewsForDisplay getViewsByDisplayId displayId) w in
  st run.2 = st w ∧
  (∀ r, run.1 = Ok r → r = enriched_views (st w) views ∧ length r = length views) ∧
  ((∀ n, fault n = false) → run.1 = Ok (enriched_views (st w) views)).
Proof.
  intros Hread Hst. cbn zeta. unfold getViewsForDisplay. rewrite exec_bind, Hread.
  destruct (exec_enrich_views views w1) as (Hst' & _ & _ & Hok & Htotal).
  rewrite Hst in *. split_and!; [done| |done].
  intros r Hr. rewrite (Hok r Hr). split; [done|].
  unfold enriched_views. by rewrite length_fmap.
Qed.

End ViewsOfDisplay.

Lemma getViewsForDisplay_result_witness :
  (exec no_fault
     (getViewsForDisplay
        (λ displayId, await (viewRepository_getViewsByDisplayIdAndScreenType displayId "idle")) 5)
     (world_of sample_store)).1 =
    Ok [(sample_view, [(sample_slot, {["color" := VString "red"]})])].
Proof.
  exact (proj2 (proj2 (getViewsForDisplay_result no_fault
                         (λ displayId, await (viewRepository_getViewsByDisplayIdAndScreenType
                                                displayId "idle"))
                         5 [sample_view] (world_of sample_store) _ eq_refl eq_refl))
           (λ _, eq_refl)).
Defined.

(** ** A created display *)

Section CreatedDisplay.

Variable fault : nat → bool.


End CreatedDisplay.


(** ** What the started promises can touch *)

Lemma option_task_calls (q : prog unit) :
  is_option_task q → all_calls (λ c, is_Some (option_call_on c)) (λ _, False) q.
Proof.
  intros (i & d & ->). unfold option_task. apply all_calls_bind; [|done].
  eapply all_calls_impl; [| |apply setOptionsForContentSlot_calls]; [|done].
  intros c [Hc _]. by eexists.
Qed.

(** X23. The promises that [updateContentSlotsForView] starts are option
    reconciliations and nothing else, whether it resolves or rejects; when
    they run later, whatever fails by then, they leave the content slots,
    the views and the displays as the method left them. *)
Theorem reconciler_promises_write_only_options (fault fault' : nat → bool) (viewId : nat)
    (l : list SlotDescriptor) (w : world) (fuel : nat) :
  pending w = [] →
  let w' := (exec fault (updateContentSlotsForView viewId l) w).2 in
  let later := settle fault' fuel w' in
  Forall is_option_task (pending w') ∧
  contentSlots (st later) = contentSlots (st w') ∧
  nextContentSlotId (st later) = nextContentSlotId (st w') ∧
  views (st later) = views (st w') ∧
  displays (st later) = displays (st w').
Proof.
  intros Hquiet. cbn zeta.
  destruct (updateContentSlotsForView_pending fault viewId l w) as (started & Hp & Hs).
  rewrite Hquiet, app_nil_l in Hp. rewrite Hp. split; [done|].
  set (w' := (exec fault (updateContentSlotsForView viewId l) w).2) in *.
  apply (settle_store_invariant fault' (λ c, is_Some (option_call_on c))
           (λ s, contentSlots s = contentSlots (st w') ∧
                 nextContentSlotId s = nextContentSlotId (st w') ∧
                 views s = views (st w') ∧ displays s = displays (st w'))); [| |done].
  - intros c s r s' [i Hc] Hrepo (Hs1 & Hn1 & Hv1 & Hd1).
    destruct (repo_option_call_frame i c s s' r Hc Hrepo) as (-> & -> & -> & _ & _ & -> & _).
    done.
  - rewrite Hp. eapply Forall_impl; [exact Hs|]. apply option_task_calls.
Qed.

Lemma reconciler_promises_write_only_options_witness :
  let w' := (exec no_fault (updateContentSlotsForView 1 [recoloured_descriptor])
               (world_of sample_store)).2 in
  contentSlots (st (settle (fault_at 5) 1 w')) = contentSlots (st w').
Proof.
  exact (proj1 (proj2 (reconciler_promises_write_only_options no_fault (fault_at 5) 1
                         [recoloured_descriptor] (world_of sample_store) 1 eq_refl))).
Defined.

(** ** A descriptor that names a missing content slot *)

Section MissingSlot.

Variable fault : nat → bool.
Hypothesis no_failure : ∀ n, fault n = false.

Lemma reconcileSlot_rejects (viewId : nat) (d : SlotDescriptor) (w w1 : world) (e : error) :
  exec fault (reconcileSlot viewId d) w = (Err e, w1) →
  e = NotFound ∧
  ∃ i, desc_id d = Some i ∧ contentSlots (st w) !! i = None ∧
       st w1 = st w ∧ pending w1 = pending w.
Proof using no_failure.
  unfold reconcileSlot. destruct (desc_id d) as [i|].
  - rewrite exec_bind. destruct (contentSlots (st w) !! i) as [c|] eqn:Hc.
    + rewrite (exec_await_no_fault fault (contentSlotRepository_getContentSlot i) w c (st w))
        by (done || by simpl; rewrite Hc).
      rewrite exec_bind.
      match goal with |- context [exec fault (await ?c0) ?w0] =>
        destruct (repo c0 (st w0)) as [e'|[r s']] eqn:Hrepo;
          [exfalso; revert Hrepo; simpl; destruct (contentSlots _ !! slot_id c); intros [=]|];
        rewrite (exec_await_no_fault fault c0 w0 r s' no_failure Hrepo)
      end.
      done.
    + await_unfold. unfold perform. rewrite no_failure. simpl. rewrite Hc.
      intros [= <- <-]. split; [done|]. by exists i.
  - rewrite exec_bind. await_run no_failure. done.
Qed.

Lemma reconcile_loop_rejects (viewId : nat) (l : list SlotDescriptor) (w w' : world)
    (e : error) :
  store_wf (st w) →
  exec fault (for_of l (reconcileSlot viewId)) w = (Err e, w') →
  e = NotFound ∧
  ∃ applied d rest i,
    l = applied ++ d :: rest ∧ desc_id d = Some i ∧
    contentSlots (st w') !! i = None ∧
    (contentSlots (st w'), nextContentSlotId (st w')) =
      foldl (apply_descriptor viewId) (contentSlots (st w), nextContentSlotId (st w)) applied ∧
    contentSlotOptions (st w') = contentSlotOptions (st w) ∧
    pending w' = pending w ++ option_tasks (nextContentSlotId (st w)) applied.
Proof using no_failure.
  revert w. induction l as [|d l IH]; intros w Hwf; [done|].
  cbn [for_of]. rewrite exec_bind.
  destruct (exec fault (reconcileSlot viewId d) w) as [[[]|e1] w1] eqn:Hd.
  - intros Hrest.
    pose proof (exec_wf fault (reconcileSlot viewId d) w Hwf) as Hwf1.
    rewrite Hd in Hwf1. simpl in Hwf1.
    destruct (reconcileSlot_ok fault viewId d w w1 Hwf Hd) as (Hs1 & Ho1 & Hp1 & _).
    destruct (IH w1 Hwf1 Hrest)
      as (-> & applied & d' & rest & i & -> & Hi & Hnone & Hs & Ho & Hp).
    split; [done|]. exists (d :: applied), d', rest, i. split_and!; try done.
    + simpl. by rewrite <-Hs1.
    + congruence.
    + rewrite Hp, Hp1.
      rewrite (option_tasks_cons _ viewId (contentSlots (st w)) d applied), <-Hs1.
      simpl. by rewrite <-app_assoc.
  - intros [= <- <-].
    destruct (reconcileSlot_rejects viewId d w w1 e1 Hd) as (-> & i & Hi & Hnone & Hst & Hp).
    split; [done|]. exists [], d, l, i. simpl. rewrite Hst, Hp, app_nil_r. done.
Qed.

Lemma exec_removals (removed : list nat) (w w' : world) :
  exec fault (for_of removed removeSlot) w = (Ok tt, w') →
  contentSlots (st w') = delete_all removed (contentSlots (st w)) ∧
  contentSlotOptions (st w') = delete_all removed (contentSlotOptions (st w)) ∧
  nextContentSlotId (st w') = nextContentSlotId (st w) ∧
  pending w' = pending w.
Proof.
  intros Hdel.
  apply (exec_for_of_inv fault
           (λ l w2, delete_all l (contentSlots (st w2)) =
                      delete_all removed (contentSlots (st w)) ∧
                    delete_all l (contentSlotOptions (st w2)) =
                      delete_all removed (contentSlotOptions (st w)) ∧
                    nextContentSlotId (st w2) = nextContentSlotId (st w) ∧
                    pending w2 = pending w)
           removed removeSlot w w'); [done| |done].
  intros x l' w2 w3 (Hs & Ho & Hn & Hp) Hbody.
  apply removeSlot_ok in Hbody as (-> & -> & -> & -> & _). done.
Qed.

(** X24. No rollback.  Without a failing call, [updateContentSlotsForView]
    rejects only with the not-found rejection of the content slot
    repository, and only because a descriptor names a content slot that is
    not persisted when its turn comes.  What was done before stays done:
    the content slots that were not submitted are removed with their
    options, the descriptors before the offending one are applied and
    their option promises started; the descriptors after it are ignored. *)
Theorem updateContentSlotsForView_rejects_without_rollback (viewId : nat)
    (l : list SlotDescriptor) (w w' : world) (e : error) :
  store_wf (st w) →
  exec fault (updateContentSlotsForView viewId l) w = (Err e, w') →
  let removed := removedIds (slotsOfView (st w) viewId) l in
  e = NotFound ∧
  ∃ applied d rest i,
    l = applied ++ d :: rest ∧ desc_id d = Some i ∧
    contentSlots (st w') !! i = None ∧
    (contentSlots (st w'), nextContentSlotId (st w')) =
      foldl (apply_descriptor viewId)
        (delete_all removed (contentSlots (st w)), nextContentSlotId (st w)) applied ∧
    contentSlotOptions (st w') = delete_all removed (contentSlotOptions (st w)) ∧
    pending w' = pending w ++ option_tasks (nextContentSlotId (st w)) applied.
Proof using no_failure.
  intros Hwf. cbn zeta. unfold updateContentSlotsForView. rewrite exec_bind.
  await_run no_failure. rewrite exec_rethrow, exec_bind.
  set (removed := removedIds (slotsOfView (st w) viewId) l).
  set (w0 := observe _ _).
  destruct (exec_for_of_total fault removed removeSlot) with (w := w0) as [w1 Hdel].
  { intros i w2. by apply removeSlot_succeeds. }
  rewrite Hdel. intros Hloop.
  destruct (exec_removals removed w0 w1 Hdel) as (Hs1 & Ho1 & Hn1 & Hp1).
  assert (store_wf (st w1)) as Hwf1.
  { pose proof (exec_wf fault (for_of removed removeSlot) w0 Hwf) as H.
    by rewrite Hdel in H. }
  destruct (reconcile_loop_rejects viewId l w1 w' e Hwf1 Hloop)
    as (-> & applied & d & rest & i & -> & Hi & Hnone & Hs & Ho & Hp).
  split; [done|]. exists applied, d, rest, i.
  rewrite Hs, Ho, Hp, Hs1, Ho1, Hn1, Hp1. done.
Qed.

End MissingSlot.

Lemma updateContentSlotsForView_rejects_without_rollback_witness :
  let l := [weather_descriptor; missing_descriptor] in
  let run := exec no_fault (updateContentSlotsForView 1 l) (world_of sample_store) in
  ∃ applied d rest i,
    l = applied ++ d :: rest ∧ desc_id d = Some i ∧
    contentSlots (st run.2) !! i = None ∧
    (contentSlots (st run.2), nextContentSlotId (st run.2)) =
      foldl (apply_descriptor 1) (delete_all [1] (contentSlots sample_store), 2) applied ∧
    contentSlotOptions (st run.2) = delete_all [1] (contentSlotOptions sample_store) ∧
    pending run.2 = option_tasks 2 applied.
Proof.
  exact (proj2 (updateContentSlotsForView_rejects_without_rollback no_fault (λ _, eq_refl) 1
                  [weather_descriptor; missing_descriptor] (world_of sample_store) _ NotFound
                  sample_store_wf eq_refl)).
Defined.

(** ** When the slot reconciler resolves *)

Section Resolves.

Variable fault : nat → bool.
Hypothesis no_failure : ∀ n, fault n = false.

Lemma reconcileSlot_succeeds (viewId : nat) (d : SlotDescriptor) (w : world) :
  (∀ i, desc_id d = Some i → is_Some (contentSlots (st w) !! i)) →
  ∃ w', exec fault (reconcileSlot viewId d) w = (Ok tt, w').
Proof using no_failure.
  intros Hnamed. unfold reconcileSlot. destruct (desc_id d) as [i|].
  - destruct (Hnamed i eq_refl) as [c Hc]. rewrite exec_bind.
    rewrite (exec_await_no_fault fault (contentSlotRepository_getContentSlot i) w c (st w))
      by (done || by simpl; rewrite Hc).
    rewrite exec_bind.
    match goal with |- context [exec fault (await ?c0) ?w0] =>
      destruct (repo c0 (st w0)) as [e'|[r s']] eqn:Hrepo;
        [exfalso; revert Hrepo; simpl; destruct (contentSlots _ !! slot_id c); intros [=]|];
      rewrite (exec_await_no_fault fault c0 w0 r s' no_failure Hrepo)
    end.
    by eexists.
  - rewrite exec_bind. await_run no_failure. by eexists.
Qed.

(** X25. When no call fails and every descriptor that has an identity
    names a content slot that is persisted, [updateContentSlotsForView]
    resolves: together with the removals it performs first, no descriptor
    can then meet a missing content slot. *)
Theorem updateContentSlotsForView_resolves (viewId : nat) (l : list SlotDescriptor)
    (w : world) :
  store_wf (st w) →
  (∀ i, Some i ∈ desc_id <$> l → is_Some (contentSlots (st w) !! i)) →
  ∃ w', exec fault (updateContentSlotsForView viewId l) w = (Ok tt, w').
Proof using no_failure.
  intros Hwf Hnamed. unfold updateContentSlotsForView. rewrite exec_bind.
  await_run no_failure. rewrite exec_rethrow, exec_bind.
  set (removed := removedIds (slotsOfView (st w) viewId) l).
  set (w0 := observe _ _).
  destruct (exec_for_of_total fault removed removeSlot) with (w := w0) as [w1 Hdel].
  { intros i w2. by apply removeSlot_succeeds. }
  rewrite Hdel.
  destruct (exec_removals fault removed w0 w1 Hdel) as (Hs1 & _).
  destruct (exec_for_of_total_inv fault
              (λ w2, ∀ i, Some i ∈ desc_id <$> l → is_Some (contentSlots (st w2) !! i))
              l (reconcileSlot viewId)) with (w := w1) as (w2 & Hrun & _);
    [| |by eexists].
  - intros d Hd w2 Hinv.
    destruct (reconcileSlot_succeeds viewId d w2) as [w3 Hrun].
    { intros i Hi. apply Hinv. apply list_elem_of_fmap. exists d. by split. }
    exists w3. split; [done|]. intros i Hi.
    pose proof (exec_store_invariant fault (upsert_call viewId)
                  (λ s, is_Some (contentSlots s !! i))) as Hkeep.
    specialize (Hkeep) with (p := reconcileSlot viewId d) (w := w2).
    rewrite Hrun in Hkeep. apply Hkeep; [|apply reconcileSlot_calls|by apply Hinv].
    intros c s r s' [Hc Hnr] Hrepo Hsome.
    destruct c; simpl in *; try done;
      repeat match goal with
             | H : context [match ?x with _ => _ end] |- _ => destruct x eqn:?
             end;
      simplify_eq; simpl; try done;
      rewrite lookup_insert; case_decide; by eauto.
  - intros i Hi. rewrite Hs1, lookup_delete_all, decide_False; [by apply Hnamed|].
    unfold removed, removedIds. intros [Hout _]%list_elem_of_filter. apply Hout.
    unfold submittedIds. apply list_elem_of_omap.
    apply list_elem_of_fmap in Hi as (d & Hd & Hin). by exists d.
Qed.

End Resolves.

Lemma updateContentSlotsForView_resolves_witness :
  ∃ w', exec no_fault (updateContentSlotsForView 1 [recoloured_descriptor; weather_descriptor])
          (world_of sample_store) = (Ok tt, w').
Proof.
  apply (updateContentSlotsForView_resolves no_fault (λ _, eq_refl) 1
           [recoloured_descriptor; weather_descriptor] (world_of sample_store)
           sample_store_wf).
  intros i Hi. apply list_elem_of_fmap in Hi as (d & Hd & Hin).
  apply elem_of_cons in Hin as [->|Hin]; [injection Hd as ->; by eexists|].
  apply elem_of_cons in Hin as [->|Hin]; [done|]. by apply elem_of_nil in Hin.
Defined.
